(** * notemarkdown: the Markdown-to-HTML converter of [src/app.js]

    [MarkdownParser.parse] is a pipeline of [String.prototype.replace]
    calls with regular-expression patterns, closed by a [split]/[map]/[join]
    pass that wraps paragraphs.  The development embeds

    - JavaScript strings as lists of UTF-16 code units ([list N]);
    - the regular expressions of the source as terms of a small syntax,
      run by a backtracking matcher written in continuation-passing style,
      with the priorities of the ECMAScript matcher (greedy and lazy
      quantifiers, the empty-iteration check, capture groups, [^] and [$]
      under the [m] flag, [.] under the [s] flag);
    - [replace] with and without the [g] flag, [match], [split] and [join];
    - [parse] itself, stage by stage, in the order of the source.

    The matcher is generic in the type of characters: it only looks at the
    code unit of a character.  The plain converter works on code units; a
    second instance carries, next to each code unit, where it comes from
    (the note or a replacement template), which is what the statements about
    escaping need. *)

From Stdlib Require Import String Ascii List NArith ZArith Bool Arith Lia.
Import ListNotations.
Open Scope string_scope.
Open Scope list_scope.

Set Implicit Arguments.

(** ** Strings as code units *)

Definition str (s : string) : list N :=
  map N_of_ascii (list_ascii_of_string s).

Definition dquote : N := 34.
Definition newline : N := 10.

(** LineTerminator of ECMAScript: LF, CR, LS, PS. *)
Definition is_line_terminator (c : N) : bool :=
  (c =? 10)%N || (c =? 13)%N || (c =? 8232)%N || (c =? 8233)%N.

(** The characters of the class escape [\s]: WhiteSpace and LineTerminator. *)
Definition is_space (c : N) : bool :=
  (c =? 9)%N || (c =? 10)%N || (c =? 11)%N || (c =? 12)%N || (c =? 13)%N ||
  (c =? 32)%N || (c =? 160)%N || (c =? 5760)%N ||
  ((8192 <=? c)%N && (c <=? 8202)%N) ||
  (c =? 8232)%N || (c =? 8233)%N || (c =? 8239)%N || (c =? 8287)%N ||
  (c =? 12288)%N || (c =? 65279)%N.

(** The characters of the class escape [\d]. *)
Definition is_digit (c : N) : bool := (48 <=? c)%N && (c <=? 57)%N.

(** ** Regular expressions *)

Inductive class_item : Type :=
| CChar (c : N)        (* a literal member *)
| CSpace               (* \s *)
| CNotSpace.           (* \S *)

Definition class_item_test (i : class_item) (c : N) : bool :=
  match i with
  | CChar d => (c =? d)%N
  | CSpace => is_space c
  | CNotSpace => negb (is_space c)
  end.

Inductive regex : Type :=
| Eps                                        (* the empty pattern *)
| Chr (c : N)                                (* a literal character *)
| Dot                                        (* .  *)
| Space                                      (* \s *)
| Digit                                      (* \d *)
| Class (negated : bool) (items : list class_item)   (* [...] and [^...] *)
| Bol                                        (* ^  *)
| Eol                                        (* $  *)
| Seq (r1 r2 : regex)
| Group (n : nat) (r : regex)                (* the n-th capture group *)
| Rep (min : nat) (greedy : bool) (r : regex).
    (* r* is Rep 0 true r, r+ is Rep 1 true r, r*? and r+? are the lazy ones *)

Definition Star (r : regex) : regex := Rep 0 true r.
Definition Plus (r : regex) : regex := Rep 1 true r.
Definition StarLazy (r : regex) : regex := Rep 0 false r.
Definition PlusLazy (r : regex) : regex := Rep 1 false r.

(** A literal run of characters. *)
Fixpoint Lit (l : list N) : regex :=
  match l with
  | [] => Eps
  | c :: l' => Seq (Chr c) (Lit l')
  end.

Fixpoint seq_of (l : list regex) : regex :=
  match l with
  | [] => Eps
  | [r] => r
  | r :: l' => Seq r (seq_of l')
  end.

(** The capture groups opened inside a pattern. *)
Fixpoint groups (r : regex) : list nat :=
  match r with
  | Seq r1 r2 => groups r1 ++ groups r2
  | Group n r1 => n :: groups r1
  | Rep _ _ r1 => groups r1
  | _ => []
  end.

Record flags : Type := Flags { multiline : bool; dotAll : bool }.

Record regexp : Type :=
  RegExp { source : regex; global : bool; reflags : flags }.

(** Replacement templates: literal text and [$n]. *)
Inductive titem : Type :=
| TLit (l : list N)
| TGroup (n : nat).

(** ** The backtracking matcher *)

Section Matcher.
Variable A : Type.
Variable code : A -> N.

(** A position in the subject: the character before it (none at index 0)
    and the characters from it on. *)
Record mstate : Type := MState { prev : option A; rest : list A }.

(** The capture groups set so far, the latest binding first. *)
Definition captures : Type := list (nat * list A).

Definition get_capture (n : nat) (caps : captures) : option (list A) :=
  match find (fun e => Nat.eqb (fst e) n) caps with
  | Some e => Some (snd e)
  | None => None
  end.

Definition set_capture (n : nat) (v : list A) (caps : captures)
  : captures :=
  (n, v) :: caps.

Definition clear_captures (ns : list nat) (caps : captures) : captures :=
  filter (fun e => negb (existsb (Nat.eqb (fst e)) ns)) caps.

(** A match: what is left of the subject after it, and its captures. *)
Definition result : Type := (list A * captures)%type.
Definition cont : Type := mstate -> captures -> option result.

(** What was consumed between two positions of one subject. *)
Definition consumed (x y : mstate) : list A :=
  firstn (length (rest x) - length (rest y)) (rest x).

Definition eat (p : N -> bool) (x : mstate) (caps : captures) (k : cont)
  : option result :=
  match rest x with
  | [] => None
  | a :: r => if p (code a) then k (MState (Some a) r) caps else None
  end.

Definition class_test (negated : bool) (items : list class_item) (c : N)
  : bool :=
  xorb negated (existsb (fun i => class_item_test i c) items).

Definition dot_test (f : flags) (c : N) : bool :=
  dotAll f || negb (is_line_terminator c).

Definition at_bol (f : flags) (x : mstate) : bool :=
  match prev x with
  | None => true
  | Some a => multiline f && is_line_terminator (code a)
  end.

Definition at_eol (f : flags) (x : mstate) : bool :=
  match rest x with
  | [] => true
  | a :: _ => multiline f && is_line_terminator (code a)
  end.

(** RepeatMatcher, for a body matcher [mr] whose capture groups are [gs].
    [fuel] bounds the number of iterations; an iteration that is not
    required and consumes nothing is rejected, so
    [min + length (rest x) + 1] iterations are never exceeded. *)
Fixpoint rep_loop (mr : mstate -> captures -> cont -> option result)
         (gs : list nat) (greedy : bool) (k : cont)
         (fuel min : nat) (x : mstate) (caps : captures) {struct fuel}
  : option result :=
  match fuel with
  | 0 => None
  | S fuel' =>
      let d := fun y caps' =>
        if Nat.eqb min 0 && Nat.eqb (length (rest y)) (length (rest x))
        then None
        else rep_loop mr gs greedy k fuel' (pred min) y caps' in
      let caps0 := clear_captures gs caps in
      if Nat.ltb 0 min then mr x caps0 d
      else if greedy then
        match mr x caps0 d with
        | Some res => Some res
        | None => k x caps
        end
      else
        match k x caps with
        | Some res => Some res
        | None => mr x caps0 d
        end
  end.

Fixpoint rmatch (f : flags) (r : regex) (x : mstate) (caps : captures)
         (k : cont) {struct r} : option result :=
  match r with
  | Eps => k x caps
  | Chr c => eat (N.eqb c) x caps k
  | Dot => eat (dot_test f) x caps k
  | Space => eat is_space x caps k
  | Digit => eat is_digit x caps k
  | Class neg items => eat (class_test neg items) x caps k
  | Bol => if at_bol f x then k x caps else None
  | Eol => if at_eol f x then k x caps else None
  | Seq r1 r2 =>
      rmatch f r1 x caps (fun y caps' => rmatch f r2 y caps' k)
  | Group n r1 =>
      rmatch f r1 x caps
        (fun y caps' => k y (set_capture n (consumed x y) caps'))
  | Rep min greedy r1 =>
      rep_loop (rmatch f r1) (groups r1) greedy k
        (min + S (length (rest x))) min x caps
  end.

(** One attempt at one position. *)
Definition match_at (re : regexp) (x : mstate) : option result :=
  rmatch (reflags re) (source re) x []
    (fun y caps => Some (rest y, caps)).

(** ** [replace], [match], [split], [join] *)

Variable gen : N -> A.

Definition subst_item (caps : captures) (t : titem) : list A :=
  match t with
  | TLit l => map gen l
  | TGroup n => match get_capture n caps with Some v => v | None => [] end
  end.

Definition subst (tmpl : list titem) (caps : captures) : list A :=
  flat_map (subst_item caps) tmpl.

(** [replace] with the [g] flag: the subject is scanned from left to
    right; [skip] counts the characters of the last match still to pass.
    After an empty match the scan moves on by one character, which is
    copied. *)
Fixpoint replace_all (re : regexp) (tmpl : list titem)
         (p : option A) (s : list A) (skip : nat) {struct s} : list A :=
  match skip with
  | S n =>
      match s with
      | [] => []
      | a :: s' => replace_all re tmpl (Some a) s' n
      end
  | 0 =>
      match match_at re (MState p s) with
      | Some (y, caps) =>
          let n := length s - length y in
          subst tmpl caps ++
          match s with
          | [] => []
          | a :: s' =>
              if Nat.eqb n 0 then a :: replace_all re tmpl (Some a) s' 0
              else replace_all re tmpl (Some a) s' (pred n)
          end
      | None =>
          match s with
          | [] => []
          | a :: s' => a :: replace_all re tmpl (Some a) s' 0
          end
      end
  end.

(** [replace] without the [g] flag: the leftmost match only. *)
Fixpoint replace_first (re : regexp) (tmpl : list titem)
         (p : option A) (s : list A) {struct s} : list A :=
  match match_at re (MState p s) with
  | Some (y, caps) => subst tmpl caps ++ y
  | None =>
      match s with
      | [] => []
      | a :: s' => a :: replace_first re tmpl (Some a) s'
      end
  end.

Definition replace (re : regexp) (tmpl : list titem) (s : list A)
  : list A :=
  if global re then replace_all re tmpl None s 0
  else replace_first re tmpl None s.

(** [s.match(re)] for a pattern without the [g] flag, as far as the
    source looks at it: is there a match (non-null) or not. *)
Fixpoint search (re : regexp) (p : option A) (s : list A) {struct s}
  : bool :=
  match match_at re (MState p s) with
  | Some _ => true
  | None =>
      match s with
      | [] => false
      | a :: s' => search re (Some a) s'
      end
  end.

Definition matches (re : regexp) (s : list A) : bool := search re None s.

Fixpoint starts_with (pat : list N) (s : list A) : bool :=
  match pat, s with
  | [], _ => true
  | _ :: _, [] => false
  | c :: pat', a :: s' => (c =? code a)%N && starts_with pat' s'
  end.

(** [split] with a string separator. *)
Fixpoint split_go (sep : list N) (cur : list A) (s : list A) (skip : nat)
         {struct s} : list (list A) :=
  match s with
  | [] => [rev cur]
  | a :: s' =>
      match skip with
      | S n => split_go sep cur s' n
      | 0 =>
          if starts_with sep s
          then rev cur :: split_go sep [] s' (pred (length sep))
          else split_go sep (a :: cur) s' 0
      end
  end.

Definition split (sep : list N) (s : list A) : list (list A) :=
  match sep with
  | [] => map (fun a => [a]) s
  | _ :: _ => split_go sep [] s 0
  end.

Fixpoint join (sep : list N) (l : list (list A)) : list A :=
  match l with
  | [] => []
  | [x] => x
  | x :: l' => x ++ map gen sep ++ join sep l'
  end.
End Matcher.

Arguments MState {A} prev rest.

(** ** The patterns and templates of [MarkdownParser.parse] *)

Definition ch (a : ascii) : N := N_of_ascii a.

Definition re_g (r : regex) : regexp := RegExp r true (Flags false false).
Definition re_gm (r : regex) : regexp := RegExp r true (Flags true false).
Definition re_s (r : regex) : regexp := RegExp r false (Flags false true).
Definition re_plain (r : regex) : regexp := RegExp r false (Flags false false).

(** [/&/g], [/</g], [/>/g] *)
Definition re_amp : regexp := re_g (Chr (ch "&")).
Definition re_lt : regexp := re_g (Chr (ch "<")).
Definition re_gt : regexp := re_g (Chr (ch ">")).

(** [/^#{n}\s+(.+)$/gm], written out six times in the source *)
Definition re_header (hashes : string) : regexp :=
  re_gm (seq_of [Bol; Lit (str hashes); Plus Space; Group 1 (Plus Dot); Eol]).

(** [/\*\*(.+?)\*\*/g] and [/__(.+?)__/g] *)
Definition re_bold_star : regexp :=
  re_g (seq_of [Lit (str "**"); Group 1 (PlusLazy Dot); Lit (str "**")]).
Definition re_bold_under : regexp :=
  re_g (seq_of [Lit (str "__"); Group 1 (PlusLazy Dot); Lit (str "__")]).

(** [/\*(.+?)\*/g] and [/_(.+?)_/g] *)
Definition re_italic_star : regexp :=
  re_g (seq_of [Chr (ch "*"); Group 1 (PlusLazy Dot); Chr (ch "*")]).
Definition re_italic_under : regexp :=
  re_g (seq_of [Chr (ch "_"); Group 1 (PlusLazy Dot); Chr (ch "_")]).

(** [/```([\s\S]*?)```/g] *)
Definition re_code_block : regexp :=
  re_g (seq_of [Lit (str "```");
                Group 1 (StarLazy (Class false [CSpace; CNotSpace]));
                Lit (str "```")]).

(** [/`([^`]+)`/g] *)
Definition re_inline_code : regexp :=
  re_g (seq_of [Chr (ch "`"); Group 1 (Plus (Class true [CChar (ch "`")]));
                Chr (ch "`")]).

(** [/\[([^\]]+)\]\(([^)]+)\)/g] *)
Definition re_link : regexp :=
  re_g (seq_of [Chr (ch "["); Group 1 (Plus (Class true [CChar (ch "]")]));
                Chr (ch "]"); Chr (ch "(");
                Group 2 (Plus (Class true [CChar (ch ")")])); Chr (ch ")")]).

(** The image pattern: [!], then the link pattern with [*] for the first
    [+] (the text between the brackets may be empty); flag [g]. *)
Definition re_image : regexp :=
  re_g (seq_of [Chr (ch "!"); Chr (ch "[");
                Group 1 (Star (Class true [CChar (ch "]")]));
                Chr (ch "]"); Chr (ch "(");
                Group 2 (Plus (Class true [CChar (ch ")")])); Chr (ch ")")]).

(** [/^---$/gm] and [/^\*\*\*$/gm] *)
Definition re_hr_dash : regexp := re_gm (seq_of [Bol; Lit (str "---"); Eol]).
Definition re_hr_star : regexp := re_gm (seq_of [Bol; Lit (str "***"); Eol]).

(** [/^&gt;\s+(.+)$/gm] *)
Definition re_blockquote : regexp :=
  re_gm (seq_of [Bol; Lit (str "&gt;"); Plus Space; Group 1 (Plus Dot); Eol]).

(** [/^[*-]\s+(.+)$/gm] *)
Definition re_ul_item : regexp :=
  re_gm (seq_of [Bol; Class false [CChar (ch "*"); CChar (ch "-")];
                 Plus Space; Group 1 (Plus Dot); Eol]).

(** [/(<li>.*<\/li>)/s] *)
Definition re_ul_wrap : regexp :=
  re_s (Group 1 (seq_of [Lit (str "<li>"); Star Dot; Lit (str "</li>")])).

(** [/^\d+\.\s+(.+)$/gm] *)
Definition re_ol_item : regexp :=
  re_gm (seq_of [Bol; Plus Digit; Chr (ch "."); Plus Space;
                 Group 1 (Plus Dot); Eol]).

(** [/^<[h|u|o|p|b]/]: the bars are members of the class. *)
Definition re_block_start : regexp :=
  re_plain (seq_of [Bol; Chr (ch "<");
                    Class false [CChar (ch "h"); CChar (ch "|");
                                 CChar (ch "u"); CChar (ch "|");
                                 CChar (ch "o"); CChar (ch "|");
                                 CChar (ch "p"); CChar (ch "|");
                                 CChar (ch "b")]]).

(** ['<tag>$1</tag>'] *)
Definition wrap_tag (tag : string) : list titem :=
  [TLit (str "<" ++ str tag ++ str ">"); TGroup 1;
   TLit (str "</" ++ str tag ++ str ">")].

(** ['<a href="$2" target="_blank">$1</a>'] *)
Definition tmpl_link : list titem :=
  [TLit (str "<a href=" ++ [dquote]); TGroup 2;
   TLit ([dquote] ++ str " target=" ++ [dquote] ++ str "_blank" ++ [dquote]
         ++ str ">");
   TGroup 1; TLit (str "</a>")].

(** ['<img src="$2" alt="$1" />'] *)
Definition tmpl_image : list titem :=
  [TLit (str "<img src=" ++ [dquote]); TGroup 2;
   TLit ([dquote] ++ str " alt=" ++ [dquote]); TGroup 1;
   TLit ([dquote] ++ str " />")].

(** ['<pre><code>$1</code></pre>'] *)
Definition tmpl_code_block : list titem :=
  [TLit (str "<pre><code>"); TGroup 1; TLit (str "</code></pre>")].

(** ** The converter *)

Section Converter.
Variable A : Type.
Variable code : A -> N.
Variable gen : N -> A.

Local Abbreviation replace := (replace code gen).

(** [html.replace(/&/g, '&amp;').replace(/</g, '&lt;').replace(/>/g, '&gt;')] *)
Definition escape_html (html : list A) : list A :=
  replace re_gt [TLit (str "&gt;")]
    (replace re_lt [TLit (str "&lt;")]
       (replace re_amp [TLit (str "&amp;")] html)).

Definition headers (html : list A) : list A :=
  let html := replace (re_header "######") (wrap_tag "h6") html in
  let html := replace (re_header "#####") (wrap_tag "h5") html in
  let html := replace (re_header "####") (wrap_tag "h4") html in
  let html := replace (re_header "###") (wrap_tag "h3") html in
  let html := replace (re_header "##") (wrap_tag "h2") html in
  replace (re_header "#") (wrap_tag "h1") html.

Definition bold (html : list A) : list A :=
  let html := replace re_bold_star (wrap_tag "strong") html in
  replace re_bold_under (wrap_tag "strong") html.

Definition italic (html : list A) : list A :=
  let html := replace re_italic_star (wrap_tag "em") html in
  replace re_italic_under (wrap_tag "em") html.

Definition code_blocks (html : list A) : list A :=
  replace re_code_block tmpl_code_block html.

Definition inline_code (html : list A) : list A :=
  replace re_inline_code (wrap_tag "code") html.

Definition links (html : list A) : list A :=
  replace re_link tmpl_link html.

Definition images (html : list A) : list A :=
  replace re_image tmpl_image html.

Definition horizontal_rules (html : list A) : list A :=
  let html := replace re_hr_dash [TLit (str "<hr>")] html in
  replace re_hr_star [TLit (str "<hr>")] html.

Definition blockquotes (html : list A) : list A :=
  replace re_blockquote (wrap_tag "blockquote") html.

Definition ul_items (html : list A) : list A :=
  replace re_ul_item (wrap_tag "li") html.

Definition ul_wrap (html : list A) : list A :=
  replace re_ul_wrap (wrap_tag "ul") html.

Definition unordered_lists (html : list A) : list A :=
  ul_wrap (ul_items html).

Definition ordered_lists (html : list A) : list A :=
  replace re_ol_item (wrap_tag "li") html.

(** The arrow function given to [map]. *)
Definition wrap_para (para : list A) : list A :=
  if negb (matches code re_block_start para)
  then map gen (str "<p>") ++ para ++ map gen (str "</p>")
  else para.

Definition paragraphs (html : list A) : list A :=
  join gen [newline] (map wrap_para (split code [newline; newline] html)).

(** The stages that follow the escape stage. *)
Definition later_stages (html : list A) : list A :=
  let html := headers html in
  let html := bold html in
  let html := italic html in
  let html := code_blocks html in
  let html := inline_code html in
  let html := links html in
  let html := images html in
  let html := horizontal_rules html in
  let html := blockquotes html in
  let html := unordered_lists html in
  let html := ordered_lists html in
  paragraphs html.

(** The body of [parse] after the guard [if (!markdown) return '']. *)
Definition convert (markdown : list A) : list A :=
  let html := markdown in
  let html := escape_html html in
  later_stages html.
End Converter.

(** The values [parse] may be called with.  [undefined], [null], [false]
    and the empty string are falsy; on [true], which is truthy and has no
    [replace] method, the first [html.replace] throws a TypeError. *)
Inductive js_value : Type :=
| JUndefined
| JNull
| JBoolean (b : bool)
| JString (s : list N).

Inductive js_error : Type :=
| TypeError.

Inductive completion (T : Type) : Type :=
| Normal (v : T)
| Throw (e : js_error).
Arguments Normal {T} v.
Arguments Throw {T} e.

Definition to_boolean (v : js_value) : bool :=
  match v with
  | JUndefined | JNull => false
  | JBoolean b => b
  | JString s => negb (Nat.eqb (length s) 0)
  end.

Definition id_code (c : N) : N := c.

Definition parse (markdown : js_value) : completion (list N) :=
  if negb (to_boolean markdown) then Normal []
  else
    match markdown with
    | JString s => Normal (convert id_code id_code s)
    | _ => Throw TypeError
    end.

Definition parse_string (s : string) : completion (list N) :=
  parse (JString (str s)).

(** A text given by its lines. *)
Definition lines (l : list string) : list N :=
  join id_code [newline] (map str l).

(** ** Reference functions

    What the matcher computes on the shapes of pattern the converter uses,
    written by recursion on the subject.  The facts below relate them to
    [rmatch]. *)

Section Reference.
Variable A : Type.
Variable code : A -> N.

(** The patterns that consume exactly one character, with their test. *)
Definition atom_test (f : flags) (r : regex) : option (N -> bool) :=
  match r with
  | Chr c => Some (N.eqb c)
  | Dot => Some (dot_test f)
  | Space => Some is_space
  | Digit => Some is_digit
  | Class neg items => Some (class_test neg items)
  | _ => None
  end.

(** Quantifiers over one-character patterns, by recursion on the subject:
    the greedy star tries the longest run first and gives characters back
    one by one, the lazy star tries the continuation first. *)
Fixpoint star_greedy (p : N -> bool) (k : cont A) (pv : option A)
         (s : list A) (caps : captures A) : option (result A) :=
  match s with
  | [] => k (MState pv []) caps
  | a :: s' =>
      if p (code a) then
        match star_greedy p k (Some a) s' caps with
        | Some res => Some res
        | None => k (MState pv s) caps
        end
      else k (MState pv s) caps
  end.

Fixpoint star_lazy (p : N -> bool) (k : cont A) (pv : option A)
         (s : list A) (caps : captures A) : option (result A) :=
  match k (MState pv s) caps with
  | Some res => Some res
  | None =>
      match s with
      | [] => None
      | a :: s' =>
          if p (code a) then star_lazy p k (Some a) s' caps else None
      end
  end.

Definition star_ref (greedy : bool) :=
  if greedy then star_greedy else star_lazy.


(** What is left after a literal run, if the subject starts with it. *)
Fixpoint strip (pat : list N) (pv : option A) (s : list A)
  : option (mstate A) :=
  match pat with
  | [] => Some (MState pv s)
  | c :: pat' =>
      match s with
      | [] => None
      | a :: s' => if (c =? code a)%N then strip pat' (Some a) s' else None
      end
  end.


(** The subject split at the first occurrence of [pat]: what comes before
    it and what comes after it. *)
Fixpoint find_sub (pat : list N) (s : list A) : option (list A * list A) :=
  if starts_with code pat s then Some ([], skipn (length pat) s)
  else
    match s with
    | [] => None
    | a :: s' =>
        match find_sub pat s' with
        | Some (b, r) => Some (a :: b, r)
        | None => None
        end
    end.

(** The subject split at the last occurrence of [pat]. *)
Fixpoint find_last_sub (pat : list N) (s : list A)
  : option (list A * list A) :=
  match
    match s with
    | [] => None
    | a :: s' =>
        match find_last_sub pat s' with
        | Some (b, r) => Some (a :: b, r)
        | None => None
        end
    end
  with
  | Some res => Some res
  | None =>
      if starts_with code pat s then Some ([], skipn (length pat) s)
      else None
  end.

(** The character before the position reached after passing [l]. *)
Definition last_prev (p : option A) (l : list A) : option A :=
  match rev l with
  | [] => p
  | a :: _ => Some a
  end.
End Reference.

(** ** The paragraph test in the words of the specification *)

(** One of [h], [u], [o], [p], [b] or the bar. *)
Definition is_block_letter (c : N) : bool :=
  (c =? ch "h")%N || (c =? ch "u")%N || (c =? ch "o")%N ||
  (c =? ch "p")%N || (c =? ch "b")%N || (c =? ch "|")%N.

(** The first two characters are [<] and a block letter. *)
Definition starts_block (seg : list N) : bool :=
  match seg with
  | a :: b :: _ => (a =? ch "<")%N && is_block_letter b
  | _ => false
  end.

(** ** Occurrences in plain strings *)

(** The continuation that ends a match. *)
Definition final : cont N := fun y caps => Some (rest y, caps).

(** [pat] occurs somewhere in [w]. *)
Definition occurs (pat w : list N) : Prop :=
  exists b r, w = b ++ pat ++ r.

(** ** Matchers that only move forward *)

Section ForwardDefs.
Variable A : Type.

(** Two continuations that agree from a position on. *)
Definition agree_below (x : mstate A) (k1 k2 : cont A) : Prop :=
  forall y c, length (rest y) <= length (rest x) -> k1 y c = k2 y c.

(** A matcher that calls its continuation only further on. *)
Definition forward
           (mr : mstate A -> captures A -> cont A -> option (result A))
  : Prop :=
  forall x caps k1 k2, agree_below x k1 k2 -> mr x caps k1 = mr x caps k2.

End ForwardDefs.

(** ** What a pattern denotes *)

Section Denotation.
Variable A : Type.
Variable code : A -> N.

(** One character that passes the test [p]. *)
Definition step (p : N -> bool) (x : mstate A) (caps : captures A)
           (y : mstate A) (caps' : captures A) : Prop :=
  exists a, rest x = a :: rest y /\ prev y = Some a /\
            p (code a) = true /\ caps' = caps.

(** Iterations of a body [D], at least [min] of them; the groups [gs] of
    the body are cleared when an iteration starts. *)
Inductive rep_denotes
          (D : mstate A -> captures A -> mstate A -> captures A -> Prop)
          (gs : list nat)
  : nat -> mstate A -> captures A -> mstate A -> captures A -> Prop :=
| rep_stop : forall x caps, rep_denotes D gs 0 x caps x caps
| rep_more : forall min x caps y caps1 z caps2,
    D x (clear_captures gs caps) y caps1 ->
    rep_denotes D gs (pred min) y caps1 z caps2 ->
    rep_denotes D gs min x caps z caps2.

(** [denotes f r x caps y caps']: the pattern [r] matches from position [x]
    to position [y], and turns the captures [caps] into [caps']. *)
Fixpoint denotes (f : flags) (r : regex) (x : mstate A) (caps : captures A)
         (y : mstate A) (caps' : captures A) {struct r} : Prop :=
  match r with
  | Eps => y = x /\ caps' = caps
  | Chr c => step (N.eqb c) x caps y caps'
  | Dot => step (dot_test f) x caps y caps'
  | Space => step is_space x caps y caps'
  | Digit => step is_digit x caps y caps'
  | Class neg items => step (class_test neg items) x caps y caps'
  | Bol => at_bol code f x = true /\ y = x /\ caps' = caps
  | Eol => at_eol code f x = true /\ y = x /\ caps' = caps
  | Seq r1 r2 =>
      exists z c, denotes f r1 x caps z c /\ denotes f r2 z c y caps'
  | Group n r1 =>
      exists c, denotes f r1 x caps y c /\
                caps' = set_capture n (consumed x y) c
  | Rep min _ r1 =>
      rep_denotes (denotes f r1) (groups r1) min x caps y caps'
  end.
End Denotation.

(** Every captured text consists of characters that satisfy [Q]. *)
Definition caps_all (A : Type) (Q : A -> Prop) (caps : captures A) : Prop :=
  Forall (fun e => Forall Q (snd e)) caps.

(** ** Erasure to code units *)

Section ErasureDefs.
Variable A : Type.
Variable code : A -> N.

Definition erase_state (x : mstate A) : mstate N :=
  MState (option_map code (prev x)) (map code (rest x)).

Definition erase_captures (caps : captures A) : captures N :=
  map (fun e => (fst e, map code (snd e))) caps.

Definition erase_result (res : result A) : result N :=
  (map code (fst res), erase_captures (snd res)).

(** Two continuations that do the same up to erasure. *)
Definition cont_erases (k : cont A) (k' : cont N) : Prop :=
  forall y c,
    k' (erase_state y) (erase_captures c) = option_map erase_result (k y c).

End ErasureDefs.

(** ** Characters with their origin *)

(** A character of the traced converter: a code unit, and whether it was
    copied from the note or written by a replacement template. *)
Inductive origin : Type :=
| FromNote
| FromTemplate.

Definition tchar : Type := (N * origin)%type.
Definition tcode (a : tchar) : N := fst a.
Definition tgen (c : N) : tchar := (c, FromTemplate).
Definition mark (s : list N) : list tchar := map (fun c => (c, FromNote)) s.

(** The characters that the escape stage replaces. *)
Definition is_special (c : N) : bool :=
  (c =? ch "&")%N || (c =? ch "<")%N || (c =? ch ">")%N.

(** A character of the traced result that is no special character copied
    from the note. *)
Definition not_raw_special (a : tchar) : Prop :=
  snd a = FromNote -> is_special (fst a) = false.

(** [parse] on a string, with the origin of every character of the result. *)
Definition parse_traced (s : list N) : list tchar :=
  match s with
  | [] => []
  | _ :: _ => convert tcode tgen (mark s)
  end.

(** The escape of one character. *)
Definition escape_char (c : N) : list N :=
  if (c =? ch "&")%N then str "&amp;"
  else if (c =? ch "<")%N then str "&lt;"
  else if (c =? ch ">")%N then str "&gt;"
  else [c].

(** ** Entities *)

(** The characters of [amp;], [lt;] and [gt;]. *)
Definition tail_char (c : N) : bool :=
  (c =? ch "a")%N || (c =? ch "m")%N || (c =? ch "p")%N || (c =? ch ";")%N ||
  (c =? ch "l")%N || (c =? ch "t")%N || (c =? ch "g")%N.

Definition entity_tail (s : list N) : bool :=
  starts_with id_code (str "amp;") s || starts_with id_code (str "lt;") s ||
  starts_with id_code (str "gt;") s.

(** Every [&] of the text is followed by [amp;], [lt;] or [gt;]. *)
Fixpoint entities_intact (s : list N) : bool :=
  match s with
  | [] => true
  | c :: s' =>
      (if (c =? ch "&")%N then entity_tail s' else true) && entities_intact s'
  end.

(** A position where a text can be cut without cutting an entity: the end,
    or before a character that is not inside an entity. *)
Definition safe_after (w : list N) : bool :=
  match w with
  | [] => true
  | c :: _ => negb (tail_char c)
  end.

Definition caps_intact (caps : captures N) : Prop :=
  Forall (fun e => entities_intact (snd e) = true) caps.

(** *** A static check of patterns

    [safe_regex] holds of a pattern when every match starts with a character
    that is not inside an entity, and every group ends before such a
    character or at the end of a line. *)

Definition item_nontail (i : class_item) : bool :=
  match i with
  | CChar c => negb (tail_char c)
  | CSpace => true
  | CNotSpace => false
  end.

Definition atom_nontail (r : regex) : bool :=
  match r with
  | Chr c => negb (tail_char c)
  | Space => true
  | Digit => true
  | Class false items => forallb item_nontail items
  | _ => false
  end.

Definition zero_width (r : regex) : bool :=
  match r with
  | Eps | Bol | Eol => true
  | _ => false
  end.

Fixpoint first_nontail (r : regex) : bool :=
  match r with
  | Seq r1 r2 => if zero_width r1 then first_nontail r2 else first_nontail r1
  | Group _ r1 => first_nontail r1
  | Rep min _ r1 => Nat.ltb 0 min && first_nontail r1
  | Eps | Bol | Eol => false
  | _ => atom_nontail r
  end.

Fixpoint starts_safe (r : regex) : bool :=
  match r with
  | Eol => true
  | Seq r1 r2 => starts_safe r1 || (zero_width r1 && starts_safe r2)
  | Group _ r1 => starts_safe r1
  | Rep min _ r1 => Nat.ltb 0 min && starts_safe r1
  | Eps | Bol => false
  | _ => atom_nontail r
  end.

Fixpoint caps_safe (r : regex) (after : bool) : bool :=
  match r with
  | Group _ r1 => after && caps_safe r1 after
  | Seq r1 r2 => caps_safe r1 (starts_safe r2) && caps_safe r2 after
  | Rep _ _ r1 => match groups r1 with [] => true | _ :: _ => false end
  | _ => true
  end.

Definition safe_regex (re : regexp) : bool :=
  first_nontail (source re) && caps_safe (source re) false.

Definition safe_template (tm : list titem) : bool :=
  forallb (fun t => match t with
                    | TLit l => entities_intact l
                    | TGroup _ => true
                    end) tm.

(** ** The editor: what [MarkdownNotesApp] computes from strings

    The methods of the application read the fields of the page and write
    them back.  The strings they compute on the way are modelled here:
    the preview of [updatePreview], the counts of [updateStats], the line
    shown for a note by [renderNotesList], the text and the cursor of
    [insertMarkdown], the decision of [handleKeyboardShortcuts], the titles
    and file names of [autoSave], [downloadNote] and [handleFileImport]. *)

(** [a || b] for strings: the empty string is the only falsy one. *)
Definition or_else (a b : list N) : list N :=
  match a with
  | [] => b
  | _ :: _ => a
  end.

Definition is_empty (a : list N) : bool :=
  match a with
  | [] => true
  | _ :: _ => false
  end.

Fixpoint code_eqb (a b : list N) : bool :=
  match a, b with
  | [], [] => true
  | x :: a', y :: b' => (x =? y)%N && code_eqb a' b'
  | _, _ => false
  end.

(** *** [updatePreview] *)

Definition placeholder : list N :=
  str "<p class=" ++ [dquote] ++ str "preview-placeholder" ++ [dquote]
  ++ str ">Preview will appear here...</p>".

(** What [updatePreview] assigns to [innerHTML], for the value of the
    editor. *)
Definition updatePreview (value : list N) : completion (list N) :=
  match parse (JString value) with
  | Normal html => Normal (or_else html placeholder)
  | Throw e => Throw e
  end.

(** *** [updateStats] *)

Fixpoint drop_space (s : list N) : list N :=
  match s with
  | [] => []
  | c :: s' => if is_space c then drop_space s' else s
  end.

(** [String.prototype.trim]: white space and line terminators, the
    characters of [\s], are removed at both ends. *)
Definition trim (s : list N) : list N :=
  rev (drop_space (rev (drop_space s))).

(** [split] with a pattern that has no capture groups.  At each position [q]
    the pattern is tried at [q] only; [cur] holds, reversed, the characters
    since the end [p] of the last separator.  A match that ends at [p] (an
    empty match where the last separator ended) is passed over; after any
    other match the piece is closed and the scan goes on after the match,
    [skip] counting the characters of the match still to pass. *)
Fixpoint split_re_go (re : regexp) (p : option N) (cur : list N)
         (s : list N) (skip : nat) {struct s} : list (list N) :=
  match s with
  | [] => [rev cur]
  | a :: s' =>
      match skip with
      | S n => split_re_go re (Some a) cur s' n
      | 0 =>
          match match_at id_code re (MState p s) with
          | None => split_re_go re (Some a) (a :: cur) s' 0
          | Some (y, _) =>
              let n := length s - length y in
              if Nat.eqb n 0 then
                if is_empty cur then split_re_go re (Some a) [a] s' 0
                else rev cur :: split_re_go re (Some a) [a] s' 0
              else rev cur :: split_re_go re (Some a) [] s' (pred n)
          end
      end
  end.

Definition split_re (re : regexp) (s : list N) : list (list N) :=
  match s with
  | [] =>
      match match_at id_code re (MState None []) with
      | Some _ => []
      | None => [[]]
      end
  | _ :: _ => split_re_go re None [] s 0
  end.

(** The words of a text, counted as the runs of characters that are not
    white space: [in_word] tells whether the character before was one. *)
Fixpoint count_runs (in_word : bool) (s : list N) : nat :=
  match s with
  | [] => 0
  | c :: s' =>
      if is_space c then count_runs false s'
      else (if in_word then 0 else 1) + count_runs true s'
  end.

(** [/\s+/] *)
Definition re_spaces : regexp := re_plain (Plus Space).

(** [text.trim().split(/\s+/).filter(w => w.length > 0).length] *)
Definition word_count (text : list N) : nat :=
  length (filter (fun w => Nat.ltb 0 (length w))
            (split_re re_spaces (trim text))).

(** The pieces that the [filter] of [updateStats] keeps. *)
Definition kept (l : list (list N)) : nat :=
  length (filter (fun w => Nat.ltb 0 (length w)) l).

(** [text.length] *)
Definition char_count (text : list N) : nat := length text.

(** *** The line of a note in [renderNotesList] *)

(** [s.substring(from, to)]: both ends are brought into the string and
    swapped when they come in the wrong order. *)
Definition clamp (len : nat) (i : Z) : nat :=
  Nat.min (Z.to_nat i) len.

Definition substring (s : list N) (from to : Z) : list N :=
  let a := clamp (length s) from in
  let b := clamp (length s) to in
  firstn (Nat.max a b - Nat.min a b) (skipn (Nat.min a b) s).

(** The characters before the first line feed. *)
Fixpoint first_line (s : list N) : list N :=
  match s with
  | [] => []
  | c :: s' => if (c =? newline)%N then [] else c :: first_line s'
  end.

(** [note.content.split('\n')[0].substring(0, 50) || 'Empty note'] *)
Definition note_preview (content : list N) : completion (list N) :=
  match split id_code [newline] content with
  | [] => Throw TypeError
  | line :: _ => Normal (or_else (substring line 0 50) (str "Empty note"))
  end.

(** *** [insertMarkdown] *)

Definition includes (pat s : list N) : bool :=
  match find_sub id_code pat s with
  | Some _ => true
  | None => false
  end.

Definition indexOf (pat s : list N) : Z :=
  match find_sub id_code pat s with
  | Some (b, _) => Z.of_nat (length b)
  | None => (-1)%Z
  end.

(** GetSubstitution for a string pattern, which has no captures: in the
    replacement text [$$] stands for a dollar, [$&] for the match, [$`] for
    what comes before it and [$'] for what comes after it; any other dollar
    is a dollar. *)
Fixpoint get_substitution (matched before after tmpl : list N) : list N :=
  match tmpl with
  | [] => []
  | c :: t =>
      if (c =? ch "$")%N then
        match t with
        | [] => [c]
        | d :: t' =>
            if (d =? ch "$")%N then
              ch "$" :: get_substitution matched before after t'
            else if (d =? ch "&")%N then
              matched ++ get_substitution matched before after t'
            else if (d =? ch "`")%N then
              before ++ get_substitution matched before after t'
            else if (d =? ch "'")%N then
              after ++ get_substitution matched before after t'
            else c :: get_substitution matched before after t
        end
      else c :: get_substitution matched before after t
  end.

(** [s.replace(pat, repl)] with strings: the first occurrence only. *)
Definition string_replace (pat repl s : list N) : list N :=
  match find_sub id_code pat s with
  | Some (b, r) => b ++ get_substitution pat b r repl ++ r
  | None => s
  end.

Record textarea : Type :=
  Textarea { value : list N; selectionStart : nat; selectionEnd : nat }.

(** The new value of the editor and the position given to
    [setSelectionRange]. *)
Definition insertMarkdown (md : list N) (ta : textarea) : list N * Z :=
  let start := Z.of_nat (selectionStart ta) in
  let endp := Z.of_nat (selectionEnd ta) in
  let text := value ta in
  let selectedText := substring text start endp in
  let insertion_offset :=
    if includes (str "text") md then
      (string_replace (str "text") (or_else selectedText (str "text")) md,
       if is_empty selectedText then indexOf (str "text") md
       else Z.of_nat (length md))
    else if includes (str "url") md then
      (string_replace (str "text") (or_else selectedText (str "text")) md,
       if is_empty selectedText then indexOf (str "text") md
       else Z.of_nat (length md))
    else (md, Z.of_nat (length md)) in
  (substring text 0 start ++ fst insertion_offset
   ++ substring text endp (Z.of_nat (length text)),
   (start + snd insertion_offset)%Z).

(** *** [handleKeyboardShortcuts] *)

Record key_event : Type :=
  KeyEvent { metaKey : bool; ctrlKey : bool; key : list N }.

Inductive action : Type :=
| DoAutoSave
| DoCreateNewNote
| DoFocusSearch
| DoInsertMarkdown (md : list N)
| DoNothing.

(** [isMac] is what the test on [navigator.platform] gives. *)
Definition handleKeyboardShortcuts (isMac : bool) (e : key_event) : action :=
  let modifier := if isMac then metaKey e else ctrlKey e in
  if modifier && code_eqb (key e) (str "s") then DoAutoSave
  else if modifier && code_eqb (key e) (str "n") then DoCreateNewNote
  else if modifier && code_eqb (key e) (str "f") then DoFocusSearch
  else if modifier && code_eqb (key e) (str "b") then
    DoInsertMarkdown (str "**text**")
  else if modifier && code_eqb (key e) (str "i") then
    DoInsertMarkdown (str "*text*")
  else DoNothing.

(** *** Titles and file names *)

(** [this.noteTitleInput.value || 'Untitled'] in [autoSave] *)
Definition autosave_title (title_value : list N) : list N :=
  or_else title_value (str "Untitled").

(** The file name of [downloadNote]. *)
Definition download_filename (title_value : list N) : list N :=
  or_else title_value (str "note") ++ str ".md".

(** [s.endsWith(suffix)] *)
Definition ends_with (suffix s : list N) : bool :=
  Nat.leb (length suffix) (length s) &&
  code_eqb (skipn (length s - length suffix) s) suffix.

(** The files that [handleFileImport] takes. *)
Definition import_accepts (name : list N) : bool :=
  ends_with (str ".md") name || ends_with (str ".txt") name.

(** Patterns with alternatives, over the patterns above: the left
    alternative is tried first, with the whole continuation. *)
Inductive pattern : Type :=
| PRe (r : regex)
| PSeq (p1 p2 : pattern)
| PAlt (p1 p2 : pattern)
| PGroup (n : nat) (p : pattern).

Fixpoint pmatch (f : flags) (p : pattern) (x : mstate N) (caps : captures N)
         (k : cont N) {struct p} : option (result N) :=
  match p with
  | PRe r => rmatch id_code f r x caps k
  | PSeq p1 p2 => pmatch f p1 x caps (fun y caps' => pmatch f p2 y caps' k)
  | PAlt p1 p2 =>
      match pmatch f p1 x caps k with
      | Some res => Some res
      | None => pmatch f p2 x caps k
      end
  | PGroup n p1 =>
      pmatch f p1 x caps
        (fun y caps' => k y (set_capture n (consumed x y) caps'))
  end.

Definition pmatch_at (f : flags) (p : pattern) (x : mstate N)
  : option (result N) :=
  pmatch f p x [] (fun y caps => Some (rest y, caps)).

(** [replace] without the [g] flag, for a pattern with alternatives. *)
Fixpoint preplace_first (f : flags) (p : pattern) (tmpl : list titem)
         (pv : option N) (s : list N) {struct s} : list N :=
  match pmatch_at f p (MState pv s) with
  | Some (y, caps) => subst id_code tmpl caps ++ y
  | None =>
      match s with
      | [] => []
      | a :: s' => a :: preplace_first f p tmpl (Some a) s'
      end
  end.

(** [/\.(md|txt)$/] *)
Definition pat_extension : pattern :=
  PSeq (PRe (Chr (ch ".")))
    (PSeq (PGroup 1 (PAlt (PRe (Lit (str "md"))) (PRe (Lit (str "txt")))))
       (PRe Eol)).

(** [file.name.replace(/\.(md|txt)$/, '')] *)
Definition import_title (name : list N) : list N :=
  preplace_first (Flags false false) pat_extension [] None name.


(** ** Where a pattern can match

    Two checks of a pattern, by recursion on it.  [first_in g r]: every
    match of [r] begins with a character that passes [g].  [eats g r]:
    every match of [r] passes over a character that passes [g]. *)

Definition digits : list N := map N.of_nat (seq 48 10).

Definition item_in (g : N -> bool) (i : class_item) : bool :=
  match i with
  | CChar c => g c
  | CSpace | CNotSpace => false
  end.

Definition atom_in (g : N -> bool) (r : regex) : bool :=
  match r with
  | Chr c => g c
  | Digit => forallb g digits
  | Class false items => forallb (item_in g) items
  | _ => false
  end.

Fixpoint first_in (g : N -> bool) (r : regex) : bool :=
  match r with
  | Seq r1 r2 => if zero_width r1 then first_in g r2 else first_in g r1
  | Group _ r1 => first_in g r1
  | Rep min _ r1 => Nat.ltb 0 min && first_in g r1
  | Eps | Bol | Eol => false
  | _ => atom_in g r
  end.

Fixpoint eats (g : N -> bool) (r : regex) : bool :=
  match r with
  | Seq r1 r2 => eats g r1 || eats g r2
  | Group _ r1 => eats g r1
  | Rep min _ r1 => Nat.ltb 0 min && eats g r1
  | Eps | Bol | Eol => false
  | _ => atom_in g r
  end.

(** A pattern that begins with [^]. *)
Definition anchored (re : regexp) : bool :=
  match source re with
  | Seq Bol _ => true
  | _ => false
  end.

(** No character of [s] passes [g]; the first character of [s], if there
    is one, does not pass [g]. *)
Definition lacks (g : N -> bool) (s : list N) : bool :=
  forallb (fun a => negb (g a)) s.

Definition head_lacks (g : N -> bool) (s : list N) : bool :=
  match s with
  | [] => true
  | a :: _ => negb (g a)
  end.

(** ** Prose

    The characters that some pattern of [parse] looks for anywhere in the
    text, and the characters that open a header, a rule or a list item at
    the start of a line. *)
Definition markup_char (c : N) : bool :=
  (c =? ch "&")%N || (c =? ch "<")%N || (c =? ch ">")%N ||
  (c =? ch "*")%N || (c =? ch "_")%N || (c =? ch "`")%N ||
  (c =? ch "[")%N || is_line_terminator c.

Definition line_opener (c : N) : bool :=
  (c =? ch "#")%N || (c =? ch "-")%N || is_digit c.

(** One line of text without markup. *)
Definition prose (s : list N) : bool := lacks markup_char s.

(** The characters that a pattern after the escape stage looks for. *)
Definition later_char (c : N) : bool :=
  (c =? ch "&")%N || (c =? ch "*")%N || (c =? ch "_")%N ||
  (c =? ch "`")%N || (c =? ch "[")%N || is_line_terminator c.

(** The characters that open a rule or a list item. *)
Definition item_opener (c : N) : bool := (c =? ch "-")%N || is_digit c.

(** White space inside a line: [\s] without the line terminators. *)
Definition is_blank (c : N) : bool :=
  is_space c && negb (is_line_terminator c).

(** The characters that open a rule, a quote or a list item. *)
Definition block_opener (c : N) : bool :=
  (c =? ch "-")%N || (c =? ch "*")%N || (c =? ch "&")%N || is_digit c.

(** No line of [s] begins with a character that passes [g]; [p] is the
    character before [s], if there is one. *)
Fixpoint heads_lack (g : N -> bool) (p : option N) (s : list N) : bool :=
  match s with
  | [] => true
  | a :: s' =>
      (match p with
       | None => negb (g a)
       | Some b => if is_line_terminator b then negb (g a) else true
       end) && heads_lack g (Some a) s'
  end.

(** A character that opens a header, a rule, a quote or a list item. *)
Definition opener (c : N) : bool := line_opener c || block_opener c.

(** ** Paragraphs of plain text *)

(** The characters that a pattern of [parse] looks for inside a line. *)
Definition inline_markup (c : N) : bool :=
  (c =? ch "&")%N || (c =? ch "<")%N || (c =? ch ">")%N ||
  (c =? ch "*")%N || (c =? ch "_")%N || (c =? ch "`")%N ||
  (c =? ch "[")%N.

(** No two line feeds in a row, and no line feed at the end. *)
Fixpoint no_blank_line (s : list N) : bool :=
  match s with
  | [] => true
  | a :: s' =>
      negb ((a =? newline)%N &&
            match s' with
            | [] => true
            | b :: _ => (b =? newline)%N
            end)
      && no_blank_line s'
  end.

(** A paragraph of plain text: lines without markup, none of which begins
    as a header, a rule, a quote or a list item, and no blank line. *)
Definition plain_paragraph (s : list N) : bool :=
  lacks inline_markup s && no_blank_line s && heads_lack opener None s.
(** * Facts about the matcher *)

Section MatcherFacts.
Variable A : Type.
Variable code : A -> N.

Implicit Types (x y : mstate A) (caps : captures A) (k : cont A).
Local Abbreviation star_greedy := (star_greedy code).
Local Abbreviation star_lazy := (star_lazy code).
Local Abbreviation star_ref := (star_ref code).
Local Abbreviation strip := (strip code).

Lemma clear_captures_nil caps : clear_captures [] caps = caps.
Proof.
  unfold clear_captures.
  induction caps as [|e caps IH]; simpl; [reflexivity | now f_equal].
Qed.

Lemma rmatch_atom f r p x caps k :
  atom_test f r = Some p ->
  rmatch code f r x caps k = eat code p x caps k.
Proof.
  destruct r; simpl; intros H; inversion H; reflexivity.
Qed.

Lemma groups_atom f r p : atom_test f r = Some p -> groups r = [].
Proof.
  destruct r; simpl; intros H; inversion H; reflexivity.
Qed.

Lemma length_tail_neq (s : list A) :
  Nat.eqb (length s) (S (length s)) = false.
Proof. apply Nat.eqb_neq. lia. Qed.

Section Loop.
Variable mr : mstate A -> captures A -> cont A -> option (result A).
Variable p : N -> bool.
Hypothesis mr_eat : forall x caps k, mr x caps k = eat code p x caps k.

Lemma rep_loop_greedy k s : forall pv caps n,
  length s < n ->
  rep_loop mr [] true k n 0 (MState pv s) caps = star_greedy p k pv s caps.
Proof.
  induction s as [|a s IH]; intros pv caps n Hn;
    (destruct n as [|n]; [lia|]); simpl;
    rewrite mr_eat, clear_captures_nil; unfold eat; simpl.
  - reflexivity.
  - destruct (p (code a)); [|reflexivity].
    rewrite length_tail_neq. simpl.
    rewrite IH by (simpl in Hn; lia). reflexivity.
Qed.

Lemma rep_loop_lazy k s : forall pv caps n,
  length s < n ->
  rep_loop mr [] false k n 0 (MState pv s) caps = star_lazy p k pv s caps.
Proof.
  induction s as [|a s IH]; intros pv caps n Hn;
    (destruct n as [|n]; [lia|]); simpl;
    rewrite mr_eat, clear_captures_nil; unfold eat; simpl.
  - reflexivity.
  - destruct (k (MState pv (a :: s)) caps); [reflexivity|].
    destruct (p (code a)); [|reflexivity].
    rewrite length_tail_neq. simpl.
    rewrite IH by (simpl in Hn; lia). reflexivity.
Qed.
End Loop.

Lemma rmatch_star f r p greedy pv s caps k :
  atom_test f r = Some p ->
  rmatch code f (Rep 0 greedy r) (MState pv s) caps k
  = star_ref greedy p k pv s caps.
Proof.
  intros H. cbn [rmatch]. rewrite (groups_atom _ _ H).
  destruct greedy; cbn [star_ref].
  - apply rep_loop_greedy; [intros; now apply rmatch_atom | simpl; lia].
  - apply rep_loop_lazy; [intros; now apply rmatch_atom | simpl; lia].
Qed.

Lemma rmatch_plus f r p greedy pv s caps k :
  atom_test f r = Some p ->
  rmatch code f (Rep 1 greedy r) (MState pv s) caps k
  = match s with
    | [] => None
    | a :: s' =>
        if p (code a) then star_ref greedy p k (Some a) s' caps else None
    end.
Proof.
  intros H. cbn [rmatch]. rewrite (groups_atom _ _ H).
  cbn [rest]. generalize (Nat.lt_succ_diag_r (length s)).
  generalize (S (length s)) as n. intros n Hn.
  cbn [Nat.add rep_loop Nat.ltb Nat.leb Nat.eqb andb Nat.pred].
  rewrite (rmatch_atom _ _ _ _ _ H), clear_captures_nil.
  unfold eat; cbn [rest]. destruct s as [|a s]; [reflexivity|].
  destruct (p (code a)); [|reflexivity].
  destruct greedy; cbn [star_ref].
  - apply rep_loop_greedy; [intros; now apply rmatch_atom | simpl in Hn; lia].
  - apply rep_loop_lazy; [intros; now apply rmatch_atom | simpl in Hn; lia].
Qed.

(** A literal run. *)
Lemma rmatch_Lit f l : forall pv s caps k,
  rmatch code f (Lit l) (MState pv s) caps k
  = match strip l pv s with Some y => k y caps | None => None end.
Proof.
  induction l as [|c l IH]; intros pv s caps k; simpl.
  - reflexivity.
  - unfold eat; simpl. destruct s as [|a s]; [reflexivity|].
    destruct (c =? code a)%N; [apply IH | reflexivity].
Qed.

Lemma strip_starts_with l : forall pv s,
  strip l pv s = None <-> starts_with code l s = false.
Proof.
  induction l as [|c l IH]; intros pv s; simpl.
  - split; discriminate.
  - destruct s as [|a s]; [tauto|].
    destruct (c =? code a)%N; simpl; [apply IH | tauto].
Qed.

(** [^] without the [m] flag only holds at index 0. *)
Lemma search_bol_inside r g da a s :
  search code (RegExp (Seq Bol r) g (Flags false da)) (Some a) s = false.
Proof.
  revert a. induction s as [|b s IH]; intros a; simpl;
    unfold match_at; simpl; [reflexivity | apply IH].
Qed.
End MatcherFacts.

(** * The paragraph test *)

Section BlockStart.
Variable A : Type.
Variable code : A -> N.

Lemma block_class (c : N) :
  class_test false [CChar (ch "h"); CChar (ch "|"); CChar (ch "u");
                    CChar (ch "|"); CChar (ch "o"); CChar (ch "|");
                    CChar (ch "p"); CChar (ch "|"); CChar (ch "b")] c
  = is_block_letter c.
Proof.
  unfold class_test, is_block_letter; cbn [existsb class_item_test xorb].
  destruct (c =? ch "h")%N, (c =? ch "u")%N, (c =? ch "o")%N,
    (c =? ch "p")%N, (c =? ch "b")%N, (c =? ch "|")%N; reflexivity.
Qed.

Lemma matches_block_start (s : list A) :
  matches code re_block_start s
  = match s with
    | a :: b :: _ => (ch "<" =? code a)%N && is_block_letter (code b)
    | _ => false
    end.
Proof.
  unfold matches, re_block_start, re_plain.
  destruct s as [|a [|b s]]; cbn [search seq_of];
    unfold match_at; cbn [source reflags rmatch at_bol prev andb];
    unfold eat; cbn [rest].
  - reflexivity.
  - destruct (ch "<" =? code a)%N; reflexivity.
  - rewrite block_class.
    destruct (ch "<" =? code a)%N; cbn [andb].
    + destruct (is_block_letter (code b)); [reflexivity|].
      apply (search_bol_inside code).
    + apply (search_bol_inside code).
Qed.
End BlockStart.

Lemma wrap_test (seg : list N) :
  matches id_code re_block_start seg = starts_block seg.
Proof.
  rewrite matches_block_start. unfold starts_block, id_code.
  destruct seg as [|a [|b seg]]; try reflexivity.
  now rewrite (N.eqb_sym (ch "<") a).
Qed.

(** * The bound on iterations is never reached *)

Section Fuel.
Variable A : Type.
Variable code : A -> N.

Implicit Types (x y : mstate A) (caps : captures A) (k : cont A).

Local Abbreviation agree_below := (@agree_below A).
Local Abbreviation forward := (@forward A).

Lemma eat_forward p : forward (eat code p).
Proof.
  intros x caps k1 k2 H. unfold eat.
  destruct (rest x) as [|a s] eqn:E; [reflexivity|].
  destruct (p (code a)); [|reflexivity].
  apply H. cbn [rest]. rewrite E. simpl. lia.
Qed.

Section Loop.
Variable mr : mstate A -> captures A -> cont A -> option (result A).
Hypothesis mr_forward : forward mr.
Variable gs : list nat.
Variable greedy : bool.

Lemma rep_loop_forward : forall fuel min,
  forward (fun x caps k => rep_loop mr gs greedy k fuel min x caps).
Proof.
  induction fuel as [|fuel IH]; intros min x caps k1 k2 H;
    cbn [rep_loop]; [reflexivity|].
  rewrite (H x caps) by lia.
  match goal with
  | |- ?L = ?R =>
      match L with
      | context [mr x _ ?d1] =>
          match R with
          | context [mr x _ ?d2] => assert (Hd : agree_below x d1 d2)
          end
      end
  end.
  { intros y c Hy. cbn beta.
    destruct (Nat.eqb min 0 &&
              Nat.eqb (length (rest y)) (length (rest x)));
      [reflexivity|].
    apply IH. intros z c' Hz. apply H. lia. }
  now rewrite (mr_forward _ Hd).
Qed.

Lemma rep_loop_fuel k : forall n1 n2 min x caps,
  min + length (rest x) < n1 -> min + length (rest x) < n2 ->
  rep_loop mr gs greedy k n1 min x caps
  = rep_loop mr gs greedy k n2 min x caps.
Proof.
  induction n1 as [|n1 IH]; intros n2 min x caps H1 H2; [lia|].
  destruct n2 as [|n2]; [lia|]. cbn [rep_loop].
  match goal with
  | |- ?L = ?R =>
      match L with
      | context [mr x _ ?d1] =>
          match R with
          | context [mr x _ ?d2] => assert (Hd : agree_below x d1 d2)
          end
      end
  end.
  { intros y c Hy. cbn beta.
    destruct (Nat.eqb min 0) eqn:M; cbn [andb].
    - apply Nat.eqb_eq in M. subst min.
      destruct (Nat.eqb (length (rest y)) (length (rest x))) eqn:L;
        [reflexivity|].
      apply Nat.eqb_neq in L. apply IH; simpl; lia.
    - apply Nat.eqb_neq in M. apply IH; lia. }
  now rewrite (mr_forward _ Hd).
Qed.
End Loop.

Lemma rmatch_forward f r : forward (rmatch code f r).
Proof.
  induction r as [|c| | | |neg items| | |r1 IH1 r2 IH2|n r1 IH1
                 |min greedy r1 IH1];
    intros x caps k1 k2 H; cbn [rmatch]; try (now apply eat_forward).
  - apply H. lia.
  - destruct (at_bol code f x); [apply H; lia | reflexivity].
  - destruct (at_eol code f x); [apply H; lia | reflexivity].
  - apply IH1. intros y c Hy. apply IH2. intros z c' Hz. apply H. lia.
  - apply IH1. intros y c Hy. now apply H.
  - now apply (rep_loop_forward IH1).
Qed.

(** With any larger bound the loop gives what the matcher gives. *)
Lemma rep_loop_enough f r min greedy k x caps (extra : nat) :
  rep_loop (rmatch code f r) (groups r) greedy k
    (min + S (length (rest x)) + extra) min x caps
  = rmatch code f (Rep min greedy r) x caps k.
Proof.
  cbn [rmatch]. apply rep_loop_fuel; [apply rmatch_forward | lia | lia].
Qed.
End Fuel.

(** * Plain strings: the stages with a first and a last occurrence *)

Section Plain.
Local Abbreviation sw := (starts_with id_code).

Lemma starts_with_split pat : forall s,
  sw pat s = true -> s = pat ++ skipn (length pat) s.
Proof.
  induction pat as [|c pat IH]; intros s H; simpl in *.
  - reflexivity.
  - destruct s as [|a s]; [discriminate|].
    apply andb_true_iff in H. destruct H as [H1 H2].
    apply N.eqb_eq in H1. unfold id_code in H1. subst a.
    f_equal. now apply IH.
Qed.

Lemma starts_with_app pat s : sw pat (pat ++ s) = true.
Proof.
  induction pat as [|c pat IH]; simpl; [reflexivity|].
  unfold id_code at 1. now rewrite N.eqb_refl.
Qed.

Lemma strip_sw pat : forall pv s,
  match strip id_code pat pv s with
  | Some y => sw pat s = true /\ rest y = skipn (length pat) s
  | None => sw pat s = false
  end.
Proof.
  induction pat as [|c pat IH]; intros pv s; simpl.
  - split; reflexivity.
  - destruct s as [|a s]; [reflexivity|].
    destruct (c =? id_code a)%N; simpl; [apply IH | reflexivity].
Qed.

Lemma sw_length pat : forall s,
  sw pat s = true -> length s = length pat + length (skipn (length pat) s).
Proof.
  intros s H. rewrite (starts_with_split _ _ H) at 1.
  now rewrite length_app.
Qed.

(** A literal, then the end of the match. *)
Lemma close_eq f pat pv w caps (k : cont N) :
  (forall p1 p2 s c, k (MState p1 s) c = k (MState p2 s) c) ->
  rmatch id_code f (Lit pat) (MState pv w) caps k
  = if sw pat w then k (MState None (skipn (length pat) w)) caps else None.
Proof.
  intros Hk. rewrite rmatch_Lit.
  generalize (strip_sw pat pv w).
  destruct (strip id_code pat pv w) as [[pv' w']|]; cbn [rest].
  - intros [-> ->]. apply Hk.
  - intros ->. reflexivity.
Qed.

Section Stars.
Variable f : flags.
Variable p : N -> bool.
Hypothesis p_all : forall c, p c = true.
Variable pat : list N.
Variable s0 : list N.

Lemma star_lazy_find : forall w pv caps,
  star_lazy id_code p
    (fun y c' =>
       rmatch id_code f (Lit pat) y
         (set_capture 1 (firstn (length s0 - length (rest y)) s0) c')
         final) pv w caps
  = match find_sub id_code pat w with
    | Some (_, post) =>
        Some (post,
              (1, firstn (length s0 - length pat - length post) s0) :: caps)
    | None => None
    end.
Proof.
  induction w as [|a w IH]; intros pv caps; cbn [star_lazy find_sub];
    (rewrite close_eq by reflexivity); cbn [rest].
  - destruct (sw pat []) eqn:E; [|reflexivity].
    unfold final, set_capture; cbn [rest].
    apply sw_length in E.
      rewrite <- Nat.sub_add_distr, <- E. reflexivity.
  - destruct (sw pat (a :: w)) eqn:E.
    + unfold final, set_capture; cbn [rest].
      apply sw_length in E.
      rewrite <- Nat.sub_add_distr, <- E. reflexivity.
    + rewrite p_all, IH.
      destruct (find_sub id_code pat w) as [[b r]|]; reflexivity.
Qed.

Lemma star_greedy_find_last : forall w pv caps,
  star_greedy id_code p
    (fun y c =>
       rmatch id_code f (Lit pat) y c
         (fun z c' =>
            Some (rest z,
                  set_capture 1
                    (firstn (length s0 - length (rest z)) s0) c')))
    pv w caps
  = match find_last_sub id_code pat w with
    | Some (_, post) =>
        Some (post, (1, firstn (length s0 - length post) s0) :: caps)
    | None => None
    end.
Proof.
  induction w as [|a w IH]; intros pv caps;
    cbn [star_greedy find_last_sub].
  - rewrite close_eq by reflexivity.
    destruct (sw pat []); reflexivity.
  - rewrite p_all, IH.
    destruct (find_last_sub id_code pat w) as [[b r]|]; [reflexivity|].
    rewrite close_eq by reflexivity.
    destruct (sw pat (a :: w)); reflexivity.
Qed.
End Stars.

Lemma find_sub_split pat : forall w b r,
  find_sub id_code pat w = Some (b, r) -> w = b ++ pat ++ r.
Proof.
  induction w as [|a w IH]; intros b r; cbn [find_sub].
  - destruct (sw pat []) eqn:E; [|discriminate].
    intros H; inversion H; subst. apply (starts_with_split _ _ E).
  - destruct (sw pat (a :: w)) eqn:E.
    + intros H; inversion H; subst. apply (starts_with_split _ _ E).
    + destruct (find_sub id_code pat w) as [[b' r']|]; [|discriminate].
      intros H; inversion H; subst. cbn [app]. f_equal. now apply IH.
Qed.

Lemma find_last_sub_split pat : forall w b r,
  find_last_sub id_code pat w = Some (b, r) -> w = b ++ pat ++ r.
Proof.
  induction w as [|a w IH]; intros b r; cbn [find_last_sub].
  - destruct (sw pat []) eqn:E; [|discriminate].
    intros H; inversion H; subst. apply (starts_with_split _ _ E).
  - destruct (find_last_sub id_code pat w) as [[b' r']|].
    + intros H; inversion H; subst. cbn [app]. f_equal. now apply IH.
    + destruct (sw pat (a :: w)) eqn:E; [|discriminate].
      intros H; inversion H; subst. apply (starts_with_split _ _ E).
Qed.

Lemma find_sub_none pat : forall w,
  find_sub id_code pat w = None -> ~ occurs pat w.
Proof.
  induction w as [|a w IH]; cbn [find_sub]; intros H (b & r & E).
  - destruct (sw pat []) eqn:E'; [discriminate|].
    destruct b; [|discriminate]. cbn [app] in E. rewrite E in E'.
    now rewrite starts_with_app in E'.
  - destruct (sw pat (a :: w)) eqn:E'; [discriminate|].
    destruct b as [|a' b].
    + cbn [app] in E. rewrite E in E'. now rewrite starts_with_app in E'.
    + inversion E; subst. apply IH.
      * now destruct (find_sub id_code pat (b ++ pat ++ r)) as [[? ?]|].
      * now exists b, r.
Qed.

Lemma find_last_sub_none pat : forall w,
  find_last_sub id_code pat w = None -> ~ occurs pat w.
Proof.
  induction w as [|a w IH]; cbn [find_last_sub]; intros H (b & r & E).
  - destruct (sw pat []) eqn:E'; [discriminate|].
    destruct b; [|discriminate]. cbn [app] in E. rewrite E in E'.
    now rewrite starts_with_app in E'.
  - destruct (find_last_sub id_code pat w) as [[b' r']|] eqn:F;
      [discriminate|].
    destruct (sw pat (a :: w)) eqn:E'; [discriminate|].
    destruct b as [|a' b].
    + cbn [app] in E. rewrite E in E'. now rewrite starts_with_app in E'.
    + inversion E; subst. apply IH; [reflexivity | now exists b, r].
Qed.

Lemma occurs_app_l pat u w : occurs pat w -> occurs pat (u ++ w).
Proof.
  intros (b & r & ->). exists (u ++ b), r. now rewrite <- app_assoc.
Qed.

(** An occurrence after the first occurrence of [o] in the tail of [a :: t']
    is an occurrence after the [o] that [a :: t'] starts with. *)
Lemma occurs_after o pat a t' b r :
  0 < length o ->
  t' = b ++ o ++ r -> occurs pat r ->
  occurs pat (skipn (length o) (a :: t')).
Proof.
  intros Ho -> Hr.
  destruct (length o) as [|n] eqn:E; [lia|]. cbn [skipn].
  rewrite app_assoc, skipn_app.
  replace (n - length (b ++ o)) with 0 by (rewrite length_app; lia).
  cbn [skipn]. now apply occurs_app_l.
Qed.

Lemma rmatch_Seq f r1 r2 (x : mstate N) caps k :
  rmatch id_code f (Seq r1 r2) x caps k
  = rmatch id_code f r1 x caps (fun y c => rmatch id_code f r2 y c k).
Proof. reflexivity. Qed.

Lemma rmatch_Group f n r (x : mstate N) caps k :
  rmatch id_code f (Group n r) x caps k
  = rmatch id_code f r x caps
      (fun y c => k y (set_capture n (consumed x y) c)).
Proof. reflexivity. Qed.

Lemma firstn_of_split (b m r : list N) :
  firstn (length (b ++ m ++ r) - length m - length r) (b ++ m ++ r) = b.
Proof.
  rewrite !length_app.
  replace (length b + (length m + length r) - length m - length r)
    with (length b + 0) by lia.
  now rewrite firstn_app_2, firstn_0, app_nil_r.
Qed.

Lemma firstn_of_split2 (b r : list N) :
  firstn (length (b ++ r) - length r) (b ++ r) = b.
Proof.
  rewrite length_app.
  replace (length b + length r - length r) with (length b + 0) by lia.
  now rewrite firstn_app_2, firstn_0, app_nil_r.
Qed.

(** [o], a lazy run of any characters in group 1, [c]. *)
Section LazyShape.
Variables (o c : list N) (f : flags) (g : bool) (cls : regex).
Variable p : N -> bool.
Hypothesis cls_atom : atom_test f cls = Some p.
Hypothesis p_all : forall a, p a = true.

Lemma match_at_lazy_shape p0 s :
  match_at id_code
    (RegExp (seq_of [Lit o; Group 1 (StarLazy cls); Lit c]) g f)
    (MState p0 s)
  = if sw o s then
      match find_sub id_code c (skipn (length o) s) with
      | Some (b, r) => Some (r, [(1, b)])
      | None => None
      end
    else None.
Proof.
  unfold match_at; cbn [source reflags seq_of].
  rewrite rmatch_Seq, rmatch_Lit.
  generalize (strip_sw o p0 s).
  destruct (strip id_code o p0 s) as [[pv1 w1]|]; cbn [rest];
    [intros [-> E] | intros ->; reflexivity].
  rewrite rmatch_Seq, rmatch_Group. unfold StarLazy.
  rewrite (rmatch_star id_code f cls false pv1 w1 _ _ cls_atom).
  cbn [star_ref].
  refine (eq_trans (star_lazy_find f p p_all c w1 w1 pv1 []) _).
  rewrite <- E.
  destruct (find_sub id_code c w1) as [[b r]|] eqn:F; [|reflexivity].
  apply find_sub_split in F. rewrite F at 1 2.
  now rewrite firstn_of_split.
Qed.
End LazyShape.

(** Group 1 around [o], a greedy run of any characters, [c]. *)
Section GreedyShape.
Variables (o c : list N) (f : flags) (g : bool).
Hypothesis f_all : forall a, dot_test f a = true.

Lemma match_at_greedy_shape p0 s :
  match_at id_code
    (RegExp (Group 1 (seq_of [Lit o; Star Dot; Lit c])) g f)
    (MState p0 s)
  = if sw o s then
      match find_last_sub id_code c (skipn (length o) s) with
      | Some (_, r) => Some (r, [(1, firstn (length s - length r) s)])
      | None => None
      end
    else None.
Proof.
  unfold match_at; cbn [source reflags seq_of].
  rewrite rmatch_Group, rmatch_Seq, rmatch_Lit.
  generalize (strip_sw o p0 s).
  destruct (strip id_code o p0 s) as [[pv1 w1]|]; cbn [rest];
    [intros [-> E] | intros ->; reflexivity].
  rewrite rmatch_Seq. unfold Star.
  rewrite (rmatch_star id_code f Dot true pv1 w1 _ _ eq_refl).
  cbn [star_ref].
  refine (eq_trans (star_greedy_find_last f _ f_all c s w1 pv1 []) _).
  rewrite <- E. reflexivity.
Qed.
End GreedyShape.

Lemma last_prev_cons (p : option N) a l :
  last_prev p (a :: l) = last_prev (Some a) l.
Proof.
  unfold last_prev. cbn [rev]. destruct (rev l); reflexivity.
Qed.

Lemma replace_all_skip re tm : forall n (s : list N) p,
  n <= length s ->
  replace_all id_code id_code re tm p s n
  = replace_all id_code id_code re tm (last_prev p (firstn n s))
      (skipn n s) 0.
Proof.
  induction n as [|n IH]; intros s p Hn.
  - reflexivity.
  - destruct s as [|a s]; [simpl in Hn; lia|].
    cbn [replace_all firstn skipn]. rewrite last_prev_cons.
    apply IH. simpl in Hn. lia.
Qed.

Lemma map_id_code (l : list N) : map id_code l = l.
Proof. apply map_id. Qed.

Lemma firstn_length_app (m r : list N) : firstn (length m) (m ++ r) = m.
Proof. induction m; simpl; [reflexivity | now f_equal]. Qed.

Lemma skipn_length_app (m r : list N) : skipn (length m) (m ++ r) = r.
Proof. induction m; simpl; [reflexivity | assumption]. Qed.

Lemma replace_all_hit re tm p (m post : list N) caps :
  m <> [] ->
  match_at id_code re (MState p (m ++ post)) = Some (post, caps) ->
  replace_all id_code id_code re tm p (m ++ post) 0
  = subst id_code tm caps
    ++ replace_all id_code id_code re tm (last_prev p m) post 0.
Proof.
  intros Hm H. destruct m as [|a m]; [congruence|].
  cbn [app replace_all]. cbn [app] in H. rewrite H. f_equal.
  replace (length (a :: m ++ post) - length post) with (S (length m))
    by (cbn [length]; rewrite length_app; lia).
  cbn [Nat.eqb Nat.pred].
  rewrite replace_all_skip by (rewrite length_app; lia).
  rewrite firstn_length_app, skipn_length_app, last_prev_cons; reflexivity.
Qed.

Lemma replace_all_miss re tm p a (s : list N) :
  match_at id_code re (MState p (a :: s)) = None ->
  replace_all id_code id_code re tm p (a :: s) 0
  = a :: replace_all id_code id_code re tm (Some a) s 0.
Proof. intros H. cbn [replace_all]. now rewrite H. Qed.

Section CodeBlocks.
Local Abbreviation bt3 := (str "```").
Local Abbreviation tm := tmpl_code_block.

Lemma match_at_code_block p s :
  match_at id_code re_code_block (MState p s)
  = if sw bt3 s then
      match find_sub id_code bt3 (skipn 3 s) with
      | Some (b, r) => Some (r, [(1, b)])
      | None => None
      end
    else None.
Proof.
  apply (@match_at_lazy_shape bt3 bt3 (Flags false false) true
           (Class false [CSpace; CNotSpace])
           (class_test false [CSpace; CNotSpace]) eq_refl).
  intros a. unfold class_test. cbn [existsb class_item_test xorb].
  now destruct (is_space a).
Qed.

Lemma replace_all_code_block_prev p p' s n :
  replace_all id_code id_code re_code_block tm p s n
  = replace_all id_code id_code re_code_block tm p' s n.
Proof.
  destruct n as [|n]; destruct s as [|a s]; cbn [replace_all];
    rewrite ?(match_at_code_block p), ?(match_at_code_block p');
    reflexivity.
Qed.

Lemma code_blocks_step : forall t p,
  replace_all id_code id_code re_code_block tm p t 0
  = match find_sub id_code bt3 t with
    | None => t
    | Some (pre, w) =>
        match find_sub id_code bt3 w with
        | None => t
        | Some (c, post) =>
            pre ++ str "<pre><code>" ++ c ++ str "</code></pre>"
            ++ replace_all id_code id_code re_code_block tm None post 0
        end
    end.
Proof.
  induction t as [|a t IH]; intros p.
  - reflexivity.
  - cbn [find_sub].
    destruct (sw bt3 (a :: t)) eqn:E.
    + change (length bt3) with 3.
      destruct (find_sub id_code bt3 (skipn 3 (a :: t)))
        as [[c post]|] eqn:F.
      * pose proof (starts_with_split _ _ E) as Ht.
        pose proof (find_sub_split _ _ F) as Hw.
        change (length bt3) with 3 in Ht. rewrite Hw in Ht.
        assert (M : match_at id_code re_code_block (MState p (a :: t))
                    = Some (post, [(1, c)])).
        { rewrite match_at_code_block, E, F. reflexivity. }
        rewrite Ht in M |- *.
        replace (bt3 ++ c ++ bt3 ++ post)
          with ((bt3 ++ c ++ bt3) ++ post) in M |- *
          by (now rewrite <- !app_assoc).
        rewrite (@replace_all_hit re_code_block tm p (bt3 ++ c ++ bt3)
                   post [(1, c)]); [| discriminate | exact M].
        rewrite (replace_all_code_block_prev _ None).
        cbn [app]. unfold tm, tmpl_code_block, subst.
        cbn [flat_map subst_item get_capture find fst snd Nat.eqb].
        rewrite !map_id_code, app_nil_r, <- !app_assoc. reflexivity.
      * rewrite replace_all_miss
          by (rewrite match_at_code_block, E, F; reflexivity).
        rewrite IH. f_equal.
        destruct (find_sub id_code bt3 t) as [[b r]|] eqn:G;
          [|reflexivity].
        destruct (find_sub id_code bt3 r) as [[c post]|] eqn:G';
          [|reflexivity].
        exfalso. apply (find_sub_none F).
        apply find_sub_split in G, G'.
        apply (@occurs_after bt3 bt3 a t b r);
          [simpl; lia | exact G |].
        now exists c, post.
    + rewrite replace_all_miss
        by (rewrite match_at_code_block, E; reflexivity).
      rewrite IH.
      destruct (find_sub id_code bt3 t) as [[b r]|]; [|reflexivity].
      destruct (find_sub id_code bt3 r) as [[c post]|]; reflexivity.
Qed.
End CodeBlocks.

Section UlWrap.
Local Abbreviation li := (str "<li>").
Local Abbreviation cli := (str "</li>").
Local Abbreviation tm := (wrap_tag "ul").

Lemma match_at_ul_wrap p s :
  match_at id_code re_ul_wrap (MState p s)
  = if sw li s then
      match find_last_sub id_code cli (skipn 4 s) with
      | Some (_, r) => Some (r, [(1, firstn (length s - length r) s)])
      | None => None
      end
    else None.
Proof.
  apply (@match_at_greedy_shape li cli (Flags false true) false).
  reflexivity.
Qed.

Lemma ul_wrap_step : forall t p,
  replace_first id_code id_code re_ul_wrap tm p t
  = match find_sub id_code li t with
    | None => t
    | Some (pre, w) =>
        match find_last_sub id_code cli w with
        | None => t
        | Some (mid, post) =>
            pre ++ str "<ul>" ++ (li ++ mid ++ cli) ++ str "</ul>"
            ++ post
        end
    end.
Proof.
  induction t as [|a t IH]; intros p.
  - reflexivity.
  - cbn [replace_first find_sub]. rewrite match_at_ul_wrap.
    destruct (sw li (a :: t)) eqn:E.
    + change (length li) with 4.
      destruct (find_last_sub id_code cli (skipn 4 (a :: t)))
        as [[mid post]|] eqn:F.
      * pose proof (starts_with_split _ _ E) as Ht.
        apply find_last_sub_split in F.
        change (length li) with 4 in Ht. rewrite F in Ht.
        rewrite Ht.
        replace (li ++ mid ++ cli ++ post)
          with ((li ++ mid ++ cli) ++ post)
          by (now rewrite <- !app_assoc).
        rewrite firstn_of_split2.
        unfold tm, wrap_tag, subst.
        cbn [flat_map subst_item get_capture find fst snd Nat.eqb].
        rewrite !map_id_code, app_nil_r, <- !app_assoc. reflexivity.
      * rewrite IH. f_equal.
        destruct (find_sub id_code li t) as [[b r]|] eqn:G;
          [|reflexivity].
        destruct (find_last_sub id_code cli r) as [[c post]|] eqn:G';
          [|reflexivity].
        exfalso. apply (find_last_sub_none F).
        apply find_sub_split in G. apply find_last_sub_split in G'.
        apply (@occurs_after li cli a t b r);
          [simpl; lia | exact G |].
        now exists c, post.
    + destruct t as [|a' t'].
      * reflexivity.
      * rewrite IH.
        destruct (find_sub id_code li (a' :: t')) as [[b r]|];
          [|reflexivity].
        destruct (find_last_sub id_code cli r) as [[c post]|];
          reflexivity.
Qed.
End UlWrap.
End Plain.

(** * The matcher is sound *)

Section Soundness.
Variable A : Type.
Variable code : A -> N.

Implicit Types (x y : mstate A) (caps : captures A) (k : cont A).

Lemma eat_sound p x caps k res :
  eat code p x caps k = Some res ->
  exists y caps', step code p x caps y caps' /\ k y caps' = Some res.
Proof.
  unfold eat. destruct (rest x) as [|a s] eqn:E; [discriminate|].
  destruct (p (code a)) eqn:P; [|discriminate]. intros H.
  exists (MState (Some a) s), caps. split; [|exact H].
  exists a. cbn [rest prev]. auto.
Qed.

Section LoopSound.
Variable mr : mstate A -> captures A -> cont A -> option (result A).
Variable D : mstate A -> captures A -> mstate A -> captures A -> Prop.
Hypothesis mr_sound : forall x caps k res,
  mr x caps k = Some res ->
  exists y caps', D x caps y caps' /\ k y caps' = Some res.

Lemma rep_loop_sound gs greedy k res : forall fuel min x caps,
  rep_loop mr gs greedy k fuel min x caps = Some res ->
  exists y caps', rep_denotes D gs min x caps y caps' /\
                  k y caps' = Some res.
Proof.
  induction fuel as [|fuel IH]; intros min x caps; cbn [rep_loop];
    [discriminate|].
  set (d := fun y caps' =>
              if Nat.eqb min 0 &&
                 Nat.eqb (length (rest y)) (length (rest x))
              then None
              else rep_loop mr gs greedy k fuel (pred min) y caps').
  assert (Hd : mr x (clear_captures gs caps) d = Some res ->
               exists y caps', rep_denotes D gs min x caps y caps' /\
                               k y caps' = Some res).
  { intros H. apply mr_sound in H. destruct H as (y & c1 & HD & Hk).
    unfold d in Hk.
    destruct (Nat.eqb min 0 &&
              Nat.eqb (length (rest y)) (length (rest x)));
      [discriminate|].
    apply IH in Hk. destruct Hk as (z & c2 & HR & Hk).
    exists z, c2. split; [|exact Hk]. eapply rep_more; eassumption. }
  destruct (Nat.ltb 0 min) eqn:M; [exact Hd|].
  apply Nat.ltb_ge in M. assert (min = 0) by lia. subst min.
  destruct greedy.
  - destruct (mr x (clear_captures gs caps) d) as [res'|] eqn:E.
    + intros H; inversion H; subst. now apply Hd.
    + intros H. exists x, caps. split; [constructor | exact H].
  - destruct (k x caps) as [res'|] eqn:E.
    + intros H; inversion H; subst.
      exists x, caps. split; [constructor | exact E].
    + exact Hd.
Qed.
End LoopSound.

(** The matcher only returns matches of the pattern. *)
Theorem rmatch_sound f r : forall x caps k res,
  rmatch code f r x caps k = Some res ->
  exists y caps', denotes code f r x caps y caps' /\ k y caps' = Some res.
Proof.
  induction r as [|c| | | |neg items| | |r1 IH1 r2 IH2|n r1 IH1
                 |min greedy r1 IH1];
    intros x caps k res; cbn [rmatch denotes];
    try apply eat_sound.
  - intros H. exists x, caps. auto.
  - destruct (at_bol code f x) eqn:E; [|discriminate].
    intros H. exists x, caps. auto.
  - destruct (at_eol code f x) eqn:E; [|discriminate].
    intros H. exists x, caps. auto.
  - intros H. apply IH1 in H. destruct H as (z & c & H1 & H).
    apply IH2 in H. destruct H as (y & c' & H2 & H).
    exists y, c'. split; [|exact H]. now exists z, c.
  - intros H. apply IH1 in H. destruct H as (y & c & H1 & H).
    exists y, (set_capture n (consumed x y) c). split; [|exact H].
    now exists c.
  - apply rep_loop_sound. exact IH1.
Qed.
End Soundness.

Section DenotesFacts.
Variable A : Type.
Variable code : A -> N.

Implicit Types (x y : mstate A) (caps : captures A).

Lemma rep_denotes_inv (Inv : mstate A -> captures A -> Prop) D gs :
  (forall x caps, Inv x caps -> Inv x (clear_captures gs caps)) ->
  (forall x caps y caps', D x caps y caps' -> Inv x caps -> Inv y caps') ->
  forall min x caps y caps',
    rep_denotes D gs min x caps y caps' -> Inv x caps -> Inv y caps'.
Proof.
  intros Hclear HD min x caps y caps' H.
  induction H as [|min x caps y caps1 z caps2 H1 H2 IH]; intros HI.
  - exact HI.
  - apply IH. eapply HD; [exact H1|]. now apply Hclear.
Qed.

(** A match ends inside what was left of the subject. *)
Lemma denotes_suffix f r : forall x caps y caps',
  denotes code f r x caps y caps' -> exists u, rest x = u ++ rest y.
Proof.
  assert (Hstep : forall p x caps y caps',
             step code p x caps y caps' -> exists u, rest x = u ++ rest y).
  { intros p x caps y caps' (a & E & _). now exists [a]. }
  induction r as [|c| | | |neg items| | |r1 IH1 r2 IH2|n r1 IH1
                 |min greedy r1 IH1];
    intros x caps y caps'; cbn [denotes]; try apply Hstep.
  - intros [-> _]. now exists [].
  - intros (_ & -> & _). now exists [].
  - intros (_ & -> & _). now exists [].
  - intros (z & c & H1 & H2).
    apply IH1 in H1. apply IH2 in H2.
    destruct H1 as [u1 E1], H2 as [u2 E2].
    exists (u1 ++ u2). now rewrite E1, E2, app_assoc.
  - intros (c & H1 & _). eapply IH1; eassumption.
  - intros H.
    apply (rep_denotes_inv
             (fun y _ => exists u, rest x = u ++ rest y)) in H.
    + exact H.
    + auto.
    + intros x1 c1 y1 c1' HD [u E]. apply IH1 in HD.
      destruct HD as [u' E']. exists (u ++ u').
      now rewrite E, E', app_assoc.
    + now exists [].
Qed.

Lemma consumed_suffix x y u :
  rest x = u ++ rest y -> consumed x y = u.
Proof.
  intros E. unfold consumed. rewrite E, length_app.
  replace (length u + length (rest y) - length (rest y))
    with (length u + 0) by lia.
  now rewrite firstn_app_2, firstn_0, app_nil_r.
Qed.

(** A pattern without groups leaves the captures as they are. *)
Lemma denotes_no_groups f r : forall x caps y caps',
  groups r = [] -> denotes code f r x caps y caps' -> caps' = caps.
Proof.
  assert (Hstep : forall p x caps y caps',
             step code p x caps y caps' -> caps' = caps).
  { now intros p x caps y caps' (a & _ & _ & _ & E). }
  induction r as [|c| | | |neg items| | |r1 IH1 r2 IH2|n r1 IH1
                 |min greedy r1 IH1];
    intros x caps y caps' G; cbn [denotes]; try apply Hstep.
  - now intros [_ ->].
  - now intros (_ & _ & ->).
  - now intros (_ & _ & ->).
  - cbn [groups] in G. apply app_eq_nil in G. destruct G as [G1 G2].
    intros (z & c & H1 & H2).
    apply (IH1 _ _ _ _ G1) in H1. apply (IH2 _ _ _ _ G2) in H2.
    congruence.
  - discriminate G.
  - cbn [groups] in G. rewrite G. intros H.
    apply (rep_denotes_inv (fun _ c => c = caps)) in H.
    + exact H.
    + intros _ c ->. apply clear_captures_nil.
    + intros x1 c1 y1 c1' HD ->. now apply (IH1 _ _ _ _ G) in HD.
    + reflexivity.
Qed.

(** Captures are made of characters of the subject. *)
Section CapturesForall.
Variable Q : A -> Prop.
Local Abbreviation caps_all := (caps_all Q).

Lemma caps_all_clear gs caps :
  caps_all caps -> caps_all (clear_captures gs caps).
Proof.
  unfold caps_all, clear_captures. rewrite !Forall_forall.
  intros H e He. apply filter_In in He. now apply H.
Qed.

Lemma denotes_caps_all f r : forall x caps y caps',
  denotes code f r x caps y caps' ->
  Forall Q (rest x) -> caps_all caps -> caps_all caps'.
Proof.
  assert (Hstep : forall p x caps y caps',
             step code p x caps y caps' -> caps_all caps ->
             caps_all caps').
  { now intros p x caps y caps' (a & _ & _ & _ & ->). }
  induction r as [|c| | | |neg items| | |r1 IH1 r2 IH2|n r1 IH1
                 |min greedy r1 IH1];
    intros x caps y caps'; cbn [denotes];
    try (intros H _; revert H; apply Hstep).
  - now intros [_ ->].
  - now intros (_ & _ & ->).
  - now intros (_ & _ & ->).
  - intros (z & c & H1 & H2) Hx Hc.
    destruct (denotes_suffix _ _ _ _ _ _ H1) as [u E].
    apply (IH2 _ _ _ _ H2).
    + rewrite E in Hx. now apply Forall_app in Hx.
    + now apply (IH1 _ _ _ _ H1).
  - intros (c & H1 & ->) Hx Hc.
    destruct (denotes_suffix _ _ _ _ _ _ H1) as [u E].
    constructor; [|now apply (IH1 _ _ _ _ H1)].
    cbn [snd]. erewrite consumed_suffix by exact E.
    rewrite E in Hx. now apply Forall_app in Hx.
  - intros H Hx Hc.
    apply (rep_denotes_inv
             (fun y c => Forall Q (rest y) /\ caps_all c)) in H.
    + apply H.
    + intros x1 c1 [H1 H2]. split; [exact H1|].
      now apply caps_all_clear.
    + intros x1 c1 y1 c1' HD [H1 H2]. split.
      * destruct (denotes_suffix _ _ _ _ _ _ HD) as [u E].
        rewrite E in H1. now apply Forall_app in H1.
      * now apply (IH1 _ _ _ _ HD).
    + now split.
Qed.
End CapturesForall.
End DenotesFacts.

(** * Where the characters of the result come from *)

Section Provenance.
Variable A : Type.
Variable code : A -> N.
Variable gen : N -> A.
Variable Q : A -> Prop.
Hypothesis Q_gen : forall c, Q (gen c).

Lemma match_at_Forall re p s s' caps :
  match_at code re (MState p s) = Some (s', caps) ->
  Forall Q s -> Forall Q s' /\ caps_all Q caps.
Proof.
  unfold match_at. intros H Hs. apply rmatch_sound in H.
  destruct H as (y & caps' & HD & H). inversion H; subst. split.
  - pose proof HD as HS. apply denotes_suffix in HS. destruct HS as [u E].
    cbn [rest] in E. rewrite E in Hs. now apply Forall_app in Hs.
  - eapply denotes_caps_all; [exact HD | exact Hs | constructor].
Qed.

Lemma get_capture_Forall n caps v :
  caps_all Q caps -> get_capture n caps = Some v -> Forall Q v.
Proof.
  unfold get_capture, caps_all. intros Hc.
  destruct (find (fun e => Nat.eqb (fst e) n) caps) as [e|] eqn:E;
    [|discriminate].
  intros H; inversion H; subst. apply find_some in E.
  rewrite Forall_forall in Hc. now apply Hc.
Qed.

Lemma subst_Forall tm caps :
  caps_all Q caps -> Forall Q (subst gen tm caps).
Proof.
  intros Hc. unfold subst. induction tm as [|t tm IH]; cbn [flat_map].
  - constructor.
  - apply Forall_app. split; [|exact IH].
    destruct t as [l|n]; cbn [subst_item].
    + apply Forall_forall. intros a Ha. apply in_map_iff in Ha.
      destruct Ha as (c & <- & _). apply Q_gen.
    + destruct (get_capture n caps) as [v|] eqn:E; [|constructor].
      eapply get_capture_Forall; eassumption.
Qed.

Lemma replace_all_Forall re tm : forall s n p,
  Forall Q s -> Forall Q (replace_all code gen re tm p s n).
Proof.
  induction s as [|a s IH]; intros n p Hs; destruct n as [|n];
    cbn [replace_all].
  - destruct (match_at code re (MState p [])) as [[y caps]|] eqn:E;
      [|constructor].
    apply match_at_Forall in E; [|exact Hs].
    rewrite app_nil_r. now apply subst_Forall.
  - constructor.
  - inversion Hs; subst.
    destruct (match_at code re (MState p (a :: s))) as [[y caps]|] eqn:E.
    + apply match_at_Forall in E; [|exact Hs].
      apply Forall_app. split; [now apply subst_Forall|].
      destruct (Nat.eqb (length (a :: s) - length y) 0);
        [constructor; [assumption|]|]; now apply IH.
    + constructor; [assumption | now apply IH].
  - inversion Hs; subst. now apply IH.
Qed.

Lemma replace_first_Forall re tm : forall s p,
  Forall Q s -> Forall Q (replace_first code gen re tm p s).
Proof.
  induction s as [|a s IH]; intros p Hs; cbn [replace_first].
  - destruct (match_at code re (MState p [])) as [[y caps]|] eqn:E;
      [|constructor].
    apply match_at_Forall in E; [|exact Hs].
    apply Forall_app. split; [now apply subst_Forall | apply E].
  - destruct (match_at code re (MState p (a :: s))) as [[y caps]|] eqn:E.
    + apply match_at_Forall in E; [|exact Hs].
      apply Forall_app. split; [now apply subst_Forall | apply E].
    + inversion Hs; subst. constructor; [assumption | now apply IH].
Qed.

Lemma replace_Forall re tm s :
  Forall Q s -> Forall Q (replace code gen re tm s).
Proof.
  unfold replace. destruct (global re);
    [apply replace_all_Forall | apply replace_first_Forall].
Qed.

Lemma split_go_Forall sep : forall s cur skip,
  Forall Q cur -> Forall Q s ->
  Forall (Forall Q) (split_go code sep cur s skip).
Proof.
  induction s as [|a s IH]; intros cur skip Hc Hs; cbn [split_go].
  - constructor; [|constructor]. now apply Forall_rev.
  - inversion Hs; subst. destruct skip as [|n]; [|now apply IH].
    destruct (starts_with code sep (a :: s)).
    + constructor; [now apply Forall_rev | now apply IH].
    + apply IH; [now constructor | assumption].
Qed.

Lemma split_Forall sep s :
  Forall Q s -> Forall (Forall Q) (split code sep s).
Proof.
  intros Hs. destruct sep as [|c sep]; cbn [split].
  - induction Hs; cbn [map]; constructor; auto.
  - now apply split_go_Forall.
Qed.

Lemma join_Forall sep l :
  Forall (Forall Q) l -> Forall Q (join gen sep l).
Proof.
  induction 1 as [|x l Hx Hl IH]; cbn [join]; [constructor|].
  destruct l as [|x' l]; [exact Hx|].
  apply Forall_app. split; [exact Hx|].
  apply Forall_app. split; [|exact IH].
  apply Forall_forall. intros a Ha. apply in_map_iff in Ha.
  destruct Ha as (c & <- & _). apply Q_gen.
Qed.

Lemma map_gen_Forall l : Forall Q (map gen l).
Proof.
  apply Forall_forall. intros a Ha. apply in_map_iff in Ha.
  destruct Ha as (c & <- & _). apply Q_gen.
Qed.

Lemma wrap_para_Forall para :
  Forall Q para -> Forall Q (wrap_para code gen para).
Proof.
  intros H. unfold wrap_para.
  destruct (negb (matches code re_block_start para)); [|exact H].
  apply Forall_app. split; [apply map_gen_Forall|].
  apply Forall_app. split; [exact H | apply map_gen_Forall].
Qed.

Lemma paragraphs_Forall html :
  Forall Q html -> Forall Q (paragraphs code gen html).
Proof.
  intros H. unfold paragraphs. apply join_Forall.
  apply Forall_forall. intros x Hx. apply in_map_iff in Hx.
  destruct Hx as (seg & <- & Hseg). apply wrap_para_Forall.
  apply (split_Forall [newline; newline]) in H.
  rewrite Forall_forall in H. now apply H.
Qed.

(** The stages after the escape stage only copy characters of their
    input and add characters of their templates. *)
Lemma later_stages_Forall html :
  Forall Q html ->
  Forall Q (later_stages code gen html).
Proof.
  intros H. unfold later_stages. apply paragraphs_Forall.
  unfold ordered_lists, unordered_lists, ul_wrap, ul_items, blockquotes,
    horizontal_rules, images, links, inline_code, code_blocks, italic,
    bold, headers.
  repeat apply replace_Forall. exact H.
Qed.
End Provenance.

(** * The converter only looks at code units *)

Section Erasure.
Variable A : Type.
Variable code : A -> N.
Variable gen : N -> A.
Hypothesis code_gen : forall c, code (gen c) = c.

Local Abbreviation erase_state := (erase_state code).
Local Abbreviation erase_captures := (erase_captures code).
Local Abbreviation erase_result := (erase_result code).
Local Abbreviation cont_erases := (cont_erases code).

Lemma eat_erase p x caps k k' :
  cont_erases k k' ->
  eat id_code p (erase_state x) (erase_captures caps) k'
  = option_map erase_result (eat code p x caps k).
Proof.
  intros Hk. unfold eat. destruct x as [pv [|a s]]; cbn [rest erase_state map].
  - reflexivity.
  - unfold id_code at 1. destruct (p (code a)); [|reflexivity].
    apply (Hk (MState (Some a) s)).
Qed.

Lemma consumed_erase x y :
  consumed (erase_state x) (erase_state y) = map code (consumed x y).
Proof.
  unfold consumed, erase_state; cbn [rest].
  now rewrite !length_map, firstn_map.
Qed.

Lemma clear_captures_erase gs caps :
  clear_captures gs (erase_captures caps)
  = erase_captures (clear_captures gs caps).
Proof.
  unfold clear_captures, erase_captures.
  induction caps as [|e caps IH]; cbn [map filter fst]; [reflexivity|].
  destruct (negb (existsb (Nat.eqb (fst e)) gs)); cbn [map];
    now rewrite IH.
Qed.

Section LoopErase.
Variable mr : mstate A -> captures A -> cont A -> option (result A).
Variable mr' : mstate N -> captures N -> cont N -> option (result N).
Hypothesis mr_erase : forall x caps k k',
  cont_erases k k' ->
  mr' (erase_state x) (erase_captures caps) k'
  = option_map erase_result (mr x caps k).

Lemma rep_loop_erase gs greedy k k' :
  cont_erases k k' ->
  forall fuel min x caps,
    rep_loop mr' gs greedy k' fuel min (erase_state x)
      (erase_captures caps)
    = option_map erase_result (rep_loop mr gs greedy k fuel min x caps).
Proof.
  intros Hk. induction fuel as [|fuel IH]; intros min x caps;
    cbn [rep_loop]; [reflexivity|].
  rewrite clear_captures_erase.
  match goal with
  | |- context [mr' _ _ ?d'] =>
      match goal with
      | |- context [mr x _ ?d] =>
          assert (Hd : cont_erases d d')
      end
  end.
  { intros y c. cbn beta.
    replace (length (rest (erase_state y))) with (length (rest y))
      by (unfold erase_state; cbn [rest]; now rewrite length_map).
    replace (length (rest (erase_state x))) with (length (rest x))
      by (unfold erase_state; cbn [rest]; now rewrite length_map).
    destruct (Nat.eqb min 0 &&
              Nat.eqb (length (rest y)) (length (rest x)));
      [reflexivity | apply IH]. }
  rewrite (mr_erase _ _ Hd).
  destruct (Nat.ltb 0 min); [reflexivity|].
  destruct greedy.
  - destruct (mr x (clear_captures gs caps) _); [reflexivity | apply Hk].
  - rewrite Hk. destruct (k x caps); reflexivity.
Qed.
End LoopErase.

Lemma rmatch_erase f r : forall x caps k k',
  cont_erases k k' ->
  rmatch id_code f r (erase_state x) (erase_captures caps) k'
  = option_map erase_result (rmatch code f r x caps k).
Proof.
  induction r as [|c| | | |neg items| | |r1 IH1 r2 IH2|n r1 IH1
                 |min greedy r1 IH1];
    intros x caps k k' Hk; cbn [rmatch]; try (now apply eat_erase).
  - apply Hk.
  - replace (at_bol id_code f (erase_state x)) with (at_bol code f x)
      by (unfold at_bol; destruct x as [[a|] s]; reflexivity).
    destruct (at_bol code f x); [apply Hk | reflexivity].
  - replace (at_eol id_code f (erase_state x)) with (at_eol code f x)
      by (unfold at_eol; destruct x as [pv [|a s]]; reflexivity).
    destruct (at_eol code f x); [apply Hk | reflexivity].
  - apply IH1. intros y c. now apply IH2.
  - apply IH1. intros y c. rewrite consumed_erase.
    apply (Hk y (set_capture n (consumed x y) c)).
  - unfold erase_state at 1; cbn [rest]. rewrite length_map.
    now apply rep_loop_erase.
Qed.

Lemma match_at_erase re x :
  match_at id_code re (erase_state x)
  = option_map erase_result (match_at code re x).
Proof.
  unfold match_at. apply (rmatch_erase _ _ x []).
  intros y c. reflexivity.
Qed.

Lemma match_at_erase' re p s :
  match_at id_code re (MState (option_map code p) (map code s))
  = option_map erase_result (match_at code re (MState p s)).
Proof. apply (match_at_erase re (MState p s)). Qed.

Lemma get_capture_erase n caps :
  get_capture n (erase_captures caps)
  = option_map (map code) (get_capture n caps).
Proof.
  unfold get_capture, erase_captures.
  induction caps as [|e caps IH]; cbn [map find fst]; [reflexivity|].
  destruct (Nat.eqb (fst e) n); [reflexivity | exact IH].
Qed.

Lemma map_code_gen l : map code (map gen l) = map id_code l.
Proof.
  rewrite map_map. apply map_ext. intros c. apply code_gen.
Qed.

Lemma subst_erase tm caps :
  subst id_code tm (erase_captures caps) = map code (subst gen tm caps).
Proof.
  unfold subst. induction tm as [|t tm IH]; cbn [flat_map];
    [reflexivity|].
  rewrite map_app, IH. f_equal.
  destruct t as [l|n]; cbn [subst_item].
  - now rewrite map_code_gen.
  - rewrite get_capture_erase.
    destruct (get_capture n caps); reflexivity.
Qed.

Lemma replace_all_erase re tm : forall s n p,
  replace_all id_code id_code re tm (option_map code p) (map code s) n
  = map code (replace_all code gen re tm p s n).
Proof.
  induction s as [|a s IH]; intros n p; destruct n as [|n];
    cbn [replace_all map].
  - pose proof (match_at_erase' re p []) as E. cbn [map] in E. rewrite E.
    destruct (match_at code re (MState p [])) as [[y caps]|];
      cbn [option_map erase_result fst snd]; [|reflexivity].
    now rewrite !app_nil_r, subst_erase.
  - reflexivity.
  - change (code a :: map code s) with (map code (a :: s)).
    rewrite match_at_erase'.
    destruct (match_at code re (MState p (a :: s))) as [[y caps]|];
      cbn [option_map erase_result fst snd].
    + rewrite map_app, subst_erase, !length_map. f_equal.
      destruct (Nat.eqb (length (a :: s) - length y) 0); cbn [map];
        [f_equal|]; apply (IH _ (Some a)).
    + cbn [map]. f_equal. apply (IH _ (Some a)).
  - apply (IH _ (Some a)).
Qed.

Lemma replace_first_erase re tm : forall s p,
  replace_first id_code id_code re tm (option_map code p) (map code s)
  = map code (replace_first code gen re tm p s).
Proof.
  induction s as [|a s IH]; intros p; cbn [replace_first map].
  - pose proof (match_at_erase' re p []) as E. cbn [map] in E. rewrite E.
    destruct (match_at code re (MState p [])) as [[y caps]|];
      cbn [option_map erase_result fst snd]; [|reflexivity].
    now rewrite map_app, subst_erase.
  - change (code a :: map code s) with (map code (a :: s)).
    rewrite match_at_erase'.
    destruct (match_at code re (MState p (a :: s))) as [[y caps]|];
      cbn [option_map erase_result fst snd].
    + now rewrite map_app, subst_erase.
    + cbn [map]. f_equal. apply (IH (Some a)).
Qed.

Lemma replace_erase re tm s :
  replace id_code id_code re tm (map code s)
  = map code (replace code gen re tm s).
Proof.
  unfold replace. destruct (global re).
  - apply (replace_all_erase re tm s 0 None).
  - apply (replace_first_erase re tm s None).
Qed.

Lemma search_erase re : forall s p,
  search id_code re (option_map code p) (map code s) = search code re p s.
Proof.
  induction s as [|a s IH]; intros p; cbn [search map].
  - pose proof (match_at_erase' re p []) as E. cbn [map] in E. rewrite E.
    destruct (match_at code re (MState p [])); reflexivity.
  - change (code a :: map code s) with (map code (a :: s)).
    rewrite match_at_erase'.
    destruct (match_at code re (MState p (a :: s))); cbn [option_map];
      [reflexivity | apply (IH (Some a))].
Qed.

Lemma starts_with_erase pat : forall s,
  starts_with id_code pat (map code s) = starts_with code pat s.
Proof.
  induction pat as [|c pat IH]; intros [|a s]; cbn [starts_with map];
    try reflexivity.
  now rewrite IH.
Qed.

Lemma split_go_erase sep : forall s cur skip,
  split_go id_code sep (map code cur) (map code s) skip
  = map (map code) (split_go code sep cur s skip).
Proof.
  induction s as [|a s IH]; intros cur skip; cbn [split_go map].
  - now rewrite map_rev.
  - destruct skip as [|n]; [|apply IH].
    change (code a :: map code s) with (map code (a :: s)).
    rewrite starts_with_erase.
    destruct (starts_with code sep (a :: s)); cbn [map].
    + rewrite map_rev. f_equal. apply (IH []).
    + apply (IH (a :: cur)).
Qed.

Lemma split_erase sep s :
  split id_code sep (map code s) = map (map code) (split code sep s).
Proof.
  destruct sep as [|c sep]; cbn [split].
  - rewrite !map_map. reflexivity.
  - apply (split_go_erase (c :: sep) s [] 0).
Qed.

Lemma join_erase sep l :
  join id_code sep (map (map code) l) = map code (join gen sep l).
Proof.
  induction l as [|x l IH]; cbn [join map]; [reflexivity|].
  destruct l as [|x' l]; [reflexivity|].
  cbn [map] in IH |- *. rewrite !map_app, map_code_gen. now rewrite IH.
Qed.

Lemma wrap_para_erase para :
  wrap_para id_code id_code (map code para)
  = map code (wrap_para code gen para).
Proof.
  unfold wrap_para, matches.
  pose proof (search_erase re_block_start para None) as E.
  cbn [option_map] in E. rewrite E.
  destruct (negb (search code re_block_start None para)); [|reflexivity].
  now rewrite !map_app, !map_code_gen.
Qed.

Lemma paragraphs_erase html :
  paragraphs id_code id_code (map code html)
  = map code (paragraphs code gen html).
Proof.
  unfold paragraphs. rewrite split_erase, <- join_erase, !map_map.
  f_equal. apply map_ext. intros seg. apply wrap_para_erase.
Qed.

Lemma later_stages_erase html :
  later_stages id_code id_code (map code html)
  = map code (later_stages code gen html).
Proof.
  unfold later_stages, ordered_lists, unordered_lists, ul_wrap, ul_items,
    blockquotes, horizontal_rules, images, links, inline_code,
    code_blocks, italic, bold, headers.
  rewrite <- paragraphs_erase. now rewrite <- !replace_erase.
Qed.

Lemma escape_html_erase html :
  escape_html id_code id_code (map code html)
  = map code (escape_html code gen html).
Proof. unfold escape_html. now rewrite <- !replace_erase. Qed.

(** The converter commutes with the projection to code units. *)
Lemma convert_erase markdown :
  convert id_code id_code (map code markdown)
  = map code (convert code gen markdown).
Proof.
  unfold convert. now rewrite <- later_stages_erase, <- escape_html_erase.
Qed.
End Erasure.

(** * Entities stay whole *)

Section Intact.
Local Abbreviation sw := (starts_with id_code).
Local Abbreviation intact := entities_intact.

Lemma tail_char_cases c :
  tail_char c = true ->
  c = ch "a" \/ c = ch "m" \/ c = ch "p" \/ c = ch ";" \/
  c = ch "l" \/ c = ch "t" \/ c = ch "g".
Proof.
  unfold tail_char. rewrite !orb_true_iff, !N.eqb_eq. tauto.
Qed.

Lemma nontail_of (p : N -> bool) :
  p (ch "a") = false -> p (ch "m") = false -> p (ch "p") = false ->
  p (ch ";") = false -> p (ch "l") = false -> p (ch "t") = false ->
  p (ch "g") = false ->
  forall c, p c = true -> tail_char c = false.
Proof.
  intros H1 H2 H3 H4 H5 H6 H7 c Hc.
  destruct (tail_char c) eqn:E; [|reflexivity].
  apply tail_char_cases in E.
  destruct E as [-> | [-> | [-> | [-> | [-> | [-> | ->]]]]]]; congruence.
Qed.

Lemma is_space_nontail c : is_space c = true -> tail_char c = false.
Proof. apply nontail_of; reflexivity. Qed.

Lemma is_digit_nontail c : is_digit c = true -> tail_char c = false.
Proof. apply nontail_of; reflexivity. Qed.

Lemma line_terminator_nontail c :
  is_line_terminator c = true -> tail_char c = false.
Proof. apply nontail_of; reflexivity. Qed.

Lemma atom_nontail_sound f r p c :
  atom_nontail r = true -> atom_test f r = Some p -> p c = true ->
  tail_char c = false.
Proof.
  destruct r as [|c0| | | |neg items| | | | |]; cbn [atom_nontail atom_test];
    try discriminate; intros Hs Hp; inversion Hp; subst; clear Hp.
  - intros E. apply N.eqb_eq in E. subst.
    now apply negb_true_iff in Hs.
  - apply is_space_nontail.
  - apply is_digit_nontail.
  - destruct neg; [discriminate|]. unfold class_test. cbn [xorb].
    intros E. apply existsb_exists in E. destruct E as (i & Hi & Ei).
    rewrite forallb_forall in Hs. specialize (Hs i Hi).
    destruct i as [d| |]; cbn [item_nontail class_item_test] in *.
    + apply N.eqb_eq in Ei. subst. now apply negb_true_iff in Hs.
    + now apply is_space_nontail.
    + discriminate.
Qed.

(** *** Texts with whole entities *)

Lemma sw_app pat : forall s w, sw pat s = true -> sw pat (s ++ w) = true.
Proof.
  induction pat as [|c pat IH]; intros [|a s] w; cbn [starts_with app];
    try reflexivity; try discriminate.
  intros H. apply andb_true_iff in H. destruct H as [H1 H2].
  now rewrite H1, IH.
Qed.

Lemma entity_tail_app s w :
  entity_tail s = true -> entity_tail (s ++ w) = true.
Proof.
  unfold entity_tail. rewrite !orb_true_iff.
  intros [[H|H]|H]; [left; left | left; right | right]; now apply sw_app.
Qed.

Lemma intact_app u w :
  intact u = true -> intact w = true -> intact (u ++ w) = true.
Proof.
  intros Hu Hw. induction u as [|c u IH]; cbn [app entities_intact] in *;
    [exact Hw|].
  apply andb_true_iff in Hu. destruct Hu as [H1 H2].
  rewrite IH by exact H2. rewrite andb_true_r.
  destruct (c =? ch "&")%N; [now apply entity_tail_app | reflexivity].
Qed.

Lemma intact_suffix u w : intact (u ++ w) = true -> intact w = true.
Proof.
  induction u as [|c u IH]; cbn [app entities_intact]; [auto|].
  intros H. apply andb_true_iff in H. now apply IH.
Qed.

(** A tail that starts in [u] and goes on in [w] needs a tail character
    at the head of [w]. *)
Lemma sw_cut pat : forall u w,
  forallb tail_char pat = true -> safe_after w = true ->
  sw pat (u ++ w) = true -> sw pat u = true.
Proof.
  induction pat as [|c pat IH]; intros u w Hp Hw; cbn [starts_with];
    [reflexivity|].
  cbn [forallb] in Hp. apply andb_true_iff in Hp. destruct Hp as [Hc Hp].
  destruct u as [|a u]; cbn [app].
  - destruct w as [|b w]; [discriminate|].
    intros H. apply andb_true_iff in H. destruct H as [H _].
    apply N.eqb_eq in H. unfold id_code in H. subst b.
    cbn [safe_after] in Hw. now rewrite Hc in Hw.
  - intros H. apply andb_true_iff in H. destruct H as [H1 H2].
    rewrite H1. cbn [andb]. now apply (IH u w).
Qed.

Lemma entity_tail_cut u w :
  safe_after w = true -> entity_tail (u ++ w) = true ->
  entity_tail u = true.
Proof.
  unfold entity_tail. rewrite !orb_true_iff. intros Hw.
  intros [[H|H]|H]; [left; left | left; right | right];
    (eapply sw_cut; [reflexivity | exact Hw | exact H]).
Qed.

Lemma intact_cut u w :
  safe_after w = true -> intact (u ++ w) = true -> intact u = true.
Proof.
  intros Hw. induction u as [|c u IH]; cbn [app entities_intact];
    [reflexivity|].
  intros H. apply andb_true_iff in H. destruct H as [H1 H2].
  rewrite IH by exact H2. rewrite andb_true_r.
  destruct (c =? ch "&")%N; [|reflexivity].
  now apply entity_tail_cut with w.
Qed.

Lemma safe_after_nontail a w : tail_char a = false -> safe_after (a :: w) = true.
Proof. intros H. cbn [safe_after]. now rewrite H. Qed.

(** *** The static check is sound *)

Implicit Types (x y : mstate N) (caps : captures N).

Lemma zero_width_denotes f r x caps y caps' :
  zero_width r = true -> denotes id_code f r x caps y caps' -> y = x.
Proof.
  destruct r; cbn [zero_width denotes]; try discriminate; intros _ H;
    intuition.
Qed.

Lemma atom_nontail_step f r x caps y caps' :
  atom_nontail r = true -> denotes id_code f r x caps y caps' ->
  exists a, rest x = a :: rest y /\ tail_char a = false.
Proof.
  intros Hs H.
  assert (Hp : exists p, atom_test f r = Some p /\
                         step id_code p x caps y caps').
  { destruct r; cbn [atom_nontail] in Hs; try discriminate;
      cbn [denotes atom_test] in *; eauto. }
  destruct Hp as (p & Hp & a & E & _ & Ha & _).
  exists a. split; [exact E|].
  eapply atom_nontail_sound; eassumption.
Qed.

Lemma first_nontail_sound f r : forall x caps y caps',
  first_nontail r = true -> denotes id_code f r x caps y caps' ->
  exists a m, rest x = a :: m ++ rest y /\ tail_char a = false.
Proof.
  assert (Hatom : forall r x caps y caps',
             atom_nontail r = true -> denotes id_code f r x caps y caps' ->
             exists a m, rest x = a :: m ++ rest y /\ tail_char a = false).
  { intros r0 x caps y caps' Hs H.
    destruct (atom_nontail_step _ _ _ _ _ _ Hs H) as (a & E & Ha).
    now exists a, []. }
  induction r as [|c| | | |neg items| | |r1 IH1 r2 IH2|n r1 IH1
                 |min greedy r1 IH1];
    intros x caps y caps' Hs; try (now apply Hatom);
    try discriminate Hs.
  - cbn [first_nontail] in Hs. cbn [denotes].
    intros (z & c & H1 & H2).
    destruct (zero_width r1) eqn:Z.
    + apply (zero_width_denotes _ _ _ _ _ _ Z) in H1. subst z.
      now apply (IH2 _ _ _ _ Hs H2).
    + destruct (IH1 _ _ _ _ Hs H1) as (a & m & E & Ha).
      apply denotes_suffix in H2. destruct H2 as [u E2].
      exists a, (m ++ u). split; [|exact Ha].
      now rewrite E, E2, app_assoc.
  - cbn [first_nontail] in Hs. cbn [denotes].
    intros (c & H1 & _). now apply (IH1 _ _ _ _ Hs H1).
  - cbn [first_nontail] in Hs. apply andb_true_iff in Hs.
    destruct Hs as [Hmin Hs]. apply Nat.ltb_lt in Hmin.
    cbn [denotes]. intros H. inversion H; subst; [lia|].
    match goal with
    | HD : denotes _ _ _ _ _ ?y1 ?c1,
      HR : rep_denotes _ _ _ ?y1 ?c1 _ _ |- _ =>
        destruct (IH1 _ _ _ _ Hs HD) as (a & m & E & Ha);
        change (denotes id_code f (Rep (pred min) greedy r1) y1 c1 y caps')
          in HR;
        apply denotes_suffix in HR; destruct HR as [u E2]
    end.
    exists a, (m ++ u). split; [|exact Ha].
    now rewrite E, E2, app_assoc.
Qed.

Lemma starts_safe_sound f r : forall x caps y caps',
  starts_safe r = true -> denotes id_code f r x caps y caps' ->
  safe_after (rest x) = true.
Proof.
  assert (Hatom : forall r x caps y caps',
             atom_nontail r = true -> denotes id_code f r x caps y caps' ->
             safe_after (rest x) = true).
  { intros r0 x caps y caps' Hs H.
    destruct (atom_nontail_step _ _ _ _ _ _ Hs H) as (a & E & Ha).
    rewrite E. now apply safe_after_nontail. }
  induction r as [|c| | | |neg items| | |r1 IH1 r2 IH2|n r1 IH1
                 |min greedy r1 IH1];
    intros x caps y caps' Hs; try (now apply Hatom);
    try discriminate Hs.
  - cbn [denotes]. intros (E & _). unfold at_eol in E.
    destruct (rest x) as [|a w]; [reflexivity|].
    apply andb_true_iff in E. destruct E as [_ E].
    apply safe_after_nontail. now apply line_terminator_nontail.
  - cbn [starts_safe] in Hs. cbn [denotes].
    intros (z & c & H1 & H2). apply orb_true_iff in Hs.
    destruct Hs as [Hs|Hs].
    + now apply (IH1 _ _ _ _ Hs H1).
    + apply andb_true_iff in Hs. destruct Hs as [Z Hs].
      apply (zero_width_denotes _ _ _ _ _ _ Z) in H1. subst z.
      now apply (IH2 _ _ _ _ Hs H2).
  - cbn [starts_safe] in Hs. cbn [denotes].
    intros (c & H1 & _). now apply (IH1 _ _ _ _ Hs H1).
  - cbn [starts_safe] in Hs. apply andb_true_iff in Hs.
    destruct Hs as [Hmin Hs]. apply Nat.ltb_lt in Hmin.
    cbn [denotes]. intros H. inversion H; subst; [lia|].
    match goal with
    | HD : denotes _ _ _ _ _ _ _ |- _ => now apply (IH1 _ _ _ _ Hs HD)
    end.
Qed.

Lemma caps_intact_clear gs caps :
  caps_intact caps -> caps_intact (clear_captures gs caps).
Proof.
  unfold caps_intact, clear_captures. rewrite !Forall_forall.
  intros H e He. apply filter_In in He. now apply H.
Qed.

Lemma caps_safe_sound f r : forall after x caps y caps',
  caps_safe r after = true ->
  denotes id_code f r x caps y caps' ->
  intact (rest x) = true ->
  (after = true -> safe_after (rest y) = true) ->
  caps_intact caps -> caps_intact caps'.
Proof.
  assert (Hstep : forall p x caps y caps',
             step id_code p x caps y caps' -> caps_intact caps ->
             caps_intact caps').
  { now intros p x caps y caps' (a & _ & _ & _ & ->). }
  induction r as [|c| | | |neg items| | |r1 IH1 r2 IH2|n r1 IH1
                 |min greedy r1 IH1];
    intros after x caps y caps' Hs; cbn [denotes];
    try (intros H _ _; revert H; apply Hstep).
  - now intros [_ ->].
  - now intros (_ & _ & ->).
  - now intros (_ & _ & ->).
  - cbn [caps_safe] in Hs. apply andb_true_iff in Hs.
    destruct Hs as [Hs1 Hs2].
    intros (z & c & H1 & H2) Hx Hy Hc.
    pose proof H1 as E. apply denotes_suffix in E. destruct E as [u E].
    apply (IH2 _ _ _ _ _ Hs2 H2).
    + rewrite E in Hx. now apply intact_suffix in Hx.
    + exact Hy.
    + apply (IH1 _ _ _ _ _ Hs1 H1); [exact Hx| |exact Hc].
      intros S. now apply (starts_safe_sound _ _ _ _ _ _ S H2).
  - cbn [caps_safe] in Hs. apply andb_true_iff in Hs.
    destruct Hs as [Ha Hs]. subst after.
    intros (c & H1 & ->) Hx Hy Hc.
    pose proof H1 as E. apply denotes_suffix in E. destruct E as [u E].
    constructor.
    + cbn [snd]. erewrite consumed_suffix by exact E.
      rewrite E in Hx. apply intact_cut with (rest y); auto.
    + now apply (IH1 _ _ _ _ _ Hs H1).
  - cbn [caps_safe] in Hs. intros H _ _ Hc.
    change (denotes id_code f (Rep min greedy r1) x caps y caps') in H.
    destruct (groups r1) eqn:G; [|discriminate].
    apply denotes_no_groups in H; [now subst | exact G].
Qed.

(** *** One stage *)

Lemma match_at_first re p s s' caps :
  first_nontail (source re) = true ->
  match_at id_code re (MState p s) = Some (s', caps) ->
  exists a m, s = a :: m ++ s' /\ tail_char a = false.
Proof.
  unfold match_at. intros Hs H. apply rmatch_sound in H.
  destruct H as (y & caps' & HD & H). inversion H; subst.
  apply (first_nontail_sound _ _ _ _ _ _ Hs HD).
Qed.

Lemma match_at_caps_intact re p s s' caps :
  caps_safe (source re) false = true ->
  match_at id_code re (MState p s) = Some (s', caps) ->
  intact s = true -> caps_intact caps.
Proof.
  unfold match_at. intros Hs H Hi. apply rmatch_sound in H.
  destruct H as (y & caps' & HD & H). inversion H; subst.
  eapply caps_safe_sound;
    [exact Hs | exact HD | exact Hi | discriminate | constructor].
Qed.

Lemma get_capture_intact n caps v :
  caps_intact caps -> get_capture n caps = Some v -> intact v = true.
Proof.
  unfold get_capture, caps_intact. intros Hc.
  destruct (find (fun e => Nat.eqb (fst e) n) caps) as [e|] eqn:E;
    [|discriminate].
  intros H; inversion H; subst. apply find_some in E.
  rewrite Forall_forall in Hc. now apply Hc.
Qed.

Lemma subst_intact tm caps :
  safe_template tm = true -> caps_intact caps ->
  intact (subst id_code tm caps) = true.
Proof.
  intros Ht Hc. unfold subst, safe_template in *.
  induction tm as [|t tm IH]; cbn [flat_map forallb] in *; [reflexivity|].
  apply andb_true_iff in Ht. destruct Ht as [Ht1 Ht2].
  apply intact_app; [|now apply IH].
  destruct t as [l|n]; cbn [subst_item].
  - now rewrite map_id_code.
  - destruct (get_capture n caps) as [v|] eqn:E; [|reflexivity].
    eapply get_capture_intact; eassumption.
Qed.

Section Stage.
Variable re : regexp.
Variable tm : list titem.
Hypothesis re_safe : safe_regex re = true.
Hypothesis tm_safe : safe_template tm = true.

Lemma stage_first_nontail : first_nontail (source re) = true.
Proof. unfold safe_regex in re_safe. now apply andb_true_iff in re_safe. Qed.

Lemma stage_caps_safe : caps_safe (source re) false = true.
Proof. unfold safe_regex in re_safe. now apply andb_true_iff in re_safe. Qed.

(** No match starts inside an entity, so the characters after a [&]
    are copied. *)
Lemma replace_all_keeps_tail : forall T s p,
  forallb tail_char T = true -> sw T s = true ->
  sw T (replace_all id_code id_code re tm p s 0) = true.
Proof.
  induction T as [|c T IH]; intros s p HT Hs; [reflexivity|].
  cbn [forallb] in HT. apply andb_true_iff in HT.
  destruct HT as [Hc HT].
  destruct s as [|a s]; [discriminate|]. cbn [starts_with] in Hs.
  apply andb_true_iff in Hs. destruct Hs as [E Hs].
  apply N.eqb_eq in E. unfold id_code in E. subst a.
  destruct (match_at id_code re (MState p (c :: s))) as [[s' caps]|]
    eqn:M.
  - apply (match_at_first _ _ _ stage_first_nontail) in M.
    destruct M as (a & m & E & Ha). inversion E; subst. congruence.
  - rewrite replace_all_miss by exact M. cbn [starts_with].
    unfold id_code at 1. rewrite N.eqb_refl. now apply IH.
Qed.

Lemma replace_all_keeps_entity_tail s p :
  entity_tail s = true ->
  entity_tail (replace_all id_code id_code re tm p s 0) = true.
Proof.
  unfold entity_tail. rewrite !orb_true_iff.
  intros [[H|H]|H]; [left; left | left; right | right];
    now apply replace_all_keeps_tail.
Qed.

Lemma replace_all_intact_bounded : forall n s p,
  length s <= n -> intact s = true ->
  intact (replace_all id_code id_code re tm p s 0) = true.
Proof.
  induction n as [|n IH]; intros s p Hn Hs.
  - destruct s; [|simpl in Hn; lia]. cbn [replace_all].
    destruct (match_at id_code re (MState p [])) as [[s' caps]|] eqn:M;
      [|reflexivity].
    apply (match_at_first _ _ _ stage_first_nontail) in M.
    now destruct M as (a & m & E & _).
  - destruct (match_at id_code re (MState p s)) as [[s' caps]|] eqn:M.
    + pose proof (match_at_caps_intact _ _ _ stage_caps_safe M Hs) as Hc.
      pose proof (match_at_first _ _ _ stage_first_nontail M) as (a & m & E & _).
      subst s. change (a :: m ++ s') with ((a :: m) ++ s') in *.
      rewrite (@replace_all_hit re tm p (a :: m) s' caps);
        [|discriminate|exact M].
      apply intact_app; [now apply subst_intact|].
      apply IH.
      * rewrite length_app in Hn. simpl in Hn. lia.
      * now apply intact_suffix in Hs.
    + destruct s as [|a s].
      * cbn [replace_all]. now rewrite M.
      * rewrite replace_all_miss by exact M.
        cbn [entities_intact] in Hs |- *.
        apply andb_true_iff in Hs. destruct Hs as [H1 H2].
        rewrite IH by (simpl in Hn; lia || exact H2).
        rewrite andb_true_r.
        destruct (a =? ch "&")%N; [|reflexivity].
        now apply replace_all_keeps_entity_tail.
Qed.

Lemma replace_all_intact s :
  global re = true -> intact s = true ->
  intact (replace id_code id_code re tm s) = true.
Proof.
  intros G Hs. unfold replace. rewrite G.
  eapply replace_all_intact_bounded; [apply Nat.le_refl | exact Hs].
Qed.
End Stage.

(** *** The stages that are not a global replace *)

Lemma ul_wrap_intact t :
  intact t = true -> intact (ul_wrap id_code id_code t) = true.
Proof.
  intros Ht. unfold ul_wrap, replace. cbn [global re_ul_wrap re_s].
  rewrite ul_wrap_step.
  destruct (find_sub id_code (str "<li>") t) as [[pre w]|] eqn:F;
    [|exact Ht].
  destruct (find_last_sub id_code (str "</li>") w) as [[mid post]|] eqn:L;
    [|exact Ht].
  apply find_sub_split in F. apply find_last_sub_split in L. subst t w.
  assert (Hpre : intact pre = true).
  { now apply intact_cut in Ht. }
  apply intact_suffix in Ht. change (str "<li>" ++ mid ++ str "</li>" ++ post)
    with (str "<li>" ++ (mid ++ str "</li>" ++ post)) in Ht.
  apply intact_suffix in Ht.
  assert (Hmid : intact mid = true).
  { now apply intact_cut in Ht. }
  apply intact_suffix in Ht. apply intact_suffix in Ht.
  repeat (apply intact_app; try assumption; try reflexivity).
Qed.

Lemma split_go_intact_bounded : forall n s cur,
  length s <= n -> intact (rev cur ++ s) = true ->
  Forall (fun seg => intact seg = true)
    (split_go id_code [newline; newline] cur s 0).
Proof.
  induction n as [|n IH]; intros s cur Hn Hs.
  - destruct s; [|simpl in Hn; lia]. cbn [split_go].
    rewrite app_nil_r in Hs. now repeat constructor.
  - destruct s as [|a s]; cbn [split_go].
    { rewrite app_nil_r in Hs. now repeat constructor. }
    destruct (sw [newline; newline] (a :: s)) eqn:E.
    + apply starts_with_split in E. cbn [length skipn app] in E.
      destruct s as [|b s]; [discriminate|]. inversion E; subst a b.
      cbn [skipn length Nat.pred split_go] in *.
      constructor.
      * now apply intact_cut in Hs.
      * apply IH; [simpl in Hn; lia|]. cbn [rev app].
        apply intact_suffix in Hs.
        change (newline :: newline :: s) with ([newline; newline] ++ s)
          in Hs.
        now apply intact_suffix in Hs.
    + apply IH; [simpl in Hn; lia|]. cbn [rev].
      now rewrite <- app_assoc.
Qed.

Lemma join_intact sep l :
  intact sep = true -> Forall (fun seg => intact seg = true) l ->
  intact (join id_code sep l) = true.
Proof.
  intros Hsep. induction 1 as [|x l Hx Hl IH]; cbn [join]; [reflexivity|].
  destruct l as [|x' l]; [exact Hx|].
  rewrite map_id_code. repeat (apply intact_app; try assumption).
Qed.

Lemma wrap_para_intact para :
  intact para = true -> intact (wrap_para id_code id_code para) = true.
Proof.
  intros H. unfold wrap_para.
  destruct (negb (matches id_code re_block_start para)); [|exact H].
  repeat (apply intact_app; try assumption; try reflexivity).
Qed.

Lemma paragraphs_intact html :
  intact html = true -> intact (paragraphs id_code id_code html) = true.
Proof.
  intros H. unfold paragraphs. apply join_intact; [reflexivity|].
  apply Forall_forall. intros x Hx. apply in_map_iff in Hx.
  destruct Hx as (seg & <- & Hseg). apply wrap_para_intact.
  assert (F : Forall (fun seg => intact seg = true)
                (split id_code [newline; newline] html)).
  { cbn [split]. eapply split_go_intact_bounded;
      [apply Nat.le_refl | exact H]. }
  rewrite Forall_forall in F. now apply F.
Qed.

(** The stages after the escape stage keep every entity whole. *)
Lemma later_stages_intact html :
  intact html = true -> intact (later_stages id_code id_code html) = true.
Proof.
  intros H. unfold later_stages. apply paragraphs_intact.
  unfold ordered_lists, unordered_lists, ul_items, blockquotes,
    horizontal_rules, images, links, inline_code, code_blocks, italic,
    bold, headers.
  apply replace_all_intact; try reflexivity.
  apply ul_wrap_intact.
  repeat (apply replace_all_intact; try reflexivity).
  exact H.
Qed.
End Intact.

(** * The escape stage *)

Section EscapeGeneric.
Variable A : Type.
Variable code : A -> N.
Variable gen : N -> A.

(** A global replace of one character by a literal is a character-wise
    substitution. *)
Lemma replace_all_chr c g f l : forall s p,
  replace_all code gen (RegExp (Chr c) g f) [TLit l] p s 0
  = flat_map (fun a => if (c =? code a)%N then map gen l else [a]) s.
Proof.
  induction s as [|a s IH]; intros p; cbn [replace_all flat_map];
    unfold match_at; cbn [source reflags rmatch]; unfold eat;
    cbn [rest].
  - reflexivity.
  - destruct (c =? code a)%N.
    + replace (length (a :: s) - length s) with 1
        by (cbn [length]; lia).
      cbn [Nat.eqb Nat.pred subst flat_map subst_item].
      rewrite !app_nil_r. f_equal. apply IH.
    + cbn [app]. f_equal. apply IH.
Qed.

Lemma escape_html_flat_maps s :
  escape_html code gen s
  = flat_map (fun a => if (ch ">" =? code a)%N
                       then map gen (str "&gt;") else [a])
      (flat_map (fun a => if (ch "<" =? code a)%N
                          then map gen (str "&lt;") else [a])
         (flat_map (fun a => if (ch "&" =? code a)%N
                             then map gen (str "&amp;") else [a]) s)).
Proof.
  unfold escape_html, replace, re_gt, re_lt, re_amp, re_g. cbn [global].
  now rewrite !replace_all_chr.
Qed.
End EscapeGeneric.

(** On plain strings the three replaces amount to one pass. *)
Lemma escape_html_one_pass (s : list N) :
  escape_html id_code id_code s = flat_map escape_char s.
Proof.
  rewrite escape_html_flat_maps.
  induction s as [|c s IH]; [reflexivity|].
  cbn [flat_map]. rewrite !flat_map_app, IH. f_equal.
  unfold escape_char, id_code.
  rewrite (N.eqb_sym c (ch "&")), (N.eqb_sym c (ch "<")),
    (N.eqb_sym c (ch ">")).
  destruct (ch "&" =? c)%N; [reflexivity|].
  cbn [flat_map app].
  destruct (ch "<" =? c)%N; [reflexivity|].
  cbn [flat_map app].
  destruct (ch ">" =? c)%N; reflexivity.
Qed.

Lemma escape_char_intact c s :
  entities_intact s = true -> entities_intact (escape_char c ++ s) = true.
Proof.
  intros H. unfold escape_char.
  destruct (c =? ch "&")%N eqn:E1; [now cbn; rewrite H|].
  destruct (c =? ch "<")%N eqn:E2; [now cbn; rewrite H|].
  destruct (c =? ch ">")%N eqn:E3; [now cbn; rewrite H|].
  cbn [app entities_intact]. now rewrite E1, H.
Qed.

Lemma escape_html_intact (s : list N) :
  entities_intact (escape_html id_code id_code s) = true.
Proof.
  rewrite escape_html_one_pass.
  induction s as [|c s IH]; [reflexivity|].
  cbn [flat_map]. now apply escape_char_intact.
Qed.

(** In the traced converter no special character of the note survives the
    escape stage. *)
Lemma escape_step_traced c l (P : tchar -> Prop) :
  (forall x, P (tgen x)) ->
  forall s, Forall P s ->
    Forall (fun a => P a /\ (snd a = FromNote -> fst a <> c))
      (flat_map (fun a => if (c =? tcode a)%N then map tgen l else [a]) s).
Proof.
  intros Hgen. induction 1 as [|a s Ha Hs IH]; cbn [flat_map];
    [constructor|].
  apply Forall_app. split; [|exact IH].
  destruct (c =? tcode a)%N eqn:E.
  - apply Forall_forall. intros b Hb. apply in_map_iff in Hb.
    destruct Hb as (x & <- & _). split; [apply Hgen | discriminate].
  - constructor; [|constructor]. split; [exact Ha|].
    intros _ H. unfold tcode in E. rewrite H, N.eqb_refl in E.
    discriminate.
Qed.

Lemma escape_html_traced (t : list tchar) :
  Forall not_raw_special (escape_html tcode tgen t).
Proof.
  rewrite escape_html_flat_maps.
  assert (H0 : Forall (fun _ : tchar => True) t)
    by (apply Forall_forall; auto).
  apply (@escape_step_traced (ch "&") (str "&amp;") (fun _ => True)
           (fun _ => I)) in H0.
  apply (@escape_step_traced (ch "<") (str "&lt;")) in H0;
    [|intros x; split; [exact I | discriminate]].
  apply (@escape_step_traced (ch ">") (str "&gt;")) in H0;
    [|intros x; repeat split; discriminate].
  eapply Forall_impl; [|exact H0].
  intros a [[[_ H1] H2] H3] Ha. unfold is_special.
  specialize (H1 Ha). specialize (H2 Ha). specialize (H3 Ha).
  apply N.eqb_neq in H1, H2, H3. now rewrite H1, H2, H3.
Qed.

Lemma not_raw_special_gen c : not_raw_special (tgen c).
Proof. discriminate. Qed.

Lemma map_tcode_mark s : map tcode (mark s) = s.
Proof.
  unfold mark. rewrite map_map. apply map_id.
Qed.

(** * The editor *)

(** ** The preview *)

Lemma split_go_cons (sep : list N) : forall (s cur : list N) skip,
  exists x l, split_go id_code sep cur s skip = x :: l.
Proof.
  induction s as [|a s IH]; intros cur skip; cbn [split_go].
  - eauto.
  - destruct skip as [|n]; [|apply IH].
    destruct (starts_with id_code sep (a :: s)); [eauto | apply IH].
Qed.

Lemma wrap_para_cons (para : list N) :
  exists c tl, wrap_para id_code id_code para = c :: tl.
Proof.
  unfold wrap_para. rewrite wrap_test.
  destruct (starts_block para) eqn:E; cbn [negb].
  - destruct para as [|a para]; [discriminate | eauto].
  - rewrite map_id_code. cbn. eauto.
Qed.

Lemma paragraphs_cons (html : list N) :
  exists c tl, paragraphs id_code id_code html = c :: tl.
Proof.
  unfold paragraphs. cbn [split].
  destruct (split_go_cons [newline; newline] html [] 0) as (x & l & E).
  rewrite E. cbn [map join].
  destruct (wrap_para_cons x) as (c & tl & Ex). rewrite Ex.
  destruct (map (wrap_para id_code id_code) l); cbn [app]; eauto.
Qed.

(** The converter never returns the empty string. *)
Lemma convert_cons (s : list N) :
  exists c tl, convert id_code id_code s = c :: tl.
Proof. unfold convert, later_stages. apply paragraphs_cons. Qed.

(** ** The line of a note *)

Lemma split_go_first_line : forall (s cur : list N),
  exists l, split_go id_code [newline] cur s 0
            = (rev cur ++ first_line s) :: l.
Proof.
  induction s as [|a s IH]; intros cur; cbn [split_go first_line].
  - exists []. now rewrite app_nil_r.
  - cbn [starts_with]. unfold id_code at 1.
    rewrite andb_true_r, (N.eqb_sym newline a).
    destruct (a =? newline)%N.
    + eexists. now rewrite app_nil_r.
    + destruct (IH (a :: cur)) as [l E]. exists l. rewrite E.
      cbn [rev]. now rewrite <- app_assoc.
Qed.

Lemma substring_prefix (s : list N) (n : nat) :
  substring s 0 (Z.of_nat n) = firstn n s.
Proof.
  unfold substring, clamp. rewrite Nat2Z.id. cbn [Z.to_nat].
  rewrite Nat.min_0_l, Nat.max_0_l, Nat.sub_0_r. cbn [skipn].
  destruct (Nat.le_ge_cases n (length s)) as [H|H].
  - now rewrite Nat.min_l.
  - rewrite Nat.min_r by exact H.
    rewrite (firstn_all2 (n:=n)) by exact H.
    apply firstn_all.
Qed.

Lemma first_line_no_newline (s : list N) :
  Forall (fun c => c <> newline) (first_line s).
Proof.
  induction s as [|a s IH]; cbn [first_line]; [constructor|].
  destruct (a =? newline)%N eqn:E; [constructor|].
  apply N.eqb_neq in E. now constructor.
Qed.

Lemma first_line_prefix (s : list N) :
  exists tl, s = first_line s ++ tl.
Proof.
  induction s as [|a s [tl IH]]; cbn [first_line]; [now exists []|].
  destruct (a =? newline)%N; [now exists (a :: s)|].
  exists tl. cbn [app]. now f_equal.
Qed.

Lemma note_preview_eq (content : list N) :
  note_preview content
  = Normal (or_else (firstn 50 (first_line content)) (str "Empty note")).
Proof.
  unfold note_preview. cbn [split].
  destruct (split_go_first_line content []) as [l E]. rewrite E.
  cbn [rev app]. now rewrite (substring_prefix _ 50).
Qed.

(** ** The word count *)

Lemma drop_space_split (s : list N) :
  exists u, s = u ++ drop_space s /\ forallb is_space u = true.
Proof.
  induction s as [|a s (u & E & Hu)]; cbn [drop_space]; [now exists []|].
  destruct (is_space a) eqn:Ha.
  - exists (a :: u). cbn [app forallb]. rewrite Ha, Hu. split; [|reflexivity].
    now f_equal.
  - now exists [].
Qed.

Lemma count_runs_drop_space (s : list N) :
  count_runs false (drop_space s) = count_runs false s.
Proof.
  induction s as [|a s IH]; cbn [drop_space]; [reflexivity|].
  cbn [count_runs]. destruct (is_space a) eqn:Ha; [exact IH|].
  cbn [count_runs]. now rewrite Ha.
Qed.

Lemma count_runs_trailing b (s u : list N) :
  forallb is_space u = true -> count_runs b (s ++ u) = count_runs b s.
Proof.
  intros H. revert b. induction s as [|a s IH]; intros b; cbn [app].
  - cbn [count_runs]. revert b.
    induction u as [|c u IHu]; intros b; [reflexivity|].
    cbn [forallb] in H. apply andb_true_iff in H. destruct H as [Hc H].
    cbn [count_runs]. rewrite Hc. now apply IHu.
  - cbn [count_runs]. destruct (is_space a); now rewrite IH.
Qed.

Lemma count_runs_trim (s : list N) :
  count_runs false (trim s) = count_runs false s.
Proof.
  unfold trim. rewrite <- (count_runs_drop_space s).
  destruct (drop_space_split (rev (drop_space s))) as (u & E & Hu).
  apply (f_equal (@rev N)) in E. rewrite rev_involutive, rev_app_distr in E.
  rewrite E at 2. symmetry. apply count_runs_trailing.
  rewrite forallb_forall in *. intros c Hc. apply Hu. now apply in_rev.
Qed.

Lemma star_greedy_spaces : forall (s : list N) pv caps,
  star_greedy id_code is_space (fun y c => Some (rest y, c)) pv s caps
  = Some (drop_space s, caps).
Proof.
  induction s as [|a s IH]; intros pv caps; cbn [star_greedy drop_space].
  - reflexivity.
  - unfold id_code at 1. destruct (is_space a); [|reflexivity].
    now rewrite IH.
Qed.

Lemma match_at_spaces p (s : list N) :
  match_at id_code re_spaces (MState p s)
  = match s with
    | [] => None
    | a :: s' => if is_space a then Some (drop_space s', []) else None
    end.
Proof.
  unfold match_at, re_spaces, re_plain, Plus. cbn [source reflags].
  rewrite (@rmatch_plus N id_code _ Space is_space true p s [] _ eq_refl).
  destruct s as [|a s]; [reflexivity|]. unfold id_code at 1.
  destruct (is_space a); [|reflexivity].
  cbn [star_ref]. apply star_greedy_spaces.
Qed.

Lemma split_re_go_skip re : forall k (s : list N) p cur,
  k <= length s ->
  split_re_go re p cur s k
  = split_re_go re (last_prev p (firstn k s)) cur (skipn k s) 0.
Proof.
  induction k as [|k IH]; intros s p cur Hk.
  - reflexivity.
  - destruct s as [|a s]; [simpl in Hk; lia|].
    cbn [split_re_go firstn skipn]. rewrite last_prev_cons.
    apply IH. simpl in Hk. lia.
Qed.

Lemma kept_cons (x : list N) l :
  kept (x :: l) = (if is_empty x then 0 else 1) + kept l.
Proof. unfold kept. cbn [filter]. destruct x; reflexivity. Qed.

Lemma is_empty_rev (x : list N) : is_empty (rev x) = is_empty x.
Proof.
  destruct x as [|a x]; [reflexivity|]. cbn [rev is_empty].
  destruct (rev x); reflexivity.
Qed.

Lemma split_spaces_kept : forall n (s : list N) p cur,
  length s <= n ->
  kept (split_re_go re_spaces p cur s 0)
  = count_runs (negb (is_empty cur)) s + (if is_empty cur then 0 else 1).
Proof.
  induction n as [|n IH]; intros s p cur Hn.
  - destruct s; [|simpl in Hn; lia]. cbn [split_re_go count_runs].
    rewrite kept_cons, is_empty_rev. unfold kept. cbn. lia.
  - destruct s as [|a s].
    { cbn [split_re_go count_runs].
      rewrite kept_cons, is_empty_rev. unfold kept. cbn. lia. }
    cbn [split_re_go]. rewrite match_at_spaces. cbn [count_runs].
    destruct (is_space a) eqn:Ha.
    + destruct (drop_space_split s) as (u & E & Hu).
      assert (L : length (a :: s) - length (drop_space s) = S (length u)).
      { rewrite E at 1. cbn [length]. rewrite length_app. lia. }
      rewrite L. cbn [Nat.eqb Nat.pred].
      rewrite kept_cons, is_empty_rev.
      rewrite split_re_go_skip
        by (rewrite E, length_app; lia).
      replace (skipn (length u) s) with (drop_space s)
        by (rewrite E at 2; now rewrite skipn_length_app).
      rewrite IH
        by (apply (f_equal (@length N)) in E; rewrite length_app in E;
            simpl in Hn; lia).
      cbn [is_empty negb]. rewrite count_runs_drop_space. lia.
    + rewrite IH by (simpl in Hn; lia). cbn [is_empty negb].
      destruct cur; cbn [is_empty negb]; lia.
Qed.

Lemma word_count_runs (text : list N) :
  word_count text = count_runs false text.
Proof.
  rewrite <- count_runs_trim. unfold word_count. fold (kept (split_re re_spaces (trim text))).
  destruct (trim text) as [|a t] eqn:E.
  - reflexivity.
  - cbn [split_re].
    rewrite (@split_spaces_kept (length (a :: t))) by apply Nat.le_refl.
    cbn [is_empty negb]. lia.
Qed.

Lemma count_runs_zero (s : list N) :
  count_runs false s = 0 <-> forallb is_space s = true.
Proof.
  induction s as [|a s IH]; cbn [count_runs forallb]; [tauto|].
  destruct (is_space a); cbn [andb]; [exact IH|].
  split; [lia | discriminate].
Qed.

Lemma count_runs_le b (s : list N) : count_runs b s <= length s.
Proof.
  revert b. induction s as [|a s IH]; intros b; cbn [count_runs length];
    [lia|].
  destruct (is_space a).
  - specialize (IH false). lia.
  - specialize (IH true). destruct b; lia.
Qed.

(** ** Inserting markup *)

Lemma substring_range (s : list N) (i j : nat) :
  i <= j -> j <= length s ->
  substring s (Z.of_nat i) (Z.of_nat j) = firstn (j - i) (skipn i s).
Proof.
  intros Hij Hj. unfold substring, clamp. rewrite !Nat2Z.id.
  rewrite (Nat.min_l i) by lia. rewrite (Nat.min_l j) by lia.
  now rewrite Nat.max_r, Nat.min_l by lia.
Qed.

Lemma substring_tail (s : list N) (j : nat) :
  j <= length s ->
  substring s (Z.of_nat j) (Z.of_nat (length s)) = skipn j s.
Proof.
  intros H. rewrite substring_range by lia.
  apply firstn_all2. rewrite length_skipn. lia.
Qed.

(** A replacement text without dollars is taken as it is. *)
Lemma get_substitution_plain m b a (t : list N) :
  Forall (fun c => c <> ch "$") t -> get_substitution m b a t = t.
Proof.
  induction 1 as [|c t Hc Ht IH]; cbn [get_substitution]; [reflexivity|].
  apply N.eqb_neq in Hc. rewrite Hc. now f_equal.
Qed.

Lemma get_substitution_app m b a (u t : list N) :
  Forall (fun c => c <> ch "$") u ->
  get_substitution m b a (u ++ t) = u ++ get_substitution m b a t.
Proof.
  induction 1 as [|c u Hc Hu IH]; cbn [get_substitution app]; [reflexivity|].
  apply N.eqb_neq in Hc. rewrite Hc. now f_equal.
Qed.

Lemma or_else_no_dollar (sel : list N) :
  Forall (fun c => c <> ch "$") sel ->
  Forall (fun c => c <> ch "$") (or_else sel (str "text")).
Proof.
  intros H. destruct sel; [|exact H].
  cbn. repeat constructor; discriminate.
Qed.

(** ** File names *)

Lemma code_eqb_eq (a b : list N) : code_eqb a b = true <-> a = b.
Proof.
  revert b. induction a as [|x a IH]; intros [|y b]; cbn [code_eqb];
    try (split; [discriminate | discriminate]); [tauto|].
  rewrite andb_true_iff, N.eqb_eq, IH. split.
  - now intros [-> ->].
  - intros E. now inversion E.
Qed.

Lemma code_eqb_refl (a : list N) : code_eqb a a = true.
Proof. now apply code_eqb_eq. Qed.

Lemma ends_with_app (base ext : list N) : ends_with ext (base ++ ext) = true.
Proof.
  unfold ends_with. rewrite length_app.
  replace (length base + length ext - length ext) with (length base) by lia.
  rewrite skipn_length_app, code_eqb_refl.
  rewrite andb_true_r. apply Nat.leb_le. lia.
Qed.

Lemma ends_with_split (ext s : list N) :
  ends_with ext s = true -> exists base, s = base ++ ext.
Proof.
  unfold ends_with. intros H. apply andb_true_iff in H. destruct H as [_ H].
  apply code_eqb_eq in H. exists (firstn (length s - length ext) s).
  rewrite <- H at 2. symmetry. apply firstn_skipn.
Qed.

Lemma extension_branch (pat : list N) pv pv' (s : list N) :
  match strip id_code pat pv s with
  | Some y =>
      if at_eol id_code (Flags false false) y
      then Some (rest y, set_capture 1 (consumed (MState pv' s) y) [])
      else None
  | None => None
  end
  = if code_eqb s pat then Some ([], [(1, pat)]) else None.
Proof.
  generalize (strip_sw pat pv s).
  destruct (strip id_code pat pv s) as [[pv1 w]|]; cbn [rest].
  - intros [E Hw]. apply starts_with_split in E. rewrite <- Hw in E.
    unfold at_eol, consumed, set_capture; cbn [rest multiline andb].
    destruct w as [|c w].
    + rewrite app_nil_r in E. subst s. rewrite code_eqb_refl.
      cbn [length]. now rewrite Nat.sub_0_r, firstn_all.
    + destruct (code_eqb s pat) eqn:C; [|reflexivity].
      apply code_eqb_eq in C. rewrite C in E at 1.
      apply (f_equal (@length N)) in E. rewrite length_app in E.
      simpl in E. lia.
  - intros E. destruct (code_eqb s pat) eqn:C; [|reflexivity].
    apply code_eqb_eq in C. subst s.
    rewrite <- (app_nil_r pat) in E at 2.
    now rewrite starts_with_app in E.
Qed.

Lemma pmatch_at_extension p (s : list N) :
  pmatch_at (Flags false false) pat_extension (MState p s)
  = if code_eqb s (str ".md") then Some ([], [(1, str "md")])
    else if code_eqb s (str ".txt") then Some ([], [(1, str "txt")])
    else None.
Proof.
  unfold pmatch_at, pat_extension. cbn [pmatch].
  cbn [rmatch]. unfold eat at 1. cbn [rest].
  destruct s as [|a s]; [reflexivity|]. unfold id_code at 1.
  rewrite !rmatch_Lit.
  rewrite !(extension_branch _ (Some a) (Some a) s).
  change (str ".md") with (ch "." :: str "md").
  change (str ".txt") with (ch "." :: str "txt").
  cbn [code_eqb]. rewrite (N.eqb_sym a (ch ".")).
  destruct (ch "." =? a)%N; cbn [andb]; [|reflexivity].
  destruct (code_eqb s (str "md")); reflexivity.
Qed.

Lemma import_title_strip (ext : list N) :
  ext = str ".md" \/ ext = str ".txt" ->
  forall base p,
    preplace_first (Flags false false) pat_extension [] p (base ++ ext)
    = base.
Proof.
  intros Hext. induction base as [|a base IH]; intros p.
  - cbn [app]. destruct Hext as [-> | ->]; reflexivity.
  - cbn [app preplace_first]. rewrite pmatch_at_extension.
    assert (E1 : code_eqb (a :: base ++ ext) (str ".md") = false).
    { destruct (code_eqb (a :: base ++ ext) (str ".md")) eqn:C;
        [|reflexivity].
      apply code_eqb_eq in C. apply (f_equal (@length N)) in C.
      cbn [length] in C. rewrite length_app in C.
      destruct Hext as [-> | ->]; simpl in C; lia. }
    assert (E2 : code_eqb (a :: base ++ ext) (str ".txt") = false).
    { destruct (code_eqb (a :: base ++ ext) (str ".txt")) eqn:C;
        [|reflexivity].
      apply code_eqb_eq in C.
      destruct Hext as [-> | ->].
      - change (str ".md") with [46; 109; 100]%N in C.
        change (str ".txt") with [46; 116; 120; 116]%N in C.
        destruct base as [|b base]; cbn [app] in C; [inversion C|].
        apply (f_equal (@length N)) in C. cbn [length] in C.
        rewrite length_app in C. simpl in C. lia.
      - apply (f_equal (@length N)) in C.
        cbn [length] in C. rewrite length_app in C. simpl in C. lia. }
    rewrite E1, E2. f_equal. apply IH.
Qed.


(** * Lines without markup *)

Section Where.
Variable g : N -> bool.

Lemma is_digit_digits a : is_digit a = true -> In a digits.
Proof.
  unfold is_digit, digits. intros H. apply andb_true_iff in H.
  destruct H as [H1 H2]. apply N.leb_le in H1, H2.
  apply in_map_iff. exists (N.to_nat a). split; [apply N2Nat.id|].
  apply in_seq. lia.
Qed.

Lemma step_atom_in f r (x : mstate N) caps y caps' :
  atom_in g r = true -> forall p, atom_test f r = Some p ->
  step id_code p x caps y caps' ->
  exists a, rest x = a :: rest y /\ g a = true.
Proof.
  intros Hg p Ha (a & E & _ & Hp & _). exists a. split; [exact E|].
  unfold id_code in Hp.
  destruct r; cbn [atom_test] in Ha; inversion Ha; subst; clear Ha;
    cbn [atom_in] in Hg; try discriminate.
  - apply N.eqb_eq in Hp. now subst.
  - apply is_digit_digits in Hp.
    rewrite forallb_forall in Hg. now apply Hg.
  - destruct negated; [discriminate|].
    unfold class_test in Hp. cbn [xorb] in Hp.
    apply existsb_exists in Hp. destruct Hp as (i & Hi & Ht).
    rewrite forallb_forall in Hg. specialize (Hg i Hi).
    destruct i; cbn [item_in] in Hg; try discriminate.
    cbn [class_item_test] in Ht. apply N.eqb_eq in Ht. now subst.
Qed.

Lemma denotes_first f r : forall (x : mstate N) caps y caps',
  first_in g r = true ->
  denotes id_code f r x caps y caps' ->
  exists a w, rest x = a :: w /\ g a = true.
Proof.
  induction r as [|c| | | |neg items| | |r1 IH1 r2 IH2|n r1 IH1
                 |min greedy r1 IH1];
    intros x caps y caps' Hf HD; cbn [first_in] in Hf; try discriminate;
    try (destruct (@step_atom_in f _ x caps y caps' Hf _ eq_refl HD) as (a & E & G);
         now exists a, (rest y)).
  - cbn [denotes] in HD. destruct HD as (z & c & H1 & H2).
    destruct (zero_width r1) eqn:Z.
    + assert (z = x).
      { destruct r1; try discriminate; cbn [denotes] in H1; tauto. }
      subst z. eapply IH2; eassumption.
    + eapply IH1; eassumption.
  - cbn [denotes] in HD. destruct HD as (c & H1 & _).
    eapply IH1; eassumption.
  - apply andb_true_iff in Hf. destruct Hf as [Hm Hf].
    cbn [denotes] in HD. inversion HD; subst.
    + discriminate.
    + eapply IH1; eassumption.
Qed.

Lemma denotes_eats f r : forall (x : mstate N) caps y caps',
  eats g r = true ->
  denotes id_code f r x caps y caps' ->
  exists u, rest x = u ++ rest y /\ existsb g u = true.
Proof.
  induction r as [|c| | | |neg items| | |r1 IH1 r2 IH2|n r1 IH1
                 |min greedy r1 IH1];
    intros x caps y caps' Hf HD; cbn [eats] in Hf; try discriminate;
    try (destruct (@step_atom_in f _ x caps y caps' Hf _ eq_refl HD) as (a & E & G);
         exists [a]; cbn [existsb app]; now rewrite G).
  - cbn [denotes] in HD. destruct HD as (z & c & H1 & H2).
    destruct (@denotes_suffix _ id_code f r1 _ _ _ _ H1) as [u1 E1].
    destruct (@denotes_suffix _ id_code f r2 _ _ _ _ H2) as [u2 E2].
    exists (u1 ++ u2). split; [rewrite E1, E2; apply app_assoc|].
    rewrite existsb_app. apply orb_true_iff in Hf.
    destruct Hf as [Hf|Hf].
    + destruct (IH1 _ _ _ _ Hf H1) as (u & E & G).
      rewrite E1 in E. apply app_inv_tail in E. subst u.
      now rewrite G.
    + destruct (IH2 _ _ _ _ Hf H2) as (u & E & G).
      rewrite E2 in E. apply app_inv_tail in E. subst u.
      rewrite G. apply orb_true_r.
  - cbn [denotes] in HD. destruct HD as (c & H1 & _).
    eapply IH1; eassumption.
  - apply andb_true_iff in Hf. destruct Hf as [Hm Hf].
    cbn [denotes] in HD. inversion HD; subst.
    + discriminate.
    + match goal with
      | H1 : denotes _ _ r1 _ _ _ _, H2 : rep_denotes _ _ _ _ _ _ _ |- _ =>
          destruct (IH1 _ _ _ _ Hf H1) as (u1 & E1 & G1);
          destruct (@denotes_suffix _ id_code f (Rep (pred min) greedy r1)
                      _ _ _ _ H2) as [u2 E2]
      end.
      exists (u1 ++ u2). split; [rewrite E1, E2; apply app_assoc|].
      rewrite existsb_app, G1. reflexivity.
Qed.
End Where.

Section Quiet.
Variable g : N -> bool.
Variables (re : regexp) (tm : list titem).

Local Abbreviation rall := (replace_all id_code id_code re tm).

Lemma lacks_cons a s : lacks g (a :: s) = negb (g a) && lacks g s.
Proof. reflexivity. Qed.

Lemma lacks_app u v : lacks g (u ++ v) = lacks g u && lacks g v.
Proof. apply forallb_app. Qed.

Lemma lacks_existsb s : lacks g s = negb (existsb g s).
Proof.
  induction s as [|a s IH]; [reflexivity|].
  cbn [existsb]. rewrite lacks_cons, IH. now destruct (g a).
Qed.

Lemma match_at_first_in p s res :
  first_in g (source re) = true ->
  match_at id_code re (MState p s) = Some res ->
  exists a w, s = a :: w /\ g a = true.
Proof.
  unfold match_at. intros Hf H. apply rmatch_sound in H.
  destruct H as (y & caps' & HD & _).
  exact (@denotes_first g _ _ _ _ _ _ Hf HD).
Qed.

Lemma match_at_eats p s res :
  eats g (source re) = true ->
  match_at id_code re (MState p s) = Some res -> lacks g s = false.
Proof.
  unfold match_at. intros Hf H. apply rmatch_sound in H.
  destruct H as (y & caps' & HD & _).
  destruct (@denotes_eats g _ _ _ _ _ _ Hf HD) as (u & E & G).
  cbn [rest] in E. rewrite E, lacks_app, lacks_existsb, G. reflexivity.
Qed.

Lemma match_at_anchored a s res :
  anchored re = true ->
  match_at id_code re (MState (Some a) s) = Some res ->
  is_line_terminator a = true.
Proof.
  unfold anchored, match_at. intros Ha H. apply rmatch_sound in H.
  destruct H as (y & caps' & HD & _).
  destruct (source re) as [| | | | | | | |r1 r2| |]; try discriminate.
  destruct r1; try discriminate.
  cbn [denotes] in HD. destruct HD as (z & c & (B & _) & _).
  unfold at_bol in B. cbn [prev] in B. apply andb_true_iff in B.
  exact (proj2 B).
Qed.

Lemma match_at_none_first p a s :
  first_in g (source re) = true -> g a = false ->
  match_at id_code re (MState p (a :: s)) = None.
Proof.
  intros Hf Ha. destruct (match_at _ _ _) eqn:M; [|reflexivity].
  destruct (@match_at_first_in _ _ _ Hf M) as (b & w & E & G).
  inversion E; subst. congruence.
Qed.

Lemma match_at_none_end p :
  first_in g (source re) = true ->
  match_at id_code re (MState p []) = None.
Proof.
  intros Hf. destruct (match_at _ _ _) eqn:M; [|reflexivity].
  destruct (@match_at_first_in _ _ _ Hf M) as (b & w & E & G).
  discriminate.
Qed.

(** The scan passes over characters that cannot begin a match. *)
Lemma replace_all_pass :
  first_in g (source re) = true ->
  forall u v p, lacks g u = true ->
    rall p (u ++ v) 0 = u ++ rall (last_prev p u) v 0.
Proof.
  intros Hf. induction u as [|a u IH]; intros v p Hu.
  - reflexivity.
  - rewrite lacks_cons in Hu. apply andb_true_iff in Hu.
    destruct Hu as [Ha Hu]. apply negb_true_iff in Ha.
    cbn [app]. rewrite replace_all_miss by now apply match_at_none_first.
    rewrite IH by exact Hu. now rewrite last_prev_cons.
Qed.

Lemma replace_all_end p :
  first_in g (source re) = true -> rall p [] 0 = [].
Proof.
  intros Hf. cbn [replace_all]. now rewrite match_at_none_end.
Qed.

Lemma replace_all_quiet p s :
  first_in g (source re) = true -> lacks g s = true -> rall p s 0 = s.
Proof.
  intros Hf Hs. rewrite <- (app_nil_r s) at 1.
  rewrite replace_all_pass, replace_all_end by assumption.
  apply app_nil_r.
Qed.

Lemma replace_all_eats :
  eats g (source re) = true ->
  forall s p, lacks g s = true -> rall p s 0 = s.
Proof.
  intros Hf. induction s as [|a s IH]; intros p Hs.
  - cbn [replace_all].
    destruct (match_at _ _ _) eqn:M; [|reflexivity].
    apply (@match_at_eats _ _ _ Hf) in M. discriminate.
  - rewrite replace_all_miss.
    + f_equal. apply IH. rewrite lacks_cons in Hs.
      apply andb_true_iff in Hs. tauto.
    + destruct (match_at _ _ _) eqn:M; [|reflexivity].
      apply (@match_at_eats _ _ _ Hf) in M. congruence.
Qed.

(** Inside a line a pattern with [^] finds nothing. *)
Lemma replace_all_inside :
  anchored re = true ->
  forall s a, is_line_terminator a = false ->
    lacks is_line_terminator s = true -> rall (Some a) s 0 = s.
Proof.
  intros Ha. induction s as [|b s IH]; intros a Hn Hs.
  - cbn [replace_all].
    destruct (match_at _ _ _) eqn:M; [|reflexivity].
    apply (@match_at_anchored _ _ _ Ha) in M. congruence.
  - unfold lacks in Hs. cbn [forallb] in Hs. apply andb_true_iff in Hs.
    destruct Hs as [Hb Hs]. apply negb_true_iff in Hb.
    rewrite replace_all_miss.
    + f_equal. now apply IH.
    + destruct (match_at _ _ _) eqn:M; [|reflexivity].
      apply (@match_at_anchored _ _ _ Ha) in M. congruence.
Qed.

(** A line that does not begin as the pattern wants is left alone. *)
Lemma replace_all_line s :
  anchored re = true -> first_in g (source re) = true ->
  head_lacks g s = true -> lacks is_line_terminator s = true ->
  rall None s 0 = s.
Proof.
  intros Ha Hf Hh Hs. destruct s as [|a s].
  - now apply replace_all_end.
  - cbn [head_lacks] in Hh. apply negb_true_iff in Hh.
    unfold lacks in Hs. cbn [forallb] in Hs. apply andb_true_iff in Hs.
    destruct Hs as [Hb Hs]. apply negb_true_iff in Hb.
    rewrite replace_all_miss by now apply match_at_none_first.
    f_equal. now apply replace_all_inside.
Qed.
End Quiet.

Section Stages.
Local Abbreviation rep := (replace id_code id_code).

Lemma lacks_weaken (g1 g2 : N -> bool) s :
  (forall a, g1 a = true -> g2 a = true) ->
  lacks g2 s = true -> lacks g1 s = true.
Proof.
  intros H. unfold lacks. rewrite !forallb_forall. intros Hs a Ha.
  specialize (Hs a Ha). destruct (g1 a) eqn:E; [|reflexivity].
  now rewrite (H a E) in Hs.
Qed.

Lemma lacks_head g s : lacks g s = true -> head_lacks g s = true.
Proof.
  destruct s as [|a s]; [reflexivity|]. unfold lacks. cbn [forallb head_lacks].
  intros H. apply andb_true_iff in H. tauto.
Qed.

Lemma head_lacks_weaken (g1 g2 : N -> bool) s :
  (forall a, g1 a = true -> g2 a = true) ->
  head_lacks g2 s = true -> head_lacks g1 s = true.
Proof.
  intros H. destruct s as [|a s]; [reflexivity|]. cbn [head_lacks].
  destruct (g1 a) eqn:E; [|reflexivity]. now rewrite (H a E).
Qed.

Lemma replace_quiet g re tm s :
  global re = true -> first_in g (source re) = true ->
  lacks g s = true -> rep re tm s = s.
Proof.
  intros G Hf Hs. unfold replace. rewrite G.
  now apply (@replace_all_quiet g).
Qed.

Lemma replace_eats g re tm s :
  global re = true -> eats g (source re) = true ->
  lacks g s = true -> rep re tm s = s.
Proof.
  intros G Hf Hs. unfold replace. rewrite G.
  now apply (@replace_all_eats g).
Qed.

Lemma replace_line g re tm s :
  global re = true -> anchored re = true ->
  first_in g (source re) = true ->
  head_lacks g s = true -> lacks is_line_terminator s = true ->
  rep re tm s = s.
Proof.
  intros G Ha Hf Hh Hs. unfold replace. rewrite G.
  now apply (@replace_all_line g).
Qed.

Local Abbreviation eqc c := (N.eqb (ch c)).

Lemma escape_html_quiet s :
  lacks is_special s = true -> escape_html id_code id_code s = s.
Proof.
  intros H.
  assert (L : forall c, is_special (ch c) = true ->
                        lacks (eqc c) s = true).
  { intros c Hc. eapply lacks_weaken; [|exact H]. intros a E.
    apply N.eqb_eq in E. now subst a. }
  unfold escape_html.
  rewrite (@replace_quiet (eqc "&") re_amp)
    by (try reflexivity; apply L; reflexivity).
  rewrite (@replace_quiet (eqc "<") re_lt)
    by (try reflexivity; apply L; reflexivity).
  now rewrite (@replace_quiet (eqc ">") re_gt)
    by (try reflexivity; apply L; reflexivity).
Qed.

Lemma headers_line s :
  head_lacks (eqc "#") s = true -> lacks is_line_terminator s = true ->
  headers id_code id_code s = s.
Proof.
  intros Hh Hs. unfold headers. cbv zeta.
  rewrite (@replace_line (eqc "#") (re_header "######")),
    (@replace_line (eqc "#") (re_header "#####")),
    (@replace_line (eqc "#") (re_header "####")),
    (@replace_line (eqc "#") (re_header "###")),
    (@replace_line (eqc "#") (re_header "##")),
    (@replace_line (eqc "#") (re_header "#")); auto.
Qed.

Lemma bold_under_quiet s :
  lacks (eqc "_") s = true ->
  rep re_bold_under (wrap_tag "strong") s = s.
Proof. intros H. now apply (@replace_quiet (eqc "_")). Qed.

Lemma bold_quiet s :
  lacks (eqc "*") s = true -> lacks (eqc "_") s = true ->
  bold id_code id_code s = s.
Proof.
  intros H1 H2. unfold bold. cbv zeta.
  rewrite (@replace_quiet (eqc "*") re_bold_star) by auto.
  now apply bold_under_quiet.
Qed.

Lemma italic_under_quiet s :
  lacks (eqc "_") s = true ->
  rep re_italic_under (wrap_tag "em") s = s.
Proof. intros H. now apply (@replace_quiet (eqc "_")). Qed.

Lemma italic_quiet s :
  lacks (eqc "*") s = true -> lacks (eqc "_") s = true ->
  italic id_code id_code s = s.
Proof.
  intros H1 H2. unfold italic. cbv zeta.
  rewrite (@replace_quiet (eqc "*") re_italic_star) by auto.
  now apply italic_under_quiet.
Qed.

Lemma split_go_single : forall (s cur : list N),
  lacks (N.eqb newline) s = true ->
  split_go id_code [newline; newline] cur s 0 = [rev cur ++ s].
Proof.
  induction s as [|a s IH]; intros cur H; cbn [split_go].
  - now rewrite app_nil_r.
  - unfold lacks in H. cbn [forallb] in H. apply andb_true_iff in H.
    destruct H as [Ha Hs]. apply negb_true_iff in Ha.
    cbn [starts_with]. unfold id_code at 1. rewrite Ha. cbn [andb].
    rewrite IH by exact Hs. cbn [rev]. now rewrite <- app_assoc.
Qed.

Lemma paragraphs_line s :
  lacks is_line_terminator s = true -> starts_block s = false ->
  paragraphs id_code id_code s = str "<p>" ++ s ++ str "</p>".
Proof.
  intros Hs Hb. unfold paragraphs, split.
  rewrite split_go_single.
  - cbn [rev app map join]. unfold wrap_para.
    rewrite wrap_test, Hb. cbn [negb]. now rewrite !map_id_code.
  - eapply lacks_weaken; [|exact Hs]. intros a E. apply N.eqb_eq in E.
    now subst a.
Qed.

(** The stages after the italic stage, on one line without their
    characters. *)
Lemma after_italic_line s :
  lacks later_char s = true -> head_lacks item_opener s = true ->
  find_sub id_code (str "<li>") s = None -> starts_block s = false ->
  paragraphs id_code id_code
    (ordered_lists id_code id_code
       (unordered_lists id_code id_code
          (blockquotes id_code id_code
             (horizontal_rules id_code id_code
                (images id_code id_code
                   (links id_code id_code
                      (inline_code id_code id_code
                         (code_blocks id_code id_code s))))))))
  = str "<p>" ++ s ++ str "</p>".
Proof.
  intros Hs Hh Hli Hb.
  assert (L : forall c, later_char (ch c) = true ->
                        lacks (eqc c) s = true).
  { intros c Hc. eapply lacks_weaken; [|exact Hs]. intros a E.
    apply N.eqb_eq in E. now subst a. }
  assert (T : lacks is_line_terminator s = true).
  { eapply lacks_weaken; [|exact Hs]. intros a E. unfold later_char.
    rewrite E. auto with bool. }
  unfold code_blocks, inline_code, links, images.
  rewrite (@replace_quiet (eqc "`") re_code_block),
    (@replace_quiet (eqc "`") re_inline_code),
    (@replace_quiet (eqc "[") re_link),
    (@replace_eats (eqc "[") re_image);
    try reflexivity; try (apply L; reflexivity).
  unfold horizontal_rules. cbv zeta.
  rewrite (@replace_line (eqc "-") re_hr_dash),
    (@replace_line (eqc "*") re_hr_star); try reflexivity; try exact T.
  2: { apply lacks_head, L. reflexivity. }
  2: { eapply head_lacks_weaken; [|exact Hh]. intros a E. unfold item_opener.
       rewrite N.eqb_sym, E. reflexivity. }
  unfold blockquotes.
  rewrite (@replace_quiet (eqc "&") re_blockquote);
    try reflexivity; try (apply L; reflexivity).
  unfold unordered_lists, ul_items.
  rewrite (@replace_line (fun c => (c =? ch "*")%N || (c =? ch "-")%N)
             re_ul_item); try reflexivity; try exact T.
  2: { destruct s as [|a s']; [reflexivity|]. cbn [head_lacks] in *.
       unfold lacks in Hs. cbn [forallb] in Hs.
       apply andb_true_iff in Hs. destruct Hs as [Hs _].
       unfold later_char in Hs. unfold item_opener in Hh.
       destruct (a =? ch "*")%N, (a =? ch "-")%N;
         try reflexivity; cbn in Hs, Hh; try discriminate;
         rewrite ?orb_true_r in Hs; discriminate. }
  unfold ul_wrap, replace. cbn [global re_ul_wrap re_s].
  rewrite ul_wrap_step, Hli.
  unfold ordered_lists.
  rewrite (@replace_line is_digit re_ol_item); try reflexivity;
    try exact T.
  2: { eapply head_lacks_weaken; [|exact Hh]. intros a E. unfold item_opener.
       rewrite E. auto with bool. }
  now apply paragraphs_line.
Qed.
End Stages.

Section Spans.
Local Abbreviation eqc c := (N.eqb (ch c)).
Local Abbreviation lt := is_line_terminator.

Lemma lacks_later_of_prose s : prose s = true -> lacks later_char s = true.
Proof.
  intros H. eapply lacks_weaken; [|exact H]. intros a E.
  unfold later_char in E. unfold markup_char.
  destruct (a =? ch "&")%N, (a =? ch "<")%N, (a =? ch ">")%N,
    (a =? ch "*")%N, (a =? ch "_")%N, (a =? ch "`")%N, (a =? ch "[")%N,
    (is_line_terminator a); try reflexivity; discriminate.
Qed.

Lemma lacks_special_of_prose s : prose s = true -> lacks is_special s = true.
Proof.
  intros H. eapply lacks_weaken; [|exact H]. intros a E.
  unfold is_special in E. unfold markup_char.
  destruct (a =? ch "&")%N, (a =? ch "<")%N, (a =? ch ">")%N;
    try reflexivity; discriminate.
Qed.

Lemma lacks_char_of_later c s :
  later_char (ch c) = true -> lacks later_char s = true ->
  lacks (eqc c) s = true.
Proof.
  intros Hc H. eapply lacks_weaken; [|exact H]. intros a E.
  apply N.eqb_eq in E. now subst a.
Qed.

Lemma lacks_lt_of_later s :
  lacks later_char s = true -> lacks lt s = true.
Proof.
  intros H. eapply lacks_weaken; [|exact H]. intros a E.
  unfold later_char. rewrite E. auto with bool.
Qed.

Lemma find_sub_lacks c pat : forall s,
  lacks (N.eqb c) s = true -> find_sub id_code (c :: pat) s = None.
Proof.
  induction s as [|a s IH]; intros H; cbn [find_sub starts_with].
  - reflexivity.
  - unfold lacks in H. cbn [forallb] in H. apply andb_true_iff in H.
    destruct H as [Ha Hs]. apply negb_true_iff in Ha.
    unfold id_code at 1. rewrite Ha. cbn [andb]. now rewrite IH.
Qed.

Lemma starts_block_lacks s :
  head_lacks (eqc "<") s = true -> starts_block s = false.
Proof.
  destruct s as [|a [|b s]]; try reflexivity. cbn [head_lacks starts_block].
  intros H. apply negb_true_iff in H. rewrite N.eqb_sym in H.
  now rewrite H.
Qed.

(** Prose comes out as one paragraph. *)
Lemma convert_prose s :
  prose s = true -> head_lacks line_opener s = true ->
  convert id_code id_code s = str "<p>" ++ s ++ str "</p>".
Proof.
  intros Hp Hh. pose proof (lacks_later_of_prose _ Hp) as Hl.
  pose proof (lacks_special_of_prose _ Hp) as Hs.
  assert (Hlt : lacks (eqc "<") s = true).
  { eapply lacks_weaken; [|exact Hs]. intros a E. apply N.eqb_eq in E.
    now subst a. }
  unfold convert, later_stages. cbv zeta.
  rewrite escape_html_quiet by exact Hs.
  rewrite headers_line.
  - rewrite bold_quiet by (apply lacks_char_of_later; auto).
    rewrite italic_quiet by (apply lacks_char_of_later; auto).
    apply after_italic_line; [exact Hl | | |].
    + eapply head_lacks_weaken; [|exact Hh]. intros a E.
      unfold item_opener in E. unfold line_opener.
      destruct (a =? ch "#")%N, (a =? ch "-")%N, (is_digit a);
        try reflexivity; discriminate.
    + now apply find_sub_lacks.
    + now apply starts_block_lacks, lacks_head.
  - eapply head_lacks_weaken; [|exact Hh]. intros a E.
    unfold line_opener. rewrite N.eqb_sym, E. reflexivity.
  - now apply lacks_lt_of_later.
Qed.
End Spans.

(** * Spans of bold and italic text in prose *)

Section Runs.
Local Abbreviation eqc c := (N.eqb (ch c)).
Local Abbreviation lt := is_line_terminator.
Variable f : flags.
Variable g : N -> bool.

Lemma star_lazy_run (k : cont N) :
  (forall pv a t c, g a = false -> k (MState pv (a :: t)) c = None) ->
  forall u w pv caps res,
    lacks g u = true -> lacks lt u = true ->
    k (MState (last_prev pv u) w) caps = Some res ->
    star_lazy id_code (dot_test f) k pv (u ++ w) caps = Some res.
Proof.
  intros Hk. induction u as [|a u IH]; intros w pv caps res Hg Hl H.
  - cbn [app]. unfold last_prev in H. cbn [rev] in H.
    destruct w; cbn [star_lazy]; now rewrite H.
  - unfold lacks in Hg, Hl. cbn [forallb] in Hg, Hl.
    apply andb_true_iff in Hg, Hl. destruct Hg as [Ga Hg], Hl as [La Hl].
    apply negb_true_iff in Ga, La.
    cbn [app star_lazy]. rewrite (Hk _ _ _ _ Ga).
    unfold dot_test, id_code. rewrite La, orb_true_r.
    apply IH; [exact Hg | exact Hl |]. now rewrite <- (last_prev_cons pv).
Qed.

(** [(.+?)] over a run that the rest of the pattern cannot start in. *)
Lemma lazy_group_run (k : cont N) :
  (forall pv a t c, g a = false -> k (MState pv (a :: t)) c = None) ->
  forall sel w pv caps res,
    sel <> [] -> lacks g sel = true -> lacks lt sel = true ->
    k (MState (last_prev pv sel) w) (set_capture 1 sel caps) = Some res ->
    rmatch id_code f (Group 1 (PlusLazy Dot)) (MState pv (sel ++ w)) caps k
    = Some res.
Proof.
  intros Hk sel w pv caps res Hne Hg Hl H.
  destruct sel as [|a u]; [congruence|].
  rewrite rmatch_Group. unfold PlusLazy. cbn [app].
  rewrite (@rmatch_plus _ id_code f Dot (dot_test f) false pv
             (a :: u ++ w) caps _ eq_refl).
  unfold lacks in Hg, Hl. cbn [forallb] in Hg, Hl.
  apply andb_true_iff in Hg, Hl. destruct Hg as [Ga Hg], Hl as [La Hl].
  apply negb_true_iff in Ga, La.
  unfold dot_test at 1, id_code at 1. rewrite La, orb_true_r.
  cbn [star_ref]. apply star_lazy_run; [|exact Hg | exact Hl |].
  - intros pv' b t c Gb. now apply Hk.
  - rewrite (@consumed_suffix _ _ _ (a :: u)) by reflexivity.
    now rewrite <- (last_prev_cons pv).
Qed.
End Runs.

Section Spans2.
Local Abbreviation eqc c := (N.eqb (ch c)).
Local Abbreviation lt := is_line_terminator.
Local Abbreviation star := (ch "*").

Lemma match_at_bold_star p sel post :
  sel <> [] -> lacks (eqc "*") sel = true -> lacks lt sel = true ->
  match_at id_code re_bold_star
    (MState p (str "**" ++ sel ++ str "**" ++ post))
  = Some (post, [(1, sel)]).
Proof.
  intros Hne Hg Hl. unfold match_at.
  cbn [source reflags re_bold_star re_g seq_of].
  rewrite rmatch_Seq, rmatch_Lit.
  change (str "**") with [star; star]. cbn [app strip].
  unfold id_code at 1 2. rewrite !N.eqb_refl.
  rewrite rmatch_Seq.
  apply (@lazy_group_run (Flags false false) (eqc "*")); try assumption.
  - intros pv a t c Ga. rewrite rmatch_Lit. cbn [strip].
    unfold id_code. now rewrite Ga.
  - rewrite rmatch_Lit. cbn [strip]. unfold id_code.
    rewrite !N.eqb_refl. reflexivity.
Qed.

Lemma match_at_italic_star p sel post :
  sel <> [] -> lacks (eqc "*") sel = true -> lacks lt sel = true ->
  match_at id_code re_italic_star
    (MState p (star :: sel ++ star :: post))
  = Some (post, [(1, sel)]).
Proof.
  intros Hne Hg Hl. unfold match_at.
  cbn [source reflags re_italic_star re_g seq_of].
  rewrite rmatch_Seq.
  rewrite (@rmatch_atom _ id_code (Flags false false) (Chr star) _ _ _ _
             eq_refl).
  unfold eat. cbn [rest]. unfold id_code at 1. rewrite N.eqb_refl.
  rewrite rmatch_Seq.
  apply (@lazy_group_run (Flags false false) (eqc "*")); try assumption.
  - intros pv a t c Ga.
    rewrite (@rmatch_atom _ id_code (Flags false false) (Chr star) _ _ _ _
               eq_refl).
    unfold eat. cbn [rest]. unfold id_code. now rewrite Ga.
  - rewrite (@rmatch_atom _ id_code (Flags false false) (Chr star) _ _ _ _
               eq_refl).
    unfold eat. cbn [rest]. unfold id_code. now rewrite N.eqb_refl.
Qed.
End Spans2.

Section Tagged.
Local Abbreviation eqc c := (N.eqb (ch c)).
Local Abbreviation lt := is_line_terminator.
Local Abbreviation star := (ch "*").
Local Abbreviation rep := (replace id_code id_code).

Lemma lacks_char_of_prose c s :
  markup_char (ch c) = true -> prose s = true -> lacks (eqc c) s = true.
Proof.
  intros Hc H. eapply lacks_weaken; [|exact H]. intros a E.
  apply N.eqb_eq in E. now subst a.
Qed.

Lemma find_sub_none_pass c pat : forall u v,
  lacks (N.eqb c) u = true -> find_sub id_code (c :: pat) v = None ->
  find_sub id_code (c :: pat) (u ++ v) = None.
Proof.
  induction u as [|a u IH]; intros v H Hv; [exact Hv|].
  unfold lacks in H. cbn [forallb] in H. apply andb_true_iff in H.
  destruct H as [Ha Hu]. apply negb_true_iff in Ha.
  cbn [app find_sub starts_with]. unfold id_code at 1. rewrite Ha.
  cbn [andb]. now rewrite IH.
Qed.

Lemma find_sub_none_second c d pat e w :
  (d =? e)%N = false -> find_sub id_code (c :: d :: pat) (e :: w) = None ->
  find_sub id_code (c :: d :: pat) (c :: e :: w) = None.
Proof.
  intros Hd H. remember (e :: w) as ew eqn:E.
  cbn [find_sub]. rewrite H.
  replace (starts_with id_code (c :: d :: pat) (c :: ew)) with false;
    [reflexivity|].
  subst ew. cbn [starts_with]. unfold id_code.
  now rewrite Hd, andb_false_r.
Qed.

Section Wrapped.
Variables (t0 : N) (tag' : list N).
Local Abbreviation tag := (t0 :: tag').
Hypothesis tag_prose : prose tag = true.
Hypothesis tag_not_l : (ch "l" =? t0)%N = false.
Hypothesis tag_not_block : is_block_letter t0 = false.
Variables pre sel post : list N.
Hypothesis pre_prose : prose pre = true.
Hypothesis sel_prose : prose sel = true.
Hypothesis post_prose : prose post = true.
Local Abbreviation wrapped :=
  (pre ++ (str "<" ++ tag ++ str ">") ++ sel
       ++ (str "</" ++ tag ++ str ">") ++ post).

Lemma wrapped_lacks g :
  g (ch "<") = false -> g (ch ">") = false -> g (ch "/") = false ->
  (forall s, prose s = true -> lacks g s = true) ->
  lacks g wrapped = true.
Proof.
  intros G1 G2 G3 H. rewrite !lacks_app.
  rewrite (H pre), (H sel), (H post), (H tag) by assumption.
  change (str "<") with [ch "<"]. change (str ">") with [ch ">"].
  change (str "</") with [ch "<"; ch "/"].
  unfold lacks. cbn [forallb]. now rewrite G1, G2, G3.
Qed.

Lemma wrapped_no_li :
  find_sub id_code (str "<li>") wrapped = None.
Proof.
  assert (L : forall s, prose s = true -> lacks (eqc "<") s = true)
    by (intros s; now apply lacks_char_of_prose).
  apply (@find_sub_none_pass (ch "<") (str "li>") pre); [now apply L|].
  apply (@find_sub_none_second (ch "<") (ch "l") (str "i>") t0
           ((tag' ++ str ">") ++ sel ++ (str "</" ++ tag ++ str ">")
                 ++ post)); [exact tag_not_l|].
  apply (@find_sub_none_pass (ch "<") (str "li>") (tag ++ str ">"));
    [rewrite lacks_app, (L tag) by assumption; reflexivity|].
  apply (@find_sub_none_pass (ch "<") (str "li>") sel); [now apply L|].
  apply (@find_sub_none_second (ch "<") (ch "l") (str "i>") (ch "/")
           ((tag ++ str ">") ++ post)); [reflexivity|].
  apply (@find_sub_none_pass (ch "<") (str "li>")
           ([ch "/"] ++ tag ++ str ">")).
  - rewrite !lacks_app, (L tag) by assumption. reflexivity.
  - now apply (@find_sub_lacks (ch "<") (str "li>")), L.
Qed.

Lemma after_italic_wrapped :
  head_lacks item_opener pre = true ->
  paragraphs id_code id_code
    (ordered_lists id_code id_code
       (unordered_lists id_code id_code
          (blockquotes id_code id_code
             (horizontal_rules id_code id_code
                (images id_code id_code
                   (links id_code id_code
                      (inline_code id_code id_code
                         (code_blocks id_code id_code wrapped))))))))
  = str "<p>" ++ wrapped ++ str "</p>".
Proof.
  intros Hh. apply after_italic_line.
  - apply wrapped_lacks; try reflexivity. apply lacks_later_of_prose.
  - destruct pre; [reflexivity | exact Hh].
  - apply wrapped_no_li.
  - destruct pre as [|a pre'].
    + cbn [app]. change (str "<") with [ch "<"]. cbn [app starts_block].
      now rewrite tag_not_block, andb_false_r.
    + apply starts_block_lacks.
      assert (Q : lacks (eqc "<") (a :: pre') = true)
        by now apply lacks_char_of_prose.
      apply lacks_head in Q. exact Q.
Qed.
End Wrapped.
End Tagged.

(** * The bold and the italic stage on prose *)

Section BoldItalic.
Local Abbreviation eqc c := (N.eqb (ch c)).
Local Abbreviation lt := is_line_terminator.
Local Abbreviation star := (ch "*").
Local Abbreviation rep := (replace id_code id_code).
Local Abbreviation rall := (replace_all id_code id_code).

Lemma match_at_bold_star_single p w :
  head_lacks (eqc "*") w = true ->
  match_at id_code re_bold_star (MState p (star :: w)) = None.
Proof.
  intros H. unfold match_at.
  cbn [source reflags re_bold_star re_g seq_of].
  rewrite rmatch_Seq, rmatch_Lit.
  change (str "**") with [star; star]. cbn [strip].
  unfold id_code at 1. rewrite N.eqb_refl.
  destruct w as [|a w]; [reflexivity|].
  cbn [head_lacks] in H. apply negb_true_iff in H.
  unfold id_code. now rewrite H.
Qed.

Variables pre sel post : list N.
Hypothesis pre_prose : prose pre = true.
Hypothesis sel_prose : prose sel = true.
Hypothesis post_prose : prose post = true.
Hypothesis sel_cons : sel <> [].

Lemma bold_star_span :
  rep re_bold_star (wrap_tag "strong")
    (pre ++ str "**" ++ sel ++ str "**" ++ post)
  = pre ++ (str "<" ++ str "strong" ++ str ">") ++ sel
        ++ (str "</" ++ str "strong" ++ str ">") ++ post.
Proof.
  assert (L : forall s, prose s = true -> lacks (eqc "*") s = true)
    by (intros s; now apply lacks_char_of_prose).
  unfold replace. cbn [global re_bold_star re_g].
  rewrite (@replace_all_pass (eqc "*") re_bold_star _ eq_refl pre)
    by now apply L.
  replace (str "**" ++ sel ++ str "**" ++ post)
    with ((str "**" ++ sel ++ str "**") ++ post)
    by now rewrite <- !app_assoc.
  rewrite (@replace_all_hit _ _ _ _ _ [(1, sel)]).
  - rewrite (@replace_all_quiet (eqc "*") re_bold_star _ _ post eq_refl)
      by now apply L.
    unfold subst, wrap_tag.
    cbn [flat_map subst_item get_capture find fst snd Nat.eqb].
    rewrite !map_id_code. now rewrite <- !app_assoc.
  - change (str "**") with [star; star]. discriminate.
  - rewrite <- !app_assoc. apply match_at_bold_star; auto.
    apply lacks_lt_of_later. now apply lacks_later_of_prose.
Qed.

Lemma bold_star_single :
  rep re_bold_star (wrap_tag "strong")
    (pre ++ str "*" ++ sel ++ str "*" ++ post)
  = pre ++ str "*" ++ sel ++ str "*" ++ post.
Proof.
  assert (L : forall s, prose s = true -> lacks (eqc "*") s = true)
    by (intros s; now apply lacks_char_of_prose).
  unfold replace. cbn [global re_bold_star re_g].
  rewrite (@replace_all_pass (eqc "*") re_bold_star _ eq_refl pre)
    by now apply L.
  f_equal. change (str "*") with [star]. cbn [app].
  rewrite replace_all_miss.
  2: { destruct sel as [|a u]; [congruence|].
       apply match_at_bold_star_single. apply (lacks_head _ _ (L _ sel_prose)). }
  f_equal.
  rewrite (@replace_all_pass (eqc "*") re_bold_star _ eq_refl sel)
    by now apply L.
  f_equal. rewrite replace_all_miss.
  2: { apply match_at_bold_star_single. now apply lacks_head, L. }
  f_equal.
  now apply (@replace_all_quiet (eqc "*") re_bold_star _ _ post eq_refl), L.
Qed.

Lemma italic_star_span :
  rep re_italic_star (wrap_tag "em")
    (pre ++ str "*" ++ sel ++ str "*" ++ post)
  = pre ++ (str "<" ++ str "em" ++ str ">") ++ sel
        ++ (str "</" ++ str "em" ++ str ">") ++ post.
Proof.
  assert (L : forall s, prose s = true -> lacks (eqc "*") s = true)
    by (intros s; now apply lacks_char_of_prose).
  unfold replace. cbn [global re_italic_star re_g].
  rewrite (@replace_all_pass (eqc "*") re_italic_star _ eq_refl pre)
    by now apply L.
  replace (str "*" ++ sel ++ str "*" ++ post)
    with ((str "*" ++ sel ++ str "*") ++ post)
    by now rewrite <- !app_assoc.
  rewrite (@replace_all_hit _ _ _ _ _ [(1, sel)]).
  - rewrite (@replace_all_quiet (eqc "*") re_italic_star _ _ post eq_refl)
      by now apply L.
    unfold subst, wrap_tag.
    cbn [flat_map subst_item get_capture find fst snd Nat.eqb].
    rewrite !map_id_code. now rewrite <- !app_assoc.
  - change (str "*") with [star]. discriminate.
  - rewrite <- !app_assoc. apply match_at_italic_star; auto.
    apply lacks_lt_of_later. now apply lacks_later_of_prose.
Qed.

Hypothesis pre_opens : head_lacks line_opener pre = true.

Lemma marked_lacks (g : N -> bool) (mk : list N) :
  lacks g mk = true ->
  (forall s, prose s = true -> lacks g s = true) ->
  lacks g (pre ++ mk ++ sel ++ mk ++ post) = true.
Proof.
  intros G H. rewrite !lacks_app.
  now rewrite (H pre), (H sel), (H post), G by assumption.
Qed.

Lemma marked_head (g : N -> bool) (mk : list N) :
  mk <> [] -> head_lacks g mk = true ->
  (forall a, g a = true -> line_opener a = true) ->
  head_lacks g (pre ++ mk ++ sel ++ mk ++ post) = true.
Proof.
  intros Hm G H. destruct pre as [|a pre'].
  - destruct mk; [congruence | exact G].
  - eapply head_lacks_weaken; [exact H | exact pre_opens].
Qed.

Lemma marked_first_stages (mk : list N) :
  mk = str "**" \/ mk = str "*" ->
  headers id_code id_code
    (escape_html id_code id_code (pre ++ mk ++ sel ++ mk ++ post))
  = pre ++ mk ++ sel ++ mk ++ post.
Proof.
  intros Hm.
  assert (M : mk <> [] /\ lacks is_special mk = true /\
              lacks lt mk = true /\ head_lacks (eqc "#") mk = true).
  { destruct Hm; subst mk; repeat split; discriminate. }
  destruct M as (M0 & M1 & M2 & M3).
  rewrite escape_html_quiet.
  - apply headers_line.
    + apply marked_head; auto. intros a E. unfold line_opener.
      now rewrite N.eqb_sym, E.
    + apply marked_lacks; auto. intros s Hs.
      now apply lacks_lt_of_later, lacks_later_of_prose.
  - apply marked_lacks; auto. apply lacks_special_of_prose.
Qed.

Lemma after_italic_tagged (t0 : N) (tag' : list N) :
  prose (t0 :: tag') = true -> (ch "l" =? t0)%N = false ->
  is_block_letter t0 = false ->
  paragraphs id_code id_code
    (ordered_lists id_code id_code
       (unordered_lists id_code id_code
          (blockquotes id_code id_code
             (horizontal_rules id_code id_code
                (images id_code id_code
                   (links id_code id_code
                      (inline_code id_code id_code
                         (code_blocks id_code id_code
                            (pre ++ (str "<" ++ (t0 :: tag') ++ str ">")
                                 ++ sel
                                 ++ (str "</" ++ (t0 :: tag') ++ str ">")
                                 ++ post)))))))))
  = str "<p>" ++ pre ++ (str "<" ++ (t0 :: tag') ++ str ">") ++ sel
        ++ (str "</" ++ (t0 :: tag') ++ str ">") ++ post ++ str "</p>".
Proof.
  intros H1 H2 H3. rewrite after_italic_wrapped; auto.
  - now rewrite <- !app_assoc.
  - eapply head_lacks_weaken; [|exact pre_opens]. intros a E.
    unfold item_opener in E. unfold line_opener.
    destruct (a =? ch "#")%N, (a =? ch "-")%N, (is_digit a);
      try reflexivity; discriminate.
Qed.

(** [**sel**] in prose. *)
Lemma convert_bold_span :
  convert id_code id_code (pre ++ str "**" ++ sel ++ str "**" ++ post)
  = str "<p>" ++ pre ++ str "<strong>" ++ sel ++ str "</strong>" ++ post
        ++ str "</p>".
Proof.
  unfold convert, later_stages. cbv zeta.
  rewrite marked_first_stages by auto.
  unfold bold. cbv zeta. rewrite bold_star_span.
  assert (W : forall g, g (ch "<") = false -> g (ch ">") = false ->
                        g (ch "/") = false ->
                        (forall s, prose s = true -> lacks g s = true) ->
                        lacks g (pre ++ (str "<" ++ str "strong" ++ str ">")
                                     ++ sel
                                     ++ (str "</" ++ str "strong" ++ str ">")
                                     ++ post) = true).
  { intros g G1 G2 G3 H.
    now apply (@wrapped_lacks (ch "s") (str "trong") eq_refl). }
  rewrite bold_under_quiet
    by (apply W; try reflexivity; intros s; now apply lacks_char_of_prose).
  rewrite italic_quiet
    by (apply W; try reflexivity; intros s; now apply lacks_char_of_prose).
  now apply (@after_italic_tagged (ch "s") (str "trong")).
Qed.

(** [*sel*] in prose. *)
Lemma convert_italic_span :
  convert id_code id_code (pre ++ str "*" ++ sel ++ str "*" ++ post)
  = str "<p>" ++ pre ++ str "<em>" ++ sel ++ str "</em>" ++ post
        ++ str "</p>".
Proof.
  unfold convert, later_stages. cbv zeta.
  rewrite marked_first_stages by auto.
  unfold bold. cbv zeta. rewrite bold_star_single.
  rewrite bold_under_quiet
    by (apply marked_lacks; [reflexivity|];
        intros s; now apply lacks_char_of_prose).
  unfold italic. cbv zeta. rewrite italic_star_span.
  assert (W : forall g, g (ch "<") = false -> g (ch ">") = false ->
                        g (ch "/") = false ->
                        (forall s, prose s = true -> lacks g s = true) ->
                        lacks g (pre ++ (str "<" ++ str "em" ++ str ">")
                                     ++ sel
                                     ++ (str "</" ++ str "em" ++ str ">")
                                     ++ post) = true).
  { intros g G1 G2 G3 H.
    now apply (@wrapped_lacks (ch "e") (str "m") eq_refl). }
  rewrite italic_under_quiet
    by (apply W; try reflexivity; intros s; now apply lacks_char_of_prose).
  now apply (@after_italic_tagged (ch "e") (str "m")).
Qed.
End BoldItalic.

(** * From a key to the preview *)

Lemma updatePreview_cons (value : list N) :
  value <> [] -> updatePreview value = Normal (convert id_code id_code value).
Proof.
  intros H. destruct value as [|a value]; [congruence|].
  unfold updatePreview, parse. cbn [to_boolean length Nat.eqb negb].
  destruct (convert_cons (a :: value)) as (c & tl & E). now rewrite E.
Qed.

Lemma insertMarkdown_selection (md pre post a b c : list N) :
  find_sub id_code (str "text") md = Some (pre, post) ->
  b <> [] -> Forall (fun x => x <> ch "$") b ->
  insertMarkdown md (Textarea (a ++ b ++ c) (length a) (length a + length b))
  = (a ++ pre ++ b ++ post ++ c,
     (Z.of_nat (length a) + Z.of_nat (length md))%Z).
Proof.
  intros F Hb Hd. unfold insertMarkdown.
  cbn [value selectionStart selectionEnd].
  rewrite substring_range by (rewrite ?length_app; lia).
  rewrite substring_prefix, substring_tail by (rewrite !length_app; lia).
  replace (length a + length b - length a) with (length b) by lia.
  rewrite firstn_length_app, skipn_length_app, firstn_length_app.
  replace (skipn (length a + length b) (a ++ b ++ c)) with c.
  2: { rewrite app_assoc, <- length_app. now rewrite skipn_length_app. }
  unfold includes, string_replace, indexOf. rewrite F. cbn [fst snd].
  destruct b as [|x b]; [congruence|]. cbn [or_else is_empty].
  rewrite get_substitution_plain by exact Hd.
  now rewrite <- !app_assoc.
Qed.

Lemma handleKeyboardShortcuts_some (isMac : bool) (e : key_event) :
  handleKeyboardShortcuts isMac e <> DoNothing ->
  (if isMac then metaKey e else ctrlKey e) = true /\
  In (key e) [str "s"; str "n"; str "f"; str "b"; str "i"].
Proof.
  unfold handleKeyboardShortcuts.
  destruct (if isMac then metaKey e else ctrlKey e); cbn [andb];
    [|congruence].
  intros H. split; [reflexivity|].
  destruct (code_eqb (key e) (str "s")) eqn:E1;
    [apply code_eqb_eq in E1; rewrite E1; cbn; tauto|].
  destruct (code_eqb (key e) (str "n")) eqn:E2;
    [apply code_eqb_eq in E2; rewrite E2; cbn; tauto|].
  destruct (code_eqb (key e) (str "f")) eqn:E3;
    [apply code_eqb_eq in E3; rewrite E3; cbn; tauto|].
  destruct (code_eqb (key e) (str "b")) eqn:E4;
    [apply code_eqb_eq in E4; rewrite E4; cbn; tauto|].
  destruct (code_eqb (key e) (str "i")) eqn:E5;
    [apply code_eqb_eq in E5; rewrite E5; cbn; tauto|].
  congruence.
Qed.

Lemma prose_app (u v : list N) : prose (u ++ v) = prose u && prose v.
Proof. apply forallb_app. Qed.

(** * Constructs of one line *)

Section GreedyRuns.
Local Abbreviation lt := is_line_terminator.
Variable f : flags.

Lemma star_greedy_run (p : N -> bool) (k : cont N) :
  forall u w pv caps res,
    forallb p u = true -> head_lacks p w = true ->
    k (MState (last_prev pv u) w) caps = Some res ->
    star_greedy id_code p k pv (u ++ w) caps = Some res.
Proof.
  induction u as [|a u IH]; intros w pv caps res Hu Hw H.
  - cbn [app]. unfold last_prev in H. cbn [rev] in H.
    destruct w as [|b w]; cbn [star_greedy]; [exact H|].
    cbn [head_lacks] in Hw. apply negb_true_iff in Hw.
    unfold id_code. now rewrite Hw.
  - cbn [forallb] in Hu. apply andb_true_iff in Hu.
    destruct Hu as [Ha Hu]. cbn [app star_greedy].
    unfold id_code at 1. rewrite Ha.
    rewrite (IH w (Some a) caps res Hu Hw); [reflexivity|].
    now rewrite <- (last_prev_cons pv).
Qed.

Lemma greedy_plus_run r p (k : cont N) u w pv caps res :
  atom_test f r = Some p ->
  u <> [] -> forallb p u = true -> head_lacks p w = true ->
  k (MState (last_prev pv u) w) caps = Some res ->
  rmatch id_code f (Plus r) (MState pv (u ++ w)) caps k = Some res.
Proof.
  intros Ha Hne Hu Hw H. destruct u as [|a u]; [congruence|].
  unfold Plus. cbn [app].
  rewrite (@rmatch_plus _ id_code f r p true pv (a :: u ++ w) caps k Ha).
  cbn [forallb] in Hu. apply andb_true_iff in Hu. destruct Hu as [Pa Hu].
  unfold id_code at 1. rewrite Pa. cbn [star_ref].
  apply star_greedy_run; [exact Hu | exact Hw |].
  now rewrite <- (last_prev_cons pv).
Qed.

Lemma greedy_group_run n r p (k : cont N) u w pv caps res :
  atom_test f r = Some p ->
  u <> [] -> forallb p u = true -> head_lacks p w = true ->
  k (MState (last_prev pv u) w) (set_capture n u caps) = Some res ->
  rmatch id_code f (Group n (Plus r)) (MState pv (u ++ w)) caps k
  = Some res.
Proof.
  intros Ha Hne Hu Hw H. rewrite rmatch_Group.
  apply (@greedy_plus_run r p); try assumption.
  now rewrite (@consumed_suffix _ _ _ u) by reflexivity.
Qed.

Lemma strip_app (l : list N) : forall pv s,
  strip id_code l pv (l ++ s) = Some (MState (last_prev pv l) s).
Proof.
  induction l as [|c l IH]; intros pv s; cbn [app strip].
  - reflexivity.
  - unfold id_code at 1. rewrite N.eqb_refl, IH.
    now rewrite <- (last_prev_cons pv).
Qed.
End GreedyRuns.

Section LineTail.
Local Abbreviation lt := is_line_terminator.
Local Abbreviation fm := (Flags true false).
Local Abbreviation tail :=
  (Seq (Plus Space) (Seq (Group 1 (Plus Dot)) Eol)).

Lemma dot_of_lacks (t : list N) :
  lacks lt t = true -> forallb (dot_test fm) t = true.
Proof.
  unfold lacks. rewrite !forallb_forall. intros H a Ha.
  unfold dot_test. cbn [dotAll orb]. now apply H.
Qed.

(** [\s+(.+)$] on white space followed by the rest of the text. *)
Lemma line_tail_match sp t pv caps :
  sp <> [] -> forallb is_space sp = true ->
  t <> [] -> head_lacks is_space t = true -> lacks lt t = true ->
  rmatch id_code fm tail (MState pv (sp ++ t)) caps final
  = Some ([], (1, t) :: caps).
Proof.
  intros Hs1 Hs2 Ht1 Ht2 Ht3. rewrite rmatch_Seq.
  apply (@greedy_plus_run fm Space is_space); try assumption;
    [reflexivity|].
  rewrite rmatch_Seq. rewrite <- (app_nil_r t) at 1.
  apply (@greedy_group_run fm 1 Dot (dot_test fm)); try assumption;
    try reflexivity.
Qed.
End LineTail.

Section LineConstructs.
Local Abbreviation eqc c := (N.eqb (ch c)).
Local Abbreviation lt := is_line_terminator.
Local Abbreviation rep := (replace id_code id_code).
Local Abbreviation rall := (replace_all id_code id_code).
Local Abbreviation line_re l :=
  (re_gm (seq_of [Bol; Lit l; Plus Space; Group 1 (Plus Dot); Eol])).

Lemma blank_space sp : forallb is_blank sp = true -> forallb is_space sp = true.
Proof.
  rewrite !forallb_forall. intros H a Ha. specialize (H a Ha).
  unfold is_blank in H. apply andb_true_iff in H. tauto.
Qed.

Lemma blank_lacks_lt sp : forallb is_blank sp = true -> lacks lt sp = true.
Proof.
  unfold lacks. rewrite !forallb_forall. intros H a Ha. specialize (H a Ha).
  unfold is_blank in H. apply andb_true_iff in H. tauto.
Qed.

Lemma rmatch_Bol f (x : mstate N) caps (k : cont N) :
  rmatch id_code f Bol x caps k
  = if at_bol id_code f x then k x caps else None.
Proof. reflexivity. Qed.

Lemma match_at_line_hit l sp t :
  sp <> [] -> forallb is_space sp = true ->
  t <> [] -> head_lacks is_space t = true -> lacks lt t = true ->
  match_at id_code (line_re l) (MState None (l ++ sp ++ t))
  = Some ([], [(1, t)]).
Proof.
  intros. unfold match_at. cbn [source reflags re_gm seq_of].
  rewrite rmatch_Seq, rmatch_Bol. cbn [at_bol prev].
  rewrite rmatch_Seq, rmatch_Lit, strip_app.
  now apply line_tail_match.
Qed.

Lemma match_at_line_miss l p s :
  starts_with id_code l s = false ->
  match_at id_code (line_re l) (MState p s) = None.
Proof.
  intros H. unfold match_at. cbn [source reflags re_gm seq_of].
  rewrite rmatch_Seq, rmatch_Bol.
  destruct (at_bol id_code (Flags true false) (MState p s)); [|reflexivity].
  rewrite rmatch_Seq, rmatch_Lit.
  apply (strip_starts_with id_code l p s) in H. now rewrite H.
Qed.

(** A pattern with [^] that does not match at the start of a line leaves
    the line alone. *)
Lemma replace_line_miss re tm s :
  global re = true -> anchored re = true ->
  match_at id_code re (MState None s) = None ->
  lacks lt s = true -> rep re tm s = s.
Proof.
  intros G Ha M Hs. unfold replace. rewrite G.
  destruct s as [|a s]; [cbn [replace_all]; now rewrite M|].
  rewrite replace_all_miss by exact M. f_equal.
  unfold lacks in Hs. cbn [forallb] in Hs. apply andb_true_iff in Hs.
  destruct Hs as [Hb Hs]. apply negb_true_iff in Hb.
  now apply replace_all_inside.
Qed.

(** A line taken as a whole by a pattern [^l\s+(.+)$]. *)
Lemma replace_line_hit c l tag sp t :
  sp <> [] -> forallb is_space sp = true ->
  t <> [] -> head_lacks is_space t = true -> lacks lt t = true ->
  rep (line_re (c :: l)) (wrap_tag tag) ((c :: l) ++ sp ++ t)
  = (str "<" ++ str tag ++ str ">") ++ t
      ++ (str "</" ++ str tag ++ str ">").
Proof.
  intros. unfold replace. cbn [global re_gm].
  rewrite <- (app_nil_r ((c :: l) ++ sp ++ t)).
  rewrite (@replace_all_hit _ _ _ _ _ [(1, t)]).
  - rewrite (@replace_all_end (N.eqb c)).
    + unfold subst, wrap_tag.
      cbn [flat_map subst_item get_capture find fst snd Nat.eqb].
      rewrite !map_id_code. now rewrite !app_nil_r.
    + cbn [source re_gm seq_of Lit first_in zero_width atom_in].
      apply N.eqb_refl.
  - discriminate.
  - rewrite app_nil_r. now apply match_at_line_hit.
Qed.

Lemma starts_with_longer c : forall k n a w,
  n < k -> (c =? a)%N = false ->
  starts_with id_code (repeat c k) (repeat c n ++ a :: w) = false.
Proof.
  induction k as [|k IH]; intros n a w Hn Ha; [lia|].
  destruct n as [|n]; cbn [repeat app starts_with]; unfold id_code at 1.
  - now rewrite Ha.
  - rewrite N.eqb_refl. cbn [andb]. apply IH; [lia | exact Ha].
Qed.
End LineConstructs.

Section Ranges.
Local Abbreviation eqc c := (N.eqb (ch c)).
Local Abbreviation lt := is_line_terminator.
Local Abbreviation rep := (replace id_code id_code).

(** The stages from the code blocks to the images. *)
Lemma inline_quiet s :
  lacks (eqc "`") s = true -> lacks (eqc "[") s = true ->
  images id_code id_code
    (links id_code id_code
       (inline_code id_code id_code (code_blocks id_code id_code s))) = s.
Proof.
  intros H1 H2. unfold code_blocks, inline_code, links, images.
  rewrite (@replace_quiet (eqc "`") re_code_block),
    (@replace_quiet (eqc "`") re_inline_code),
    (@replace_quiet (eqc "[") re_link),
    (@replace_eats (eqc "[") re_image); auto.
Qed.

(** The stages from the rules to the ordered lists. *)
Lemma rules_to_lists_line s :
  lacks lt s = true -> head_lacks block_opener s = true ->
  find_sub id_code (str "<li>") s = None ->
  ordered_lists id_code id_code
    (unordered_lists id_code id_code
       (blockquotes id_code id_code
          (horizontal_rules id_code id_code s))) = s.
Proof.
  intros T Hh Hli.
  assert (W : forall g, (forall a, g a = true -> block_opener a = true) ->
                        head_lacks g s = true).
  { intros g Hg. eapply head_lacks_weaken; [exact Hg | exact Hh]. }
  unfold horizontal_rules. cbv zeta.
  rewrite (@replace_line (eqc "-") re_hr_dash),
    (@replace_line (eqc "*") re_hr_star); try reflexivity; try exact T.
  2: { apply W. intros a E. unfold block_opener.
       rewrite (N.eqb_sym a (ch "*")), E. auto with bool. }
  2: { apply W. intros a E. unfold block_opener.
       rewrite (N.eqb_sym a (ch "-")), E. auto with bool. }
  unfold blockquotes.
  rewrite (@replace_line (eqc "&") re_blockquote); try reflexivity;
    try exact T.
  2: { apply W. intros a E. unfold block_opener.
       rewrite (N.eqb_sym a (ch "&")), E. auto with bool. }
  unfold unordered_lists, ul_items.
  rewrite (@replace_line (fun c => (c =? ch "*")%N || (c =? ch "-")%N)
             re_ul_item); try reflexivity; try exact T.
  2: { apply W. intros a E. unfold block_opener.
       destruct (a =? ch "*")%N, (a =? ch "-")%N; try discriminate;
         auto with bool. }
  unfold ul_wrap, replace. cbn [global re_ul_wrap re_s].
  rewrite ul_wrap_step, Hli.
  unfold ordered_lists.
  rewrite (@replace_line is_digit re_ol_item); try reflexivity;
    try exact T.
  apply W. intros a E. unfold block_opener. rewrite E. auto with bool.
Qed.

Lemma paragraphs_block s :
  lacks lt s = true -> starts_block s = true ->
  paragraphs id_code id_code s = s.
Proof.
  intros Hs Hb. unfold paragraphs, split.
  rewrite split_go_single.
  - cbn [rev app map join]. unfold wrap_para.
    now rewrite wrap_test, Hb.
  - eapply lacks_weaken; [|exact Hs]. intros a E. apply N.eqb_eq in E.
    now subst a.
Qed.

Lemma blank_prose sp : forallb is_blank sp = true -> prose sp = true.
Proof.
  unfold prose, lacks. rewrite !forallb_forall. intros H a Ha.
  specialize (H a Ha). unfold is_blank in H. apply andb_true_iff in H.
  destruct H as [H1 H2]. apply negb_true_iff in H2.
  unfold markup_char. rewrite H2, orb_false_r.
  destruct (a =? ch "&")%N eqn:E1;
    [apply N.eqb_eq in E1; subst a; discriminate|].
  destruct (a =? ch "<")%N eqn:E2;
    [apply N.eqb_eq in E2; subst a; discriminate|].
  destruct (a =? ch ">")%N eqn:E3;
    [apply N.eqb_eq in E3; subst a; discriminate|].
  destruct (a =? ch "*")%N eqn:E4;
    [apply N.eqb_eq in E4; subst a; discriminate|].
  destruct (a =? ch "_")%N eqn:E5;
    [apply N.eqb_eq in E5; subst a; discriminate|].
  destruct (a =? ch "`")%N eqn:E6;
    [apply N.eqb_eq in E6; subst a; discriminate|].
  destruct (a =? ch "[")%N eqn:E7;
    [apply N.eqb_eq in E7; subst a; discriminate|].
  reflexivity.
Qed.

Lemma blank_not c a : is_space (ch c) = false -> is_blank a = true ->
                      (ch c =? a)%N = false.
Proof.
  intros Hc Ha. destruct (ch c =? a)%N eqn:E; [|reflexivity].
  apply N.eqb_eq in E. subst a. unfold is_blank in Ha.
  now rewrite Hc in Ha.
Qed.

Lemma prose_lacks_lt s : prose s = true -> lacks lt s = true.
Proof. intros H. now apply lacks_lt_of_later, lacks_later_of_prose. Qed.

(** A text between an opening and a closing tag. *)
Section Tagged1.
Variables (t0 : N) (tag' t : list N).
Local Abbreviation tag := (t0 :: tag').
Local Abbreviation tagged :=
  ((str "<" ++ tag ++ str ">") ++ t ++ (str "</" ++ tag ++ str ">")).
Hypothesis tag_prose : prose tag = true.
Hypothesis t_prose : prose t = true.

Lemma tagged_lacks g :
  g (ch "<") = false -> g (ch ">") = false -> g (ch "/") = false ->
  (forall s, prose s = true -> lacks g s = true) ->
  lacks g tagged = true.
Proof.
  intros G1 G2 G3 H.
  pose proof (@wrapped_lacks t0 tag' tag_prose [] t [] eq_refl t_prose
                eq_refl g G1 G2 G3 H) as W.
  cbn [app] in W. rewrite app_nil_r in W. exact W.
Qed.

Lemma tagged_no_li :
  (ch "l" =? t0)%N = false ->
  find_sub id_code (str "<li>") tagged = None.
Proof.
  intros Hl.
  pose proof (@wrapped_no_li t0 tag' tag_prose Hl [] t [] eq_refl t_prose
                eq_refl) as W.
  cbn [app] in W. rewrite app_nil_r in W. exact W.
Qed.

(** The stages after the headers leave a header alone. *)
Lemma after_headers_block :
  (ch "l" =? t0)%N = false -> is_block_letter t0 = true ->
  paragraphs id_code id_code
    (ordered_lists id_code id_code
       (unordered_lists id_code id_code
          (blockquotes id_code id_code
             (horizontal_rules id_code id_code
                (images id_code id_code
                   (links id_code id_code
                      (inline_code id_code id_code
                         (code_blocks id_code id_code
                            (italic id_code id_code
                               (bold id_code id_code tagged))))))))))
  = tagged.
Proof.
  intros Hl Hb.
  assert (L : forall c, markup_char (ch c) = true ->
                        c <> "<"%char -> c <> ">"%char ->
                        lacks (eqc c) tagged = true).
  { intros c Hc N1 N2. apply tagged_lacks.
    - apply N.eqb_neq. intros E. apply N1.
      apply (f_equal ascii_of_N) in E. unfold ch in E.
      now rewrite !ascii_N_embedding in E.
    - apply N.eqb_neq. intros E. apply N2.
      apply (f_equal ascii_of_N) in E. unfold ch in E.
      now rewrite !ascii_N_embedding in E.
    - destruct (ch c =? ch "/")%N eqn:E; [|reflexivity].
      apply N.eqb_eq in E. now rewrite E in Hc.
    - intros s. now apply lacks_char_of_prose. }
  assert (T : lacks lt tagged = true).
  { apply tagged_lacks; try reflexivity. apply prose_lacks_lt. }
  rewrite bold_quiet, italic_quiet, inline_quiet;
    try (apply L; [reflexivity | discriminate | discriminate]).
  rewrite rules_to_lists_line; [| exact T | reflexivity |
                                now apply tagged_no_li].
  apply paragraphs_block; [exact T|].
  change (str "<") with [ch "<"]. cbn [app starts_block].
  now rewrite Hb.
Qed.
End Tagged1.
End Ranges.

Section Headers.
Local Abbreviation eqc c := (N.eqb (ch c)).
Local Abbreviation lt := is_line_terminator.
Local Abbreviation rep := (replace id_code id_code).
Variables sp t : list N.
Hypothesis sp_cons : sp <> [].
Hypothesis sp_blank : forallb is_blank sp = true.
Hypothesis t_cons : t <> [].
Hypothesis t_head : head_lacks is_space t = true.
Hypothesis Ht : prose t = true.

Lemma hashes_prose n : prose (repeat (ch "#") n) = true.
Proof. induction n as [|n IH]; [reflexivity | exact IH]. Qed.

Lemma header_text_prose n : prose (repeat (ch "#") n ++ sp ++ t) = true.
Proof.
  rewrite !prose_app, hashes_prose, Ht.
  now rewrite blank_prose by exact sp_blank.
Qed.

Lemma header_longer_miss k n p :
  n < k ->
  match_at id_code ((re_gm (seq_of [Bol; Lit (repeat (ch "#") k); Plus Space;
                                       Group 1 (Plus Dot); Eol]))) (MState p (repeat (ch "#") n ++ sp ++ t))
  = None.
Proof.
  intros H. apply match_at_line_miss.
  destruct sp as [|a sp']; [congruence|]. cbn [app].
  apply starts_with_longer; [exact H|].
  cbn [forallb] in sp_blank. apply andb_true_iff in sp_blank.
  apply (@blank_not "#"); [reflexivity | tauto].
Qed.

(** The six header patterns, longest first, on a line of [n] hashes. *)
Lemma headers_level n :
  1 <= n <= 6 ->
  headers id_code id_code (repeat (ch "#") n ++ sp ++ t)
  = (str "<h" ++ [N.of_nat (48 + n)] ++ str ">") ++ t
      ++ (str "</h" ++ [N.of_nat (48 + n)] ++ str ">").
Proof.
  intros Hn.
  assert (M : forall k n, n < k ->
              match_at id_code ((re_gm (seq_of [Bol; Lit (repeat (ch "#") k); Plus Space;
                                       Group 1 (Plus Dot); Eol])))
                (MState None (repeat (ch "#") n ++ sp ++ t)) = None)
    by (intros; now apply header_longer_miss).
  assert (L : forall n, lacks lt (repeat (ch "#") n ++ sp ++ t) = true)
    by (intros; apply prose_lacks_lt, header_text_prose).
  unfold headers. cbv zeta.
  destruct n as [|[|[|[|[|[|[|n]]]]]]]; try lia.
  - assert (Hit : rep (re_header "#") (wrap_tag "h1") (repeat (ch "#") 1 ++ sp ++ t)
                  = (str "<" ++ str "h1" ++ str ">") ++ t ++ (str "</" ++ str "h1" ++ str ">"))
      by (apply (@replace_line_hit (ch "#") (repeat (ch "#") 0) "h1" sp t);
          auto using blank_space, prose_lacks_lt).
    rewrite (@replace_line_miss (re_header "######") (wrap_tag "h6") _ eq_refl eq_refl
               (M 6 1 ltac:(lia)) (L 1)).
    rewrite (@replace_line_miss (re_header "#####") (wrap_tag "h5") _ eq_refl eq_refl
               (M 5 1 ltac:(lia)) (L 1)).
    rewrite (@replace_line_miss (re_header "####") (wrap_tag "h4") _ eq_refl eq_refl
               (M 4 1 ltac:(lia)) (L 1)).
    rewrite (@replace_line_miss (re_header "###") (wrap_tag "h3") _ eq_refl eq_refl
               (M 3 1 ltac:(lia)) (L 1)).
    rewrite (@replace_line_miss (re_header "##") (wrap_tag "h2") _ eq_refl eq_refl
               (M 2 1 ltac:(lia)) (L 1)).
    rewrite Hit.
    reflexivity.
  - assert (Hit : rep (re_header "##") (wrap_tag "h2") (repeat (ch "#") 2 ++ sp ++ t)
                  = (str "<" ++ str "h2" ++ str ">") ++ t ++ (str "</" ++ str "h2" ++ str ">"))
      by (apply (@replace_line_hit (ch "#") (repeat (ch "#") 1) "h2" sp t);
          auto using blank_space, prose_lacks_lt).
    rewrite (@replace_line_miss (re_header "######") (wrap_tag "h6") _ eq_refl eq_refl
               (M 6 2 ltac:(lia)) (L 2)).
    rewrite (@replace_line_miss (re_header "#####") (wrap_tag "h5") _ eq_refl eq_refl
               (M 5 2 ltac:(lia)) (L 2)).
    rewrite (@replace_line_miss (re_header "####") (wrap_tag "h4") _ eq_refl eq_refl
               (M 4 2 ltac:(lia)) (L 2)).
    rewrite (@replace_line_miss (re_header "###") (wrap_tag "h3") _ eq_refl eq_refl
               (M 3 2 ltac:(lia)) (L 2)).
    rewrite Hit.
    rewrite (@replace_line (eqc "#") (re_header "#") (wrap_tag "h1")
               ((str "<" ++ str "h2" ++ str ">") ++ t
                  ++ (str "</" ++ str "h2" ++ str ">"))
               eq_refl eq_refl eq_refl eq_refl)
      by (apply (@tagged_lacks (ch "h") [ch "2"] t eq_refl Ht);
          try reflexivity; apply prose_lacks_lt).
    reflexivity.
  - assert (Hit : rep (re_header "###") (wrap_tag "h3") (repeat (ch "#") 3 ++ sp ++ t)
                  = (str "<" ++ str "h3" ++ str ">") ++ t ++ (str "</" ++ str "h3" ++ str ">"))
      by (apply (@replace_line_hit (ch "#") (repeat (ch "#") 2) "h3" sp t);
          auto using blank_space, prose_lacks_lt).
    rewrite (@replace_line_miss (re_header "######") (wrap_tag "h6") _ eq_refl eq_refl
               (M 6 3 ltac:(lia)) (L 3)).
    rewrite (@replace_line_miss (re_header "#####") (wrap_tag "h5") _ eq_refl eq_refl
               (M 5 3 ltac:(lia)) (L 3)).
    rewrite (@replace_line_miss (re_header "####") (wrap_tag "h4") _ eq_refl eq_refl
               (M 4 3 ltac:(lia)) (L 3)).
    rewrite Hit.
    rewrite (@replace_line (eqc "#") (re_header "##") (wrap_tag "h2")
               ((str "<" ++ str "h3" ++ str ">") ++ t
                  ++ (str "</" ++ str "h3" ++ str ">"))
               eq_refl eq_refl eq_refl eq_refl)
      by (apply (@tagged_lacks (ch "h") [ch "3"] t eq_refl Ht);
          try reflexivity; apply prose_lacks_lt).
    rewrite (@replace_line (eqc "#") (re_header "#") (wrap_tag "h1")
               ((str "<" ++ str "h3" ++ str ">") ++ t
                  ++ (str "</" ++ str "h3" ++ str ">"))
               eq_refl eq_refl eq_refl eq_refl)
      by (apply (@tagged_lacks (ch "h") [ch "3"] t eq_refl Ht);
          try reflexivity; apply prose_lacks_lt).
    reflexivity.
  - assert (Hit : rep (re_header "####") (wrap_tag "h4") (repeat (ch "#") 4 ++ sp ++ t)
                  = (str "<" ++ str "h4" ++ str ">") ++ t ++ (str "</" ++ str "h4" ++ str ">"))
      by (apply (@replace_line_hit (ch "#") (repeat (ch "#") 3) "h4" sp t);
          auto using blank_space, prose_lacks_lt).
    rewrite (@replace_line_miss (re_header "######") (wrap_tag "h6") _ eq_refl eq_refl
               (M 6 4 ltac:(lia)) (L 4)).
    rewrite (@replace_line_miss (re_header "#####") (wrap_tag "h5") _ eq_refl eq_refl
               (M 5 4 ltac:(lia)) (L 4)).
    rewrite Hit.
    rewrite (@replace_line (eqc "#") (re_header "###") (wrap_tag "h3")
               ((str "<" ++ str "h4" ++ str ">") ++ t
                  ++ (str "</" ++ str "h4" ++ str ">"))
               eq_refl eq_refl eq_refl eq_refl)
      by (apply (@tagged_lacks (ch "h") [ch "4"] t eq_refl Ht);
          try reflexivity; apply prose_lacks_lt).
    rewrite (@replace_line (eqc "#") (re_header "##") (wrap_tag "h2")
               ((str "<" ++ str "h4" ++ str ">") ++ t
                  ++ (str "</" ++ str "h4" ++ str ">"))
               eq_refl eq_refl eq_refl eq_refl)
      by (apply (@tagged_lacks (ch "h") [ch "4"] t eq_refl Ht);
          try reflexivity; apply prose_lacks_lt).
    rewrite (@replace_line (eqc "#") (re_header "#") (wrap_tag "h1")
               ((str "<" ++ str "h4" ++ str ">") ++ t
                  ++ (str "</" ++ str "h4" ++ str ">"))
               eq_refl eq_refl eq_refl eq_refl)
      by (apply (@tagged_lacks (ch "h") [ch "4"] t eq_refl Ht);
          try reflexivity; apply prose_lacks_lt).
    reflexivity.
  - assert (Hit : rep (re_header "#####") (wrap_tag "h5") (repeat (ch "#") 5 ++ sp ++ t)
                  = (str "<" ++ str "h5" ++ str ">") ++ t ++ (str "</" ++ str "h5" ++ str ">"))
      by (apply (@replace_line_hit (ch "#") (repeat (ch "#") 4) "h5" sp t);
          auto using blank_space, prose_lacks_lt).
    rewrite (@replace_line_miss (re_header "######") (wrap_tag "h6") _ eq_refl eq_refl
               (M 6 5 ltac:(lia)) (L 5)).
    rewrite Hit.
    rewrite (@replace_line (eqc "#") (re_header "####") (wrap_tag "h4")
               ((str "<" ++ str "h5" ++ str ">") ++ t
                  ++ (str "</" ++ str "h5" ++ str ">"))
               eq_refl eq_refl eq_refl eq_refl)
      by (apply (@tagged_lacks (ch "h") [ch "5"] t eq_refl Ht);
          try reflexivity; apply prose_lacks_lt).
    rewrite (@replace_line (eqc "#") (re_header "###") (wrap_tag "h3")
               ((str "<" ++ str "h5" ++ str ">") ++ t
                  ++ (str "</" ++ str "h5" ++ str ">"))
               eq_refl eq_refl eq_refl eq_refl)
      by (apply (@tagged_lacks (ch "h") [ch "5"] t eq_refl Ht);
          try reflexivity; apply prose_lacks_lt).
    rewrite (@replace_line (eqc "#") (re_header "##") (wrap_tag "h2")
               ((str "<" ++ str "h5" ++ str ">") ++ t
                  ++ (str "</" ++ str "h5" ++ str ">"))
               eq_refl eq_refl eq_refl eq_refl)
      by (apply (@tagged_lacks (ch "h") [ch "5"] t eq_refl Ht);
          try reflexivity; apply prose_lacks_lt).
    rewrite (@replace_line (eqc "#") (re_header "#") (wrap_tag "h1")
               ((str "<" ++ str "h5" ++ str ">") ++ t
                  ++ (str "</" ++ str "h5" ++ str ">"))
               eq_refl eq_refl eq_refl eq_refl)
      by (apply (@tagged_lacks (ch "h") [ch "5"] t eq_refl Ht);
          try reflexivity; apply prose_lacks_lt).
    reflexivity.
  - assert (Hit : rep (re_header "######") (wrap_tag "h6") (repeat (ch "#") 6 ++ sp ++ t)
                  = (str "<" ++ str "h6" ++ str ">") ++ t ++ (str "</" ++ str "h6" ++ str ">"))
      by (apply (@replace_line_hit (ch "#") (repeat (ch "#") 5) "h6" sp t);
          auto using blank_space, prose_lacks_lt).
    rewrite Hit.
    rewrite (@replace_line (eqc "#") (re_header "#####") (wrap_tag "h5")
               ((str "<" ++ str "h6" ++ str ">") ++ t
                  ++ (str "</" ++ str "h6" ++ str ">"))
               eq_refl eq_refl eq_refl eq_refl)
      by (apply (@tagged_lacks (ch "h") [ch "6"] t eq_refl Ht);
          try reflexivity; apply prose_lacks_lt).
    rewrite (@replace_line (eqc "#") (re_header "####") (wrap_tag "h4")
               ((str "<" ++ str "h6" ++ str ">") ++ t
                  ++ (str "</" ++ str "h6" ++ str ">"))
               eq_refl eq_refl eq_refl eq_refl)
      by (apply (@tagged_lacks (ch "h") [ch "6"] t eq_refl Ht);
          try reflexivity; apply prose_lacks_lt).
    rewrite (@replace_line (eqc "#") (re_header "###") (wrap_tag "h3")
               ((str "<" ++ str "h6" ++ str ">") ++ t
                  ++ (str "</" ++ str "h6" ++ str ">"))
               eq_refl eq_refl eq_refl eq_refl)
      by (apply (@tagged_lacks (ch "h") [ch "6"] t eq_refl Ht);
          try reflexivity; apply prose_lacks_lt).
    rewrite (@replace_line (eqc "#") (re_header "##") (wrap_tag "h2")
               ((str "<" ++ str "h6" ++ str ">") ++ t
                  ++ (str "</" ++ str "h6" ++ str ">"))
               eq_refl eq_refl eq_refl eq_refl)
      by (apply (@tagged_lacks (ch "h") [ch "6"] t eq_refl Ht);
          try reflexivity; apply prose_lacks_lt).
    rewrite (@replace_line (eqc "#") (re_header "#") (wrap_tag "h1")
               ((str "<" ++ str "h6" ++ str ">") ++ t
                  ++ (str "</" ++ str "h6" ++ str ">"))
               eq_refl eq_refl eq_refl eq_refl)
      by (apply (@tagged_lacks (ch "h") [ch "6"] t eq_refl Ht);
          try reflexivity; apply prose_lacks_lt).
    reflexivity.
Qed.

Lemma convert_header n :
  1 <= n <= 6 ->
  convert id_code id_code (repeat (ch "#") n ++ sp ++ t)
  = (str "<h" ++ [N.of_nat (48 + n)] ++ str ">") ++ t
      ++ (str "</h" ++ [N.of_nat (48 + n)] ++ str ">").
Proof.
  intros Hn. unfold convert, later_stages. cbv zeta.
  rewrite escape_html_quiet
    by apply lacks_special_of_prose, header_text_prose.
  rewrite headers_level by exact Hn.
  apply (@after_headers_block (ch "h") [N.of_nat (48 + n)] t);
    try reflexivity; try exact Ht.
  destruct n as [|[|[|[|[|[|[|n]]]]]]]; try lia; reflexivity.
Qed.
End Headers.

Section NoHeader.
Local Abbreviation eqc c := (N.eqb (ch c)).
Local Abbreviation lt := is_line_terminator.
Local Abbreviation rep := (replace id_code id_code).
Local Abbreviation line_re l :=
  (re_gm (seq_of [Bol; Lit l; Plus Space; Group 1 (Plus Dot); Eol])).

Lemma match_at_line_nospace l p r :
  head_lacks is_space r = true ->
  match_at id_code (line_re l) (MState p (l ++ r)) = None.
Proof.
  intros H. unfold match_at. cbn [source reflags re_gm seq_of].
  rewrite rmatch_Seq, rmatch_Bol.
  destruct (at_bol id_code (Flags true false) (MState p (l ++ r)));
    [|reflexivity].
  rewrite rmatch_Seq, rmatch_Lit, strip_app, rmatch_Seq. unfold Plus.
  rewrite (@rmatch_plus _ id_code (Flags true false) Space is_space true
             _ r _ _ eq_refl).
  destruct r as [|a r]; [reflexivity|].
  cbn [head_lacks] in H. apply negb_true_iff in H.
  unfold id_code. now rewrite H.
Qed.

Variables (n : nat) (w : list N).
Hypothesis n_pos : 1 <= n.
Hypothesis w_prose : prose w = true.
Hypothesis w_head : head_lacks (eqc "#") w = true.
Hypothesis no_space : 7 <= n \/ head_lacks is_space w = true.

Lemma hashes_miss k p :
  1 <= k <= 6 ->
  match_at id_code (line_re (repeat (ch "#") k))
    (MState p (repeat (ch "#") n ++ w)) = None.
Proof.
  intros Hk. destruct (Nat.lt_ge_cases n k) as [Hlt|Hge].
  - apply match_at_line_miss.
    destruct no_space as [H7|Hs]; [lia|].
    destruct w as [|a w'].
    + rewrite app_nil_r. clear - Hlt. revert k Hlt.
      induction n as [|m IH]; intros k Hlt; destruct k as [|k]; try lia;
        cbn [repeat starts_with]; [reflexivity|].
      unfold id_code at 1. rewrite N.eqb_refl. cbn [andb].
      apply IH. lia.
    + apply starts_with_longer; [exact Hlt|].
      cbn [head_lacks] in w_head. now apply negb_true_iff in w_head.
  - replace (repeat (ch "#") n ++ w)
      with (repeat (ch "#") k ++ (repeat (ch "#") (n - k) ++ w)).
    + apply match_at_line_nospace.
      destruct (n - k) as [|d] eqn:D; [|reflexivity].
      cbn [repeat app]. destruct no_space as [H7|Hs]; [lia | exact Hs].
    + rewrite app_assoc, <- repeat_app. f_equal. f_equal. lia.
Qed.

Lemma hashes_text_prose : prose (repeat (ch "#") n ++ w) = true.
Proof. now rewrite prose_app, hashes_prose, w_prose. Qed.

Lemma headers_no_header :
  headers id_code id_code (repeat (ch "#") n ++ w)
  = repeat (ch "#") n ++ w.
Proof.
  assert (L : lacks lt (repeat (ch "#") n ++ w) = true)
    by apply prose_lacks_lt, hashes_text_prose.
  unfold headers. cbv zeta.
  rewrite (@replace_line_miss (re_header "######") (wrap_tag "h6") _
             eq_refl eq_refl (hashes_miss (k:=6) None ltac:(lia)) L).
  rewrite (@replace_line_miss (re_header "#####") (wrap_tag "h5") _
             eq_refl eq_refl (hashes_miss (k:=5) None ltac:(lia)) L).
  rewrite (@replace_line_miss (re_header "####") (wrap_tag "h4") _
             eq_refl eq_refl (hashes_miss (k:=4) None ltac:(lia)) L).
  rewrite (@replace_line_miss (re_header "###") (wrap_tag "h3") _
             eq_refl eq_refl (hashes_miss (k:=3) None ltac:(lia)) L).
  rewrite (@replace_line_miss (re_header "##") (wrap_tag "h2") _
             eq_refl eq_refl (hashes_miss (k:=2) None ltac:(lia)) L).
  now rewrite (@replace_line_miss (re_header "#") (wrap_tag "h1") _
             eq_refl eq_refl (hashes_miss (k:=1) None ltac:(lia)) L).
Qed.

Lemma convert_no_header :
  convert id_code id_code (repeat (ch "#") n ++ w)
  = str "<p>" ++ (repeat (ch "#") n ++ w) ++ str "</p>".
Proof.
  pose proof hashes_text_prose as Hp.
  pose proof (lacks_later_of_prose _ Hp) as Hl.
  unfold convert, later_stages. cbv zeta.
  rewrite escape_html_quiet by now apply lacks_special_of_prose.
  rewrite headers_no_header.
  rewrite bold_quiet by (apply lacks_char_of_later; auto).
  rewrite italic_quiet by (apply lacks_char_of_later; auto).
  apply after_italic_line; [exact Hl | | |].
  - destruct n as [|m]; [lia | reflexivity].
  - apply find_sub_lacks. now apply lacks_char_of_prose.
  - apply starts_block_lacks. destruct n as [|m]; [lia | reflexivity].
Qed.
End NoHeader.
(** * The claims *)

(** The converter on the examples of the specification. *)
Example parse_examples :
  parse_string "# Title" = Normal (str "<h1>Title</h1>") /\
  parse_string "`code`" = Normal (str "<p><code>code</code></p>") /\
  parse_string "[link](http://example.com)"
  = Normal (str "<p><a href=" ++ [dquote] ++ str "http://example.com"
            ++ [dquote] ++ str " target=" ++ [dquote] ++ str "_blank"
            ++ [dquote] ++ str ">link</a></p>") /\
  parse (JString (lines ["- a"; "- b"]))
  = Normal (lines ["<ul><li>a</li>"; "<li>b</li></ul>"]) /\
  parse_string "5 < 3 & 2 > 1" = Normal (str "<p>5 &lt; 3 &amp; 2 &gt; 1</p>") /\
  parse (JString (lines ["#"; ""; "foo"])) = Normal (str "<h1>foo</h1>") /\
  parse (JBoolean true) = Throw TypeError.
Proof. repeat split; vm_compute; reflexivity. Qed.

(** The traced converter on [a<b]: the letters keep their origin, the
    entity and the paragraph tags come from templates. *)
Example parse_traced_example :
  parse_traced (str "a<b")
  = map tgen (str "<p>") ++ [(ch "a", FromNote)] ++ map tgen (str "&lt;")
    ++ [(ch "b", FromNote)] ++ map tgen (str "</p>").
Proof. vm_compute; reflexivity. Qed.


(** C2, as the code has it.  The fenced-code stage rewrites the text it
    receives, which is the note after escaping and after the header, bold
    and italic stages.  In that text it takes the first triple backtick and
    the first triple backtick after it, replaces the span by
    [<pre><code>content</code></pre>] with the content copied unchanged, and
    goes on after the span; a triple backtick that is not closed is left as
    it is.  The stages after it run on the result. *)
Theorem code_blocks_characterised :
  (forall t,
     code_blocks id_code id_code t
     = match find_sub id_code (str "```") t with
       | None => t
       | Some (pre, w) =>
           match find_sub id_code (str "```") w with
           | None => t
           | Some (c, post) =>
               pre ++ str "<pre><code>" ++ c ++ str "</code></pre>"
               ++ code_blocks id_code id_code post
           end
       end) /\
  (forall s,
     convert id_code id_code s
     = paragraphs id_code id_code
         (ordered_lists id_code id_code
            (unordered_lists id_code id_code
               (blockquotes id_code id_code
                  (horizontal_rules id_code id_code
                     (images id_code id_code
                        (links id_code id_code
                           (inline_code id_code id_code
                              (code_blocks id_code id_code
                                 (italic id_code id_code
                                    (bold id_code id_code
                                       (headers id_code id_code
                                          (escape_html id_code id_code
                                             s))))))))))))).
Proof.
  split; [|reflexivity].
  intros t. apply code_blocks_step.
Qed.

(** C2, counterexample.  Bold markers inside a fence are rewritten: the
    content of the [<pre><code>] element is not the text of the span. *)
Lemma code_blocks_characterised_cex :
  parse (JString (lines ["```"; "**a**"; "```"]))
  = Normal (lines ["<pre><code>"; "<strong>a</strong>"; "</code></pre>"]) /\
  parse (JString (lines ["```"; "**a**"; "```"]))
  <> Normal (lines ["<pre><code>"; "**a**"; "</code></pre>"]) /\
  parse (JString (lines ["```"; "# h"; "```"]))
  = Normal (lines ["<pre><code>"; "<h1>h</h1>"; "</code></pre>"]).
Proof.
  split; [vm_compute; reflexivity|].
  split; [vm_compute; discriminate|].
  vm_compute; reflexivity.
Qed.

(** C3.  On [![alt](u)] the link stage, which runs before the image stage,
    takes [[alt](u)] for a link, so the image pattern never matches: the
    result is [!] followed by an [<a>] element.  The image stage alone would
    produce the [<img>] element, and an image with an empty text between the
    brackets, which the link pattern does not match, does become [<img>]. *)
Theorem parse_image_with_alt :
  parse_string "![alt](u)"
  = Normal (str "<p>!<a href=" ++ [dquote] ++ str "u" ++ [dquote]
            ++ str " target=" ++ [dquote] ++ str "_blank" ++ [dquote]
            ++ str ">alt</a></p>") /\
  images id_code id_code (str "![alt](u)")
  = str "<img src=" ++ [dquote] ++ str "u" ++ [dquote] ++ str " alt="
    ++ [dquote] ++ str "alt" ++ [dquote] ++ str " />" /\
  parse_string "![](u)"
  = Normal (str "<p><img src=" ++ [dquote] ++ str "u" ++ [dquote]
            ++ str " alt=" ++ [dquote] ++ [dquote] ++ str " /></p>").
Proof. repeat split; vm_compute; reflexivity. Qed.

(** C4, as the code has it.  The wrapping step puts one [<ul>...</ul>]
    around everything from the first [<li>] of the text to its last
    [</li>]: all the runs of items and the text between them.  What comes
    before the first [<li>] and after the last [</li>] stays outside; a text
    without [<li>], or without [</li>] after the first [<li>], is left as it
    is. *)
Theorem ul_wrap_characterised (t : list N) :
  ul_wrap id_code id_code t
  = match find_sub id_code (str "<li>") t with
    | None => t
    | Some (pre, w) =>
        match find_last_sub id_code (str "</li>") w with
        | None => t
        | Some (mid, post) =>
            pre ++ str "<ul>" ++ (str "<li>" ++ mid ++ str "</li>")
            ++ str "</ul>" ++ post
        end
    end.
Proof. apply ul_wrap_step. Qed.

(** C4, counterexample.  Two runs of items with a paragraph between them:
    the [<ul>] opens before the first run and closes after the second, with
    the paragraph inside. *)
Lemma ul_wrap_characterised_cex :
  unordered_lists id_code id_code (lines ["- a"; ""; "text"; ""; "- b"])
  = lines ["<ul><li>a</li>"; ""; "text"; ""; "<li>b</li></ul>"] /\
  unordered_lists id_code id_code (lines ["- a"; ""; "text"; ""; "- b"])
  <> lines ["<ul><li>a</li></ul>"; ""; "text"; ""; "<li>b</li>"] /\
  parse (JString (lines ["- a"; ""; "text"; ""; "- b"]))
  = Normal (lines ["<ul><li>a</li>"; "<p>text</p>"; "<p><li>b</li></ul></p>"]).
Proof.
  split; [vm_compute; reflexivity|].
  split; [vm_compute; discriminate|].
  vm_compute; reflexivity.
Qed.

(** C5.  On the note [***] the italic stage, which runs before the
    horizontal-rule stage, reads the three stars as an emphasised star, so
    the rule pattern for [***] never sees its line: [parse("***")] is
    [<p><em>*</em></p>], not [<hr>].  The rule stage alone does turn [***]
    into [<hr>], and the note [---] does become [<hr>].  A line [---] that
    follows a line with nothing but [#] is taken by the header pattern,
    whose [\s+] runs over the line break. *)
Theorem parse_three_stars :
  parse_string "***" = Normal (str "<p><em>*</em></p>") /\
  italic id_code id_code (str "***") = str "<em>*</em>" /\
  horizontal_rules id_code id_code (str "***") = str "<hr>" /\
  parse_string "---" = Normal (str "<hr>") /\
  parse (JString (lines ["#"; "---"])) = Normal (str "<h1>---</h1>").
Proof. repeat split; vm_compute; reflexivity. Qed.

(** C6, as the code has it.  A segment that begins with [<li] is wrapped in
    [<p>...</p>]: [l] is not among the letters that the paragraph test
    accepts after [<]. *)
Theorem li_segment_wrapped (tl : list N) :
  wrap_para id_code id_code (str "<li" ++ tl)
  = str "<p>" ++ (str "<li" ++ tl) ++ str "</p>".
Proof.
  unfold wrap_para. rewrite wrap_test. reflexivity.
Qed.

(** C6, counterexample.  The ordered list [1. a], [2. b] becomes a run of
    two [<li>] elements, one segment, and that segment is wrapped in
    [<p>...</p>]. *)
Lemma li_segment_wrapped_cex :
  ordered_lists id_code id_code (lines ["1. a"; "2. b"])
  = lines ["<li>a</li>"; "<li>b</li>"] /\
  wrap_para id_code id_code (lines ["<li>a</li>"; "<li>b</li>"])
  <> lines ["<li>a</li>"; "<li>b</li>"] /\
  parse (JString (lines ["1. a"; "2. b"]))
  = Normal (lines ["<p><li>a</li>"; "<li>b</li></p>"]).
Proof.
  split; [vm_compute; reflexivity|].
  split; [vm_compute; discriminate|].
  vm_compute; reflexivity.
Qed.


(** C8.  [parse] returns the empty string on the empty string and on an
    absent argument ([undefined] or [null]): the guard [if (!markdown)]
    returns [''] before any stage runs. *)
Theorem parse_empty_or_absent :
  parse (JString []) = Normal [] /\
  parse JUndefined = Normal [] /\
  parse JNull = Normal [].
Proof. repeat split. Qed.

(** C9.  [parse("**bold** and *italic*")] is
    [<p><strong>bold</strong> and <em>italic</em></p>].  The bold stage runs
    first and turns [**bold**] into one [<strong>] element, leaving the
    single stars to the italic stage; the italic stage alone would have
    split the text at the double stars. *)
Theorem parse_bold_and_italic :
  parse_string "**bold** and *italic*"
  = Normal (str "<p><strong>bold</strong> and <em>italic</em></p>") /\
  bold id_code id_code (str "**bold** and *italic*")
  = str "<strong>bold</strong> and *italic*" /\
  italic id_code id_code (str "<strong>bold</strong> and *italic*")
  = str "<strong>bold</strong> and <em>italic</em>" /\
  italic id_code id_code (str "**bold** and *italic*")
  = str "<em>*bold</em><em> and </em>italic*".
Proof. repeat split; vm_compute; reflexivity. Qed.


(** * Inline code and links in prose *)

Section InlineCode.
Local Abbreviation eqc c := (N.eqb (ch c)).
Local Abbreviation lt := is_line_terminator.
Local Abbreviation bt := (ch "`").
Local Abbreviation rep := (replace id_code id_code).
Local Abbreviation rall := (replace_all id_code id_code).
Local Abbreviation ff := (Flags false false).

Lemma rmatch_Chr f c (x : mstate N) caps (k : cont N) :
  rmatch id_code f (Chr c) x caps k = eat id_code (N.eqb c) x caps k.
Proof. reflexivity. Qed.

Lemma not_class c (s : list N) :
  lacks (N.eqb c) s = true ->
  forallb (class_test true [CChar c]) s = true.
Proof.
  unfold lacks. rewrite !forallb_forall. intros H a Ha.
  specialize (H a Ha). unfold class_test.
  cbn [existsb class_item_test orb xorb]. rewrite orb_false_r.
  now rewrite N.eqb_sym.
Qed.

Lemma prose_block_opener s :
  prose s = true -> head_lacks line_opener s = true ->
  head_lacks block_opener s = true.
Proof.
  intros Hp Hh. destruct s as [|a s]; [reflexivity|].
  cbn [head_lacks] in *. unfold prose, lacks in Hp. cbn [forallb] in Hp.
  apply andb_true_iff in Hp. destruct Hp as [Hp _].
  unfold markup_char in Hp. unfold line_opener in Hh.
  unfold block_opener.
  destruct (a =? ch "-")%N, (a =? ch "*")%N, (a =? ch "&")%N,
    (a =? ch "#")%N, (is_digit a); cbn in *;
    try reflexivity; try discriminate;
    rewrite ?orb_true_r in Hp; discriminate.
Qed.

Lemma match_at_code_block_single p w :
  head_lacks (eqc "`") w = true ->
  match_at id_code re_code_block (MState p (bt :: w)) = None.
Proof.
  intros H. rewrite match_at_code_block.
  replace (starts_with id_code (str "```") (bt :: w)) with false;
    [reflexivity|].
  change (str "```") with [bt; bt; bt]. cbn [starts_with].
  unfold id_code at 1. rewrite N.eqb_refl. cbn [andb].
  destruct w as [|a w]; [reflexivity|].
  cbn [head_lacks] in H. apply negb_true_iff in H.
  unfold id_code at 1. now rewrite H.
Qed.

Lemma match_at_inline_code p c post :
  c <> [] -> lacks (eqc "`") c = true ->
  match_at id_code re_inline_code (MState p (bt :: c ++ bt :: post))
  = Some (post, [(1, c)]).
Proof.
  intros Hne Hc. unfold match_at.
  cbn [source reflags re_inline_code re_g seq_of].
  rewrite rmatch_Seq, rmatch_Chr. unfold eat. cbn [rest].
  unfold id_code at 1. rewrite N.eqb_refl. rewrite rmatch_Seq.
  apply (@greedy_group_run ff 1 (Class true [CChar bt])
           (class_test true [CChar bt])); try assumption.
  - reflexivity.
  - now apply not_class.
  - reflexivity.
  - rewrite rmatch_Chr. unfold eat. cbn [rest]. unfold id_code.
    now rewrite N.eqb_refl.
Qed.

Variables pre c post : list N.
Hypothesis pre_prose : prose pre = true.
Hypothesis c_prose : prose c = true.
Hypothesis post_prose : prose post = true.
Hypothesis c_cons : c <> [].
Hypothesis pre_opens : head_lacks line_opener pre = true.

Local Abbreviation L := (fun s H => lacks_char_of_prose "`" s eq_refl H).

Lemma code_blocks_single :
  rep re_code_block tmpl_code_block (pre ++ str "`" ++ c ++ str "`" ++ post)
  = pre ++ str "`" ++ c ++ str "`" ++ post.
Proof.
  unfold replace. cbn [global re_code_block re_g].
  rewrite (@replace_all_pass (eqc "`") re_code_block _ eq_refl pre)
    by now apply L.
  f_equal. change (str "`") with [bt]. cbn [app].
  rewrite replace_all_miss.
  2: { destruct c as [|a u]; [congruence|].
       apply match_at_code_block_single.
       apply (lacks_head _ _ (L _ c_prose)). }
  f_equal.
  rewrite (@replace_all_pass (eqc "`") re_code_block _ eq_refl c)
    by now apply L.
  f_equal. rewrite replace_all_miss.
  2: { apply match_at_code_block_single. now apply lacks_head, L. }
  f_equal.
  now apply (@replace_all_quiet (eqc "`") re_code_block _ _ post eq_refl), L.
Qed.

Lemma inline_code_span :
  rep re_inline_code (wrap_tag "code")
    (pre ++ str "`" ++ c ++ str "`" ++ post)
  = pre ++ (str "<" ++ str "code" ++ str ">") ++ c
        ++ (str "</" ++ str "code" ++ str ">") ++ post.
Proof.
  unfold replace. cbn [global re_inline_code re_g].
  rewrite (@replace_all_pass (eqc "`") re_inline_code _ eq_refl pre)
    by now apply L.
  replace (str "`" ++ c ++ str "`" ++ post)
    with ((str "`" ++ c ++ str "`") ++ post)
    by now rewrite <- !app_assoc.
  rewrite (@replace_all_hit _ _ _ _ _ [(1, c)]).
  - rewrite (@replace_all_quiet (eqc "`") re_inline_code _ _ post eq_refl)
      by now apply L.
    unfold subst, wrap_tag.
    cbn [flat_map subst_item get_capture find fst snd Nat.eqb].
    rewrite !map_id_code. now rewrite <- !app_assoc.
  - change (str "`") with [bt]. discriminate.
  - rewrite <- !app_assoc. apply match_at_inline_code; auto.
    now apply L.
Qed.

(** A span between backticks in prose. *)
Lemma convert_code_span :
  convert id_code id_code (pre ++ str "`" ++ c ++ str "`" ++ post)
  = str "<p>" ++ pre ++ str "<code>" ++ c ++ str "</code>" ++ post
        ++ str "</p>".
Proof.
  assert (P : forall g, g bt = false ->
                (forall s, prose s = true -> lacks g s = true) ->
                lacks g (pre ++ str "`" ++ c ++ str "`" ++ post) = true).
  { intros g G H. rewrite !lacks_app.
    rewrite (H pre), (H c), (H post) by assumption.
    change (str "`") with [bt]. unfold lacks. cbn [forallb].
    now rewrite G. }
  unfold convert, later_stages. cbv zeta.
  rewrite escape_html_quiet
    by (apply P; [reflexivity | apply lacks_special_of_prose]).
  rewrite headers_line.
  2: { destruct pre as [|a pre']; [reflexivity|].
       eapply head_lacks_weaken; [|exact pre_opens]. intros x E.
       unfold line_opener. now rewrite N.eqb_sym, E. }
  2: { apply P; [reflexivity | apply prose_lacks_lt]. }
  rewrite bold_quiet, italic_quiet
    by (apply P; [reflexivity | intros s; now apply lacks_char_of_prose]).
  unfold code_blocks, inline_code.
  rewrite code_blocks_single, inline_code_span.
  assert (W : forall g, g (ch "<") = false -> g (ch ">") = false ->
                        g (ch "/") = false ->
                        (forall s, prose s = true -> lacks g s = true) ->
                        lacks g (pre ++ (str "<" ++ str "code" ++ str ">")
                                     ++ c
                                     ++ (str "</" ++ str "code" ++ str ">")
                                     ++ post) = true).
  { intros g G1 G2 G3 H.
    now apply (@wrapped_lacks (ch "c") (str "ode") eq_refl). }
  unfold links, images.
  rewrite (@replace_quiet (eqc "[") re_link),
    (@replace_eats (eqc "[") re_image); try reflexivity;
    try (apply W; try reflexivity; intros s; now apply lacks_char_of_prose).
  rewrite rules_to_lists_line.
  - rewrite paragraphs_line.
    + now rewrite <- !app_assoc.
    + apply W; try reflexivity. apply prose_lacks_lt.
    + destruct pre as [|a pre'].
      * reflexivity.
      * apply starts_block_lacks.
        assert (Q : lacks (eqc "<") (a :: pre') = true)
          by now apply lacks_char_of_prose.
        apply lacks_head in Q. exact Q.
  - apply W; try reflexivity. apply prose_lacks_lt.
  - destruct pre as [|a pre']; [reflexivity|].
    now apply (@prose_block_opener (a :: pre')).
  - now apply (@wrapped_no_li (ch "c") (str "ode") eq_refl eq_refl).
Qed.
End InlineCode.

Section Links.
Local Abbreviation eqc c := (N.eqb (ch c)).
Local Abbreviation lt := is_line_terminator.
Local Abbreviation rep := (replace id_code id_code).
Local Abbreviation ff := (Flags false false).
Local Abbreviation a_open := (str "<a href=" ++ [dquote]).
Local Abbreviation a_mid :=
  ([dquote] ++ str " target=" ++ [dquote] ++ str "_blank" ++ [dquote]
            ++ str ">").
Local Abbreviation a_close := (str "</a>").

Lemma match_at_link p label url post :
  label <> [] -> url <> [] ->
  lacks (eqc "]") label = true -> lacks (eqc ")") url = true ->
  match_at id_code re_link
    (MState p (str "[" ++ label ++ str "](" ++ url ++ str ")" ++ post))
  = Some (post, [(2, url); (1, label)]).
Proof.
  intros H1 H2 H3 H4. unfold match_at.
  cbn [source reflags re_link re_g seq_of].
  change (str "[") with [ch "["]. change (str "](") with [ch "]"; ch "("].
  change (str ")") with [ch ")"]. cbn [app].
  rewrite rmatch_Seq, rmatch_Chr. unfold eat. cbn [rest].
  unfold id_code at 1. rewrite N.eqb_refl. rewrite rmatch_Seq.
  apply (@greedy_group_run ff 1 (Class true [CChar (ch "]")])
           (class_test true [CChar (ch "]")]));
    [reflexivity | assumption | now apply not_class | reflexivity |].
  rewrite rmatch_Seq, rmatch_Chr. unfold eat. cbn [rest].
  unfold id_code at 1. rewrite N.eqb_refl.
  rewrite rmatch_Seq, rmatch_Chr. unfold eat. cbn [rest].
  unfold id_code at 1. rewrite N.eqb_refl. rewrite rmatch_Seq.
  apply (@greedy_group_run ff 2 (Class true [CChar (ch ")")])
           (class_test true [CChar (ch ")")]));
    [reflexivity | assumption | now apply not_class | reflexivity |].
  rewrite rmatch_Chr. unfold eat. cbn [rest]. unfold id_code.
  now rewrite N.eqb_refl.
Qed.

Section LinkStage.
Variables pre label url post : list N.
Hypothesis pre_lacks : lacks (eqc "[") pre = true.
Hypothesis post_lacks : lacks (eqc "[") post = true.
Hypothesis label_cons : label <> [].
Hypothesis url_cons : url <> [].
Hypothesis label_bracket : lacks (eqc "]") label = true.
Hypothesis url_paren : lacks (eqc ")") url = true.

Lemma link_span :
  rep re_link tmpl_link
    (pre ++ str "[" ++ label ++ str "](" ++ url ++ str ")" ++ post)
  = pre ++ a_open ++ url ++ a_mid ++ label ++ a_close ++ post.
Proof.
  unfold replace. cbn [global re_link re_g].
  rewrite (@replace_all_pass (eqc "[") re_link _ eq_refl pre)
    by assumption.
  replace (str "[" ++ label ++ str "](" ++ url ++ str ")" ++ post)
    with ((str "[" ++ label ++ str "](" ++ url ++ str ")") ++ post)
    by now rewrite <- !app_assoc.
  rewrite (@replace_all_hit _ _ _ _ _ [(2, url); (1, label)]).
  - rewrite (@replace_all_quiet (eqc "[") re_link _ _ post eq_refl)
      by assumption.
    unfold subst, tmpl_link.
    cbn [flat_map subst_item get_capture find fst snd Nat.eqb].
    rewrite !map_id_code. now rewrite <- !app_assoc.
  - change (str "[") with [ch "["]. discriminate.
  - rewrite <- !app_assoc. now apply match_at_link.
Qed.
End LinkStage.

Variables pre label url post : list N.
Hypothesis pre_prose : prose pre = true.
Hypothesis label_prose : prose label = true.
Hypothesis url_prose : prose url = true.
Hypothesis post_prose : prose post = true.
Hypothesis label_cons : label <> [].
Hypothesis url_cons : url <> [].
Hypothesis label_bracket : lacks (eqc "]") label = true.
Hypothesis url_paren : lacks (eqc ")") url = true.
Hypothesis pre_opens : head_lacks line_opener pre = true.

Local Abbreviation source_text :=
  (pre ++ str "[" ++ label ++ str "](" ++ url ++ str ")" ++ post).
Local Abbreviation linked :=
  (pre ++ a_open ++ url ++ a_mid ++ label ++ a_close ++ post).

Lemma link_source_lacks g :
  g (ch "[") = false -> g (ch "]") = false -> g (ch "(") = false ->
  g (ch ")") = false ->
  (forall s, prose s = true -> lacks g s = true) ->
  lacks g source_text = true.
Proof.
  intros G1 G2 G3 G4 H. rewrite !lacks_app.
  rewrite (H pre), (H label), (H url), (H post) by assumption.
  change (str "[") with [ch "["]. change (str "](") with [ch "]"; ch "("].
  change (str ")") with [ch ")"]. unfold lacks. cbn [forallb].
  now rewrite G1, G2, G3, G4.
Qed.

Lemma linked_lacks g :
  lacks g a_open = true -> lacks g a_mid = true ->
  lacks g a_close = true ->
  (forall s, prose s = true -> lacks g s = true) ->
  lacks g linked = true.
Proof.
  intros G1 G2 G3 H.
  rewrite (@lacks_app g pre), (@lacks_app g a_open), (@lacks_app g url),
    (@lacks_app g a_mid), (@lacks_app g label), (@lacks_app g a_close).
  rewrite (H pre), (H label), (H url), (H post) by assumption.
  now rewrite G1, G2, G3.
Qed.

Lemma linked_no_li : find_sub id_code (str "<li>") linked = None.
Proof.
  assert (L : forall s, prose s = true -> lacks (eqc "<") s = true)
    by (intros s; now apply lacks_char_of_prose).
  apply (@find_sub_none_pass (ch "<") (str "li>") pre); [now apply L|].
  apply (@find_sub_none_second (ch "<") (ch "l") (str "i>") (ch "a")
           ((str " href=" ++ [dquote]) ++ url ++ a_mid ++ label
              ++ a_close ++ post)); [reflexivity|].
  apply (@find_sub_none_pass (ch "<") (str "li>")
           (ch "a" :: str " href=" ++ [dquote])); [reflexivity|].
  apply (@find_sub_none_pass (ch "<") (str "li>") url); [now apply L|].
  apply (@find_sub_none_pass (ch "<") (str "li>") a_mid); [reflexivity|].
  apply (@find_sub_none_pass (ch "<") (str "li>") label); [now apply L|].
  apply (@find_sub_none_second (ch "<") (ch "l") (str "i>") (ch "/")
           (str "a>" ++ post)); [reflexivity|].
  apply (@find_sub_none_pass (ch "<") (str "li>") (str "/a>"));
    [reflexivity|].
  now apply (@find_sub_lacks (ch "<") (str "li>")), L.
Qed.

(** A link in prose. *)
Lemma convert_link :
  convert id_code id_code source_text
  = str "<p>" ++ pre ++ a_open ++ url ++ a_mid ++ label ++ a_close
        ++ post ++ str "</p>".
Proof.
  unfold convert, later_stages. cbv zeta.
  rewrite escape_html_quiet
    by (apply link_source_lacks; try reflexivity;
        apply lacks_special_of_prose).
  rewrite headers_line.
  2: { destruct pre as [|a pre']; [reflexivity|].
       eapply head_lacks_weaken; [|exact pre_opens]. intros x E.
       unfold line_opener. now rewrite N.eqb_sym, E. }
  2: { apply link_source_lacks; try reflexivity. apply prose_lacks_lt. }
  rewrite bold_quiet, italic_quiet
    by (apply link_source_lacks; try reflexivity;
        intros s; now apply lacks_char_of_prose).
  unfold code_blocks, inline_code.
  rewrite (@replace_quiet (eqc "`") re_code_block),
    (@replace_quiet (eqc "`") re_inline_code); try reflexivity;
    try (apply link_source_lacks; try reflexivity;
         intros s; now apply lacks_char_of_prose).
  unfold links, images.
  rewrite link_span by (auto; now apply lacks_char_of_prose).
  rewrite (@replace_eats (eqc "[") re_image); try reflexivity.
  2: { apply linked_lacks; try reflexivity.
       intros s; now apply lacks_char_of_prose. }
  rewrite rules_to_lists_line.
  - rewrite paragraphs_line.
    + now rewrite <- !app_assoc.
    + apply linked_lacks; try reflexivity. apply prose_lacks_lt.
    + destruct pre as [|a pre'].
      * reflexivity.
      * apply starts_block_lacks.
        assert (Q : lacks (eqc "<") (a :: pre') = true)
          by now apply lacks_char_of_prose.
        apply lacks_head in Q. exact Q.
  - apply linked_lacks; try reflexivity. apply prose_lacks_lt.
  - destruct pre as [|a pre']; [reflexivity|].
    now apply (@prose_block_opener (a :: pre')).
  - apply linked_no_li.
Qed.
End Links.

(** * Quotes and list items *)

Section LineStages.
Local Abbreviation eqc c := (N.eqb (ch c)).
Local Abbreviation lt := is_line_terminator.
Local Abbreviation rep := (replace id_code id_code).
Local Abbreviation rall := (replace_all id_code id_code).
Local Abbreviation fm := (Flags true false).

Lemma horizontal_rules_line s :
  lacks lt s = true -> head_lacks (eqc "-") s = true ->
  head_lacks (eqc "*") s = true ->
  horizontal_rules id_code id_code s = s.
Proof.
  intros T H1 H2. unfold horizontal_rules. cbv zeta.
  rewrite (@replace_line (eqc "-") re_hr_dash) by auto.
  now rewrite (@replace_line (eqc "*") re_hr_star) by auto.
Qed.

Lemma blockquotes_line s :
  lacks lt s = true -> head_lacks (eqc "&") s = true ->
  blockquotes id_code id_code s = s.
Proof.
  intros T H. unfold blockquotes.
  now rewrite (@replace_line (eqc "&") re_blockquote) by auto.
Qed.

Lemma ul_items_line s :
  lacks lt s = true -> head_lacks (eqc "-") s = true ->
  head_lacks (eqc "*") s = true ->
  ul_items id_code id_code s = s.
Proof.
  intros T H1 H2. unfold ul_items.
  rewrite (@replace_line (fun c => (c =? ch "*")%N || (c =? ch "-")%N)
             re_ul_item); auto.
  destruct s as [|a s]; [reflexivity|]. cbn [head_lacks] in *.
  apply negb_true_iff in H1, H2. rewrite (N.eqb_sym a (ch "*")), H2.
  now rewrite (N.eqb_sym a (ch "-")), H1.
Qed.

Lemma ul_wrap_none s :
  find_sub id_code (str "<li>") s = None -> ul_wrap id_code id_code s = s.
Proof.
  intros H. unfold ul_wrap, replace. cbn [global re_ul_wrap re_s].
  now rewrite ul_wrap_step, H.
Qed.

Lemma ordered_lists_line s :
  lacks lt s = true -> head_lacks is_digit s = true ->
  ordered_lists id_code id_code s = s.
Proof.
  intros T H. unfold ordered_lists.
  now rewrite (@replace_line is_digit re_ol_item) by auto.
Qed.

Lemma digit_prose ds : forallb is_digit ds = true -> prose ds = true.
Proof.
  unfold prose, lacks. rewrite !forallb_forall. intros H a Ha.
  specialize (H a Ha). unfold markup_char.
  destruct (a =? ch "&")%N eqn:E1;
    [apply N.eqb_eq in E1; subst a; discriminate|].
  destruct (a =? ch "<")%N eqn:E2;
    [apply N.eqb_eq in E2; subst a; discriminate|].
  destruct (a =? ch ">")%N eqn:E3;
    [apply N.eqb_eq in E3; subst a; discriminate|].
  destruct (a =? ch "*")%N eqn:E4;
    [apply N.eqb_eq in E4; subst a; discriminate|].
  destruct (a =? ch "_")%N eqn:E5;
    [apply N.eqb_eq in E5; subst a; discriminate|].
  destruct (a =? ch "`")%N eqn:E6;
    [apply N.eqb_eq in E6; subst a; discriminate|].
  destruct (a =? ch "[")%N eqn:E7;
    [apply N.eqb_eq in E7; subst a; discriminate|].
  destruct (is_line_terminator a) eqn:E8; [|reflexivity].
  unfold is_line_terminator in E8. unfold is_digit in H.
  apply andb_true_iff in H. destruct H as [H1 H2].
  apply N.leb_le in H1, H2.
  repeat (apply orb_true_iff in E8; destruct E8 as [E8|E8]);
    apply N.eqb_eq in E8; lia.
Qed.

Lemma find_last_close_li (t : list N) :
  find_last_sub id_code (str "</li>") (t ++ str "</li>") = Some (t, []).
Proof.
  induction t as [|a t IH].
  - reflexivity.
  - cbn [app find_last_sub]. now rewrite IH.
Qed.

(** [/^---$/] and [/^\*\*\*$/] on a line that does not begin with the
    run. *)
Lemma match_at_rule_miss l p s :
  starts_with id_code l s = false ->
  match_at id_code (re_gm (seq_of [Bol; Lit l; Eol])) (MState p s) = None.
Proof.
  intros H. unfold match_at. cbn [source reflags re_gm seq_of].
  rewrite rmatch_Seq, rmatch_Bol.
  destruct (at_bol id_code fm (MState p s)); [|reflexivity].
  rewrite rmatch_Seq, rmatch_Lit.
  apply (strip_starts_with id_code l p s) in H. now rewrite H.
Qed.

(** The italic pattern needs a second star. *)
Lemma match_at_italic_star_single p w :
  lacks (eqc "*") w = true ->
  match_at id_code re_italic_star (MState p (ch "*" :: w)) = None.
Proof.
  intros H. unfold match_at.
  cbn [source reflags re_italic_star re_g seq_of].
  rewrite rmatch_Seq, rmatch_Chr. unfold eat. cbn [rest].
  unfold id_code at 1. rewrite N.eqb_refl.
  match goal with |- ?m = None => destruct m as [res|] eqn:M end;
    [|reflexivity].
  apply rmatch_sound in M. destruct M as (y & caps' & HD & _).
  destruct (@denotes_eats (eqc "*") (Flags false false)
              (Seq (Group 1 (PlusLazy Dot)) (Chr (ch "*")))
              _ _ _ _ eq_refl HD) as (u & E & G).
  cbn [rest] in E. rewrite E, lacks_app, lacks_existsb, G in H.
  discriminate.
Qed.
End LineStages.

Section LineItems.
Local Abbreviation eqc c := (N.eqb (ch c)).
Local Abbreviation lt := is_line_terminator.
Local Abbreviation rep := (replace id_code id_code).
Local Abbreviation rall := (replace_all id_code id_code).
Local Abbreviation fm := (Flags true false).
Variables sp t : list N.
Hypothesis sp_cons : sp <> [].
Hypothesis sp_blank : forallb is_blank sp = true.
Hypothesis t_cons : t <> [].
Hypothesis t_head : head_lacks is_space t = true.
Hypothesis t_prose : prose t = true.

Lemma rest_prose : prose (sp ++ t) = true.
Proof. now rewrite prose_app, blank_prose, t_prose. Qed.

Lemma rest_head c : is_space (ch c) = false ->
                    head_lacks (eqc c) (sp ++ t) = true.
Proof.
  intros Hc. destruct sp as [|a sp']; [congruence|].
  cbn [app head_lacks]. cbn [forallb] in sp_blank.
  apply andb_true_iff in sp_blank. apply negb_true_iff.
  now apply blank_not.
Qed.

(** A line [head ++ sp ++ t] whose head is a few known characters. *)
Lemma line_lacks (hd : list N) g :
  lacks g hd = true ->
  (forall s, prose s = true -> lacks g s = true) ->
  lacks g (hd ++ sp ++ t) = true.
Proof.
  intros G H. rewrite (@lacks_app g hd), G. now apply H, rest_prose.
Qed.

Lemma tagged_line_lacks (tg : string) g :
  lacks g (str "<" ++ str tg ++ str ">") = true ->
  lacks g (str "</" ++ str tg ++ str ">") = true ->
  (forall s, prose s = true -> lacks g s = true) ->
  lacks g ((str "<" ++ str tg ++ str ">") ++ t
             ++ (str "</" ++ str tg ++ str ">")) = true.
Proof.
  intros G1 G2 H.
  rewrite (@lacks_app g (str "<" ++ str tg ++ str ">")), (@lacks_app g t).
  now rewrite G1, G2, H.
Qed.

(** *** Quotes *)

Lemma escape_quote :
  escape_html id_code id_code (str ">" ++ sp ++ t)
  = str "&gt;" ++ sp ++ t.
Proof.
  unfold escape_html.
  rewrite (@replace_quiet (eqc "&") re_amp), (@replace_quiet (eqc "<") re_lt);
    try reflexivity;
    try (apply line_lacks; [reflexivity|];
         intros s; now apply lacks_char_of_prose).
  unfold replace. cbn [global re_gt re_g].
  rewrite (@replace_all_hit re_gt _ None (str ">") (sp ++ t) []).
  - rewrite (@replace_all_quiet (eqc ">") re_gt); try reflexivity.
    apply lacks_char_of_prose; [reflexivity | apply rest_prose].
  - discriminate.
  - reflexivity.
Qed.

Lemma convert_quote :
  convert id_code id_code (str ">" ++ sp ++ t)
  = str "<blockquote>" ++ t ++ str "</blockquote>".
Proof.
  assert (Hit : rep re_blockquote (wrap_tag "blockquote")
                  (str "&gt;" ++ sp ++ t)
                = (str "<" ++ str "blockquote" ++ str ">") ++ t
                    ++ (str "</" ++ str "blockquote" ++ str ">"))
    by (apply (@replace_line_hit (ch "&") (str "gt;") "blockquote" sp t);
        auto using blank_space, prose_lacks_lt).
  assert (P : forall g, lacks g (str "&gt;") = true ->
                (forall s, prose s = true -> lacks g s = true) ->
                lacks g (str "&gt;" ++ sp ++ t) = true)
    by (intros; now apply line_lacks).
  assert (Q : forall g,
                lacks g (str "<" ++ str "blockquote" ++ str ">") = true ->
                lacks g (str "</" ++ str "blockquote" ++ str ">") = true ->
                (forall s, prose s = true -> lacks g s = true) ->
                lacks g ((str "<" ++ str "blockquote" ++ str ">") ++ t
                           ++ (str "</" ++ str "blockquote" ++ str ">"))
                = true)
    by (intros; now apply tagged_line_lacks).
  unfold convert, later_stages. cbv zeta.
  rewrite escape_quote.
  rewrite headers_line;
    [| reflexivity | apply P; [reflexivity | apply prose_lacks_lt]].
  rewrite bold_quiet, italic_quiet, inline_quiet
    by (apply P; [reflexivity | intros s; now apply lacks_char_of_prose]).
  rewrite horizontal_rules_line;
    [| apply P; [reflexivity | apply prose_lacks_lt]
     | reflexivity | reflexivity].
  unfold blockquotes. rewrite Hit.
  unfold unordered_lists.
  rewrite ul_items_line;
    [| apply Q; try reflexivity; apply prose_lacks_lt
     | reflexivity | reflexivity].
  rewrite ul_wrap_none
    by now apply (@tagged_no_li (ch "b") (str "lockquote") t eq_refl).
  rewrite ordered_lists_line;
    [| apply Q; try reflexivity; apply prose_lacks_lt | reflexivity].
  rewrite paragraphs_block;
    [| apply Q; try reflexivity; apply prose_lacks_lt | reflexivity].
  now rewrite <- !app_assoc.
Qed.

(** *** Items of an unordered list *)

Local Abbreviation bullet_class :=
  (Class false [CChar (ch "*"); CChar (ch "-")]).
Local Abbreviation is_bullet :=
  (fun c : N => (c =? ch "*")%N || (c =? ch "-")%N).
Local Abbreviation li_line :=
  ((str "<" ++ str "li" ++ str ">") ++ t ++ (str "</" ++ str "li" ++ str ">")).

Lemma li_line_lacks g :
  lacks g (str "<" ++ str "li" ++ str ">") = true ->
  lacks g (str "</" ++ str "li" ++ str ">") = true ->
  (forall s, prose s = true -> lacks g s = true) ->
  lacks g li_line = true.
Proof. intros. now apply tagged_line_lacks. Qed.

Lemma match_at_ul_item b :
  b = ch "-" \/ b = ch "*" ->
  match_at id_code re_ul_item (MState None (b :: sp ++ t))
  = Some ([], [(1, t)]).
Proof.
  intros Hb. unfold match_at. cbn [source reflags re_ul_item re_gm seq_of].
  rewrite rmatch_Seq, rmatch_Bol. cbn [at_bol prev].
  rewrite rmatch_Seq.
  rewrite (@rmatch_atom _ id_code fm bullet_class _ _ _ _ eq_refl).
  unfold eat. cbn [rest].
  replace (class_test false [CChar (ch "*"); CChar (ch "-")] (id_code b))
    with true by (destruct Hb; subst b; reflexivity).
  apply line_tail_match; auto using blank_space, prose_lacks_lt.
Qed.

Lemma ul_item_hit b :
  b = ch "-" \/ b = ch "*" ->
  rep re_ul_item (wrap_tag "li") (b :: sp ++ t) = li_line.
Proof.
  intros Hb. unfold replace. cbn [global re_ul_item re_gm].
  rewrite <- (app_nil_r (b :: sp ++ t)).
  rewrite (@replace_all_hit _ _ _ _ _ [(1, t)]).
  - rewrite (@replace_all_end is_bullet); [|reflexivity].
    unfold subst, wrap_tag.
    cbn [flat_map subst_item get_capture find fst snd Nat.eqb].
    rewrite !map_id_code. now rewrite !app_nil_r.
  - discriminate.
  - rewrite app_nil_r. now apply match_at_ul_item.
Qed.

Lemma bullet_lacks b g :
  g b = false -> (forall s, prose s = true -> lacks g s = true) ->
  lacks g (b :: sp ++ t) = true.
Proof.
  intros G H. apply (@line_lacks [b] g); [|exact H].
  unfold lacks. cbn [forallb]. now rewrite G.
Qed.

Lemma bold_bullet b :
  b = ch "-" \/ b = ch "*" ->
  bold id_code id_code (b :: sp ++ t) = b :: sp ++ t.
Proof.
  intros [Hb|Hb]; subst b.
  - apply bold_quiet; apply bullet_lacks; try reflexivity;
      intros s; now apply lacks_char_of_prose.
  - unfold bold. cbv zeta.
    replace (rep re_bold_star (wrap_tag "strong") (ch "*" :: sp ++ t))
      with (ch "*" :: sp ++ t).
    + apply bold_under_quiet. apply bullet_lacks; try reflexivity.
      intros s; now apply lacks_char_of_prose.
    + unfold replace. cbn [global re_bold_star re_g].
      rewrite replace_all_miss
        by (apply match_at_bold_star_single; now apply rest_head).
      f_equal. symmetry.
      apply (@replace_all_quiet (eqc "*") re_bold_star); [reflexivity|].
      apply lacks_char_of_prose; [reflexivity | apply rest_prose].
Qed.

Lemma italic_bullet b :
  b = ch "-" \/ b = ch "*" ->
  italic id_code id_code (b :: sp ++ t) = b :: sp ++ t.
Proof.
  intros [Hb|Hb]; subst b.
  - apply italic_quiet; apply bullet_lacks; try reflexivity;
      intros s; now apply lacks_char_of_prose.
  - unfold italic. cbv zeta.
    replace (rep re_italic_star (wrap_tag "em") (ch "*" :: sp ++ t))
      with (ch "*" :: sp ++ t).
    + apply italic_under_quiet. apply bullet_lacks; try reflexivity.
      intros s; now apply lacks_char_of_prose.
    + unfold replace. cbn [global re_italic_star re_g].
      assert (R : lacks (eqc "*") (sp ++ t) = true)
        by (apply lacks_char_of_prose; [reflexivity | apply rest_prose]).
      rewrite replace_all_miss
        by now apply match_at_italic_star_single.
      f_equal. symmetry.
      now apply (@replace_all_quiet (eqc "*") re_italic_star).
Qed.

Lemma horizontal_rules_bullet b :
  b = ch "-" \/ b = ch "*" ->
  horizontal_rules id_code id_code (b :: sp ++ t) = b :: sp ++ t.
Proof.
  intros Hb.
  assert (T : lacks lt (b :: sp ++ t) = true).
  { apply bullet_lacks; [destruct Hb; subst b; reflexivity|].
    apply prose_lacks_lt. }
  assert (M : forall c, c = "-"%char \/ c = "*"%char ->
                starts_with id_code (repeat (ch c) 3) (ch c :: sp ++ t)
                = false).
  { intros c Hc. destruct sp as [|a sp'] eqn:E; [congruence|].
    cbn [forallb] in sp_blank. apply andb_true_iff in sp_blank.
    apply (@starts_with_longer (ch c) 3 1 a (sp' ++ t)); [lia|].
    apply blank_not; [destruct Hc; subst c; reflexivity | tauto]. }
  unfold horizontal_rules. cbv zeta. destruct Hb; subst b.
  - rewrite (@replace_line_miss re_hr_dash _ _ eq_refl eq_refl
               (@match_at_rule_miss (str "---") None _
                  (M "-"%char (or_introl eq_refl))) T).
    now rewrite (@replace_line (eqc "*") re_hr_star) by auto.
  - rewrite (@replace_line (eqc "-") re_hr_dash) by auto.
    now rewrite (@replace_line_miss re_hr_star _ _ eq_refl eq_refl
               (@match_at_rule_miss (str "***") None _
                  (M "*"%char (or_intror eq_refl))) T).
Qed.

Lemma ul_wrap_item :
  ul_wrap id_code id_code li_line
  = str "<ul>" ++ li_line ++ str "</ul>".
Proof.
  unfold ul_wrap, replace. cbn [global re_ul_wrap re_s].
  rewrite ul_wrap_step.
  change (find_sub id_code (str "<li>") li_line)
    with (Some (@nil N, t ++ str "</li>")).
  cbv beta iota. rewrite find_last_close_li. cbn [app].
  now rewrite app_nil_r.
Qed.

Lemma convert_ul_item b :
  b = ch "-" \/ b = ch "*" ->
  convert id_code id_code (b :: sp ++ t)
  = str "<ul><li>" ++ t ++ str "</li></ul>".
Proof.
  intros Hb.
  assert (P : forall g, g b = false ->
                (forall s, prose s = true -> lacks g s = true) ->
                lacks g (b :: sp ++ t) = true)
    by (intros; now apply bullet_lacks).
  assert (B : forall c, c <> "-"%char -> c <> "*"%char ->
                        eqc c b = false).
  { intros c N1 N2. apply N.eqb_neq. intros E.
    destruct Hb; subst b; apply (f_equal ascii_of_N) in E; unfold ch in E;
      rewrite !ascii_N_embedding in E; congruence. }
  unfold convert, later_stages. cbv zeta.
  rewrite escape_html_quiet.
  2: { apply P; [destruct Hb; subst b; reflexivity|].
       apply lacks_special_of_prose. }
  rewrite headers_line.
  2: { cbn [head_lacks]. rewrite B; [reflexivity | discriminate..]. }
  2: { apply P; [destruct Hb; subst b; reflexivity|].
       apply prose_lacks_lt. }
  rewrite bold_bullet, italic_bullet by exact Hb.
  rewrite inline_quiet
    by (apply P; [apply B; discriminate |
                  intros s; now apply lacks_char_of_prose]).
  rewrite horizontal_rules_bullet by exact Hb.
  rewrite blockquotes_line.
  2: { apply P; [destruct Hb; subst b; reflexivity|].
       apply prose_lacks_lt. }
  2: { cbn [head_lacks]. rewrite B; [reflexivity | discriminate..]. }
  unfold unordered_lists, ul_items. rewrite ul_item_hit by exact Hb.
  rewrite ul_wrap_item.
  assert (T2 : lacks lt (str "<ul>" ++ li_line ++ str "</ul>") = true).
  { rewrite (@lacks_app lt (str "<ul>")), (@lacks_app lt li_line).
    rewrite li_line_lacks; try reflexivity. apply prose_lacks_lt. }
  rewrite ordered_lists_line; [| exact T2 | reflexivity].
  rewrite paragraphs_block; [| exact T2 | reflexivity].
  now rewrite <- !app_assoc.
Qed.

(** *** Items of an ordered list *)

Variable ds : list N.
Hypothesis ds_cons : ds <> [].
Hypothesis ds_digits : forallb is_digit ds = true.

Lemma digit_not c a : is_digit (ch c) = false -> is_digit a = true ->
                      (ch c =? a)%N = false.
Proof.
  intros Hc Ha. destruct (ch c =? a)%N eqn:E; [|reflexivity].
  apply N.eqb_eq in E. subst a. congruence.
Qed.

Lemma numbered_lacks g :
  g (ch ".") = false -> (forall s, prose s = true -> lacks g s = true) ->
  lacks g (ds ++ str "." ++ sp ++ t) = true.
Proof.
  intros G H. rewrite (@lacks_app g ds), (H ds) by now apply digit_prose.
  apply (@line_lacks (str ".") g); [|exact H].
  change (str ".") with [ch "."]. unfold lacks. cbn [forallb].
  now rewrite G.
Qed.

Lemma numbered_head c :
  is_digit (ch c) = false ->
  head_lacks (eqc c) (ds ++ str "." ++ sp ++ t) = true.
Proof.
  intros Hc. destruct ds as [|a ds']; [congruence|].
  cbn [app head_lacks]. cbn [forallb] in ds_digits.
  apply andb_true_iff in ds_digits. apply negb_true_iff.
  now apply digit_not.
Qed.

Lemma match_at_ol_item :
  match_at id_code re_ol_item (MState None (ds ++ str "." ++ sp ++ t))
  = Some ([], [(1, t)]).
Proof.
  unfold match_at. cbn [source reflags re_ol_item re_gm seq_of].
  rewrite rmatch_Seq, rmatch_Bol. cbn [at_bol prev].
  rewrite rmatch_Seq.
  apply (@greedy_plus_run fm Digit is_digit);
    [reflexivity | assumption | assumption | reflexivity |].
  change (str ".") with [ch "."]. cbn [app].
  rewrite rmatch_Seq, rmatch_Chr. unfold eat. cbn [rest].
  unfold id_code at 1. rewrite N.eqb_refl.
  apply line_tail_match; auto using blank_space, prose_lacks_lt.
Qed.

Lemma ol_item_hit :
  rep re_ol_item (wrap_tag "li") (ds ++ str "." ++ sp ++ t) = li_line.
Proof.
  unfold replace. cbn [global re_ol_item re_gm].
  rewrite <- (app_nil_r (ds ++ str "." ++ sp ++ t)).
  rewrite (@replace_all_hit _ _ _ _ _ [(1, t)]).
  - rewrite (@replace_all_end is_digit); [|reflexivity].
    unfold subst, wrap_tag.
    cbn [flat_map subst_item get_capture find fst snd Nat.eqb].
    rewrite !map_id_code. now rewrite !app_nil_r.
  - destruct ds; [congruence | discriminate].
  - rewrite app_nil_r. apply match_at_ol_item.
Qed.

Lemma convert_ol_item :
  convert id_code id_code (ds ++ str "." ++ sp ++ t)
  = str "<p><li>" ++ t ++ str "</li></p>".
Proof.
  assert (P : forall g, g (ch ".") = false ->
                (forall s, prose s = true -> lacks g s = true) ->
                lacks g (ds ++ str "." ++ sp ++ t) = true)
    by (intros; now apply numbered_lacks).
  assert (T : lacks lt (ds ++ str "." ++ sp ++ t) = true)
    by (apply P; [reflexivity | apply prose_lacks_lt]).
  unfold convert, later_stages. cbv zeta.
  rewrite escape_html_quiet
    by (apply P; [reflexivity | apply lacks_special_of_prose]).
  rewrite headers_line; [| now apply numbered_head | exact T].
  rewrite bold_quiet, italic_quiet, inline_quiet
    by (apply P; [reflexivity | intros s; now apply lacks_char_of_prose]).
  rewrite horizontal_rules_line;
    [| exact T | now apply numbered_head | now apply numbered_head].
  rewrite blockquotes_line; [| exact T | now apply numbered_head].
  unfold unordered_lists.
  rewrite ul_items_line;
    [| exact T | now apply numbered_head | now apply numbered_head].
  rewrite ul_wrap_none.
  2: { apply find_sub_lacks. apply P; [reflexivity|].
       intros s; now apply lacks_char_of_prose. }
  unfold ordered_lists. rewrite ol_item_hit.
  rewrite paragraphs_line.
  - now rewrite <- !app_assoc.
  - apply li_line_lacks; try reflexivity. apply prose_lacks_lt.
  - reflexivity.
Qed.
End LineItems.

(** * Paragraphs of prose *)

Section ManyLines.
Local Abbreviation eqc c := (N.eqb (ch c)).
Local Abbreviation lt := is_line_terminator.
Local Abbreviation rep := (replace id_code id_code).
Local Abbreviation rall := (replace_all id_code id_code).
Local Abbreviation nl2 := [newline; newline].

(** A pattern with [^] finds nothing in a text none of whose lines
    begins as the pattern wants. *)
Lemma replace_all_heads g re tm :
  anchored re = true -> first_in g (source re) = true ->
  forall s p, heads_lack g p s = true -> rall re tm p s 0 = s.
Proof.
  intros Ha Hf. induction s as [|a s IH]; intros p H.
  - now apply (@replace_all_end g).
  - cbn [heads_lack] in H. apply andb_true_iff in H. destruct H as [H1 H2].
    rewrite replace_all_miss; [f_equal; now apply IH|].
    destruct p as [b|].
    + destruct (is_line_terminator b) eqn:E.
      * apply negb_true_iff in H1. now apply (@match_at_none_first g).
      * destruct (match_at id_code re (MState (Some b) (a :: s))) eqn:M;
          [|reflexivity].
        apply (@match_at_anchored _ _ _ _ Ha) in M. congruence.
    + apply negb_true_iff in H1. now apply (@match_at_none_first g).
Qed.

Lemma replace_heads g re tm s :
  global re = true -> anchored re = true ->
  first_in g (source re) = true -> heads_lack g None s = true ->
  rep re tm s = s.
Proof.
  intros G Ha Hf H. unfold replace. rewrite G.
  now apply (@replace_all_heads g).
Qed.

Lemma heads_lack_weaken (g1 g2 : N -> bool) :
  (forall a, g1 a = true -> g2 a = true) ->
  forall s p, heads_lack g2 p s = true -> heads_lack g1 p s = true.
Proof.
  intros H. induction s as [|a s IH]; intros p Hs; [reflexivity|].
  cbn [heads_lack] in *. apply andb_true_iff in Hs. destruct Hs as [H1 H2].
  rewrite (IH _ H2), andb_true_r.
  assert (Q : negb (g2 a) = true -> negb (g1 a) = true).
  { intros Q. destruct (g1 a) eqn:E; [|reflexivity].
    now rewrite (H a E) in Q. }
  destruct p as [b|]; [destruct (is_line_terminator b)|]; auto.
Qed.

Lemma heads_lack_inside g : forall s b,
  lt b = false -> lacks lt s = true -> heads_lack g (Some b) s = true.
Proof.
  induction s as [|a s IH]; intros b Hb Hs; [reflexivity|].
  unfold lacks in Hs. cbn [forallb] in Hs. apply andb_true_iff in Hs.
  destruct Hs as [Ha Hs]. apply negb_true_iff in Ha.
  cbn [heads_lack]. rewrite Hb. cbn [andb]. now apply IH.
Qed.

Lemma heads_lack_line g s p :
  lacks lt s = true -> head_lacks g s = true -> heads_lack g p s = true.
Proof.
  intros Hs Hh. destruct s as [|a s]; [reflexivity|].
  unfold lacks in Hs. cbn [forallb] in Hs. apply andb_true_iff in Hs.
  destruct Hs as [Ha Hs]. apply negb_true_iff in Ha.
  cbn [heads_lack head_lacks] in *. rewrite Hh.
  rewrite (@heads_lack_inside g s a Ha Hs).
  destruct p as [b|]; [destruct (is_line_terminator b)|]; reflexivity.
Qed.

Lemma heads_lack_app g : forall u v p,
  heads_lack g p u = true -> (forall q, heads_lack g q v = true) ->
  heads_lack g p (u ++ v) = true.
Proof.
  induction u as [|a u IH]; intros v p Hu Hv; [apply Hv|].
  cbn [app heads_lack] in *. apply andb_true_iff in Hu.
  destruct Hu as [H1 H2]. rewrite H1. cbn [andb]. now apply IH.
Qed.

Lemma heads_lack_any g : forall s q,
  heads_lack g None s = true -> heads_lack g q s = true.
Proof.
  intros [|a s] q H; [reflexivity|]. cbn [heads_lack] in *.
  apply andb_true_iff in H. destruct H as [H1 H2]. rewrite H1, H2.
  destruct q as [b|]; [destruct (is_line_terminator b)|]; reflexivity.
Qed.

Lemma prose_plain s :
  prose s = true -> head_lacks line_opener s = true ->
  plain_paragraph s = true.
Proof.
  intros Hp Hh. unfold plain_paragraph.
  assert (T : lacks lt s = true) by now apply prose_lacks_lt.
  repeat (apply andb_true_iff; split).
  - eapply lacks_weaken; [|exact Hp]. intros a E. unfold markup_char.
    unfold inline_markup in E. rewrite E. reflexivity.
  - clear Hp Hh. induction s as [|a s IH]; [reflexivity|].
    unfold lacks in T. cbn [forallb] in T. apply andb_true_iff in T.
    destruct T as [Ha Hs]. cbn [no_blank_line]. rewrite (IH Hs).
    replace (a =? newline)%N with false; [reflexivity|].
    symmetry. apply N.eqb_neq. intros ->. discriminate.
  - apply heads_lack_line; [exact T|].
    pose proof (prose_block_opener _ Hp Hh) as Hb.
    destruct s as [|a s]; [reflexivity|]. cbn [head_lacks] in *.
    unfold opener. apply negb_true_iff in Hh, Hb. now rewrite Hh, Hb.
Qed.

Lemma plain_lacks c s :
  inline_markup (ch c) = true -> plain_paragraph s = true ->
  lacks (eqc c) s = true.
Proof.
  intros Hc H. unfold plain_paragraph in H.
  apply andb_true_iff in H. destruct H as [H _].
  apply andb_true_iff in H. destruct H as [H _].
  eapply lacks_weaken; [|exact H]. intros a E.
  apply N.eqb_eq in E. now subst a.
Qed.

Lemma join_lacks g :
  g newline = false ->
  forall ls, Forall (fun l => lacks g l = true) ls ->
    lacks g (join id_code nl2 ls) = true.
Proof.
  intros G. induction 1 as [|x l Hx Hl IH]; [reflexivity|].
  cbn [join]. destruct l as [|y l'].
  - exact Hx.
  - rewrite (@lacks_app g x), Hx. rewrite map_id_code.
    rewrite (@lacks_app g nl2), IH. unfold lacks. cbn [forallb].
    now rewrite G.
Qed.

Lemma join_heads g :
  g newline = false ->
  forall ls, Forall (fun l => heads_lack g None l = true) ls ->
    forall q, heads_lack g q (join id_code nl2 ls) = true.
Proof.
  intros G. induction 1 as [|x l Hx Hl IH]; intros q; [reflexivity|].
  cbn [join]. destruct l as [|y l'].
  - now apply heads_lack_any.
  - apply heads_lack_app; [now apply heads_lack_any|]. intros q1.
    rewrite map_id_code. apply heads_lack_app.
    + cbn [heads_lack]. rewrite G. cbn [negb andb].
      destruct q1 as [b|]; [destruct (is_line_terminator b)|];
        reflexivity.
    + intros q2. now apply IH.
Qed.

(** The scan for blank lines passes a paragraph. *)
Lemma split_go_pass : forall (x cur v : list N),
  no_blank_line x = true ->
  v = [] \/ (exists w, v = nl2 ++ w) ->
  split_go id_code nl2 cur (x ++ v) 0
  = split_go id_code nl2 (rev x ++ cur) v 0.
Proof.
  induction x as [|a x IH]; intros cur v H Hv; [reflexivity|].
  cbn [no_blank_line] in H. apply andb_true_iff in H.
  destruct H as [Ha Hx]. apply negb_true_iff in Ha.
  cbn [app split_go].
  replace (starts_with id_code nl2 (a :: x ++ v)) with false.
  - rewrite IH by assumption. cbn [rev]. now rewrite <- app_assoc.
  - symmetry. cbn [starts_with]. unfold id_code at 1.
    rewrite (N.eqb_sym newline a).
    destruct (a =? newline)%N; [|reflexivity]. cbn [andb] in *.
    destruct x as [|b x'].
    + discriminate.
    + cbn [app starts_with]. unfold id_code.
      now rewrite (N.eqb_sym newline b), Ha.
Qed.

Lemma split_go_join : forall (l : list (list N)) (x cur : list N),
  Forall (fun s => no_blank_line s = true) (x :: l) ->
  split_go id_code nl2 cur (join id_code nl2 (x :: l)) 0
  = (rev cur ++ x) :: l.
Proof.
  induction l as [|y l IH]; intros x cur H;
    inversion H as [|? ? Hx Hl]; subst.
  - cbn [join]. rewrite <- (app_nil_r x) at 1.
    rewrite split_go_pass by auto. cbn [split_go].
    now rewrite rev_app_distr, rev_involutive.
  - cbn [join]. rewrite map_id_code.
    rewrite split_go_pass by (auto; right; eexists; reflexivity).
    cbn [app split_go starts_with length Nat.pred].
    unfold id_code at 1 2. rewrite !N.eqb_refl. cbn [andb].
    rewrite rev_app_distr, rev_involutive. f_equal.
    apply (IH y [] Hl).
Qed.

Variable ls : list (list N).
Hypothesis ls_cons : ls <> [].
Hypothesis ls_plain : Forall (fun l => plain_paragraph l = true) ls.

Local Abbreviation text := (join id_code nl2 ls).

Lemma paragraphs_join :
  paragraphs id_code id_code text
  = join id_code [newline]
      (map (fun l => str "<p>" ++ l ++ str "</p>") ls).
Proof.
  destruct ls as [|x l]; [congruence|].
  unfold paragraphs, split. rewrite split_go_join.
  - cbn [rev app]. f_equal. apply map_ext_in. intros s Hs.
    rewrite Forall_forall in ls_plain. specialize (ls_plain s Hs).
    unfold wrap_para. rewrite wrap_test.
    rewrite starts_block_lacks
      by (apply lacks_head; now apply plain_lacks).
    cbn [negb]. now rewrite !map_id_code.
  - eapply Forall_impl; [|exact ls_plain]. intros s Hs.
    unfold plain_paragraph in Hs. apply andb_true_iff in Hs.
    destruct Hs as [Hs _]. apply andb_true_iff in Hs. tauto.
Qed.

Lemma convert_paragraphs :
  convert id_code id_code text
  = join id_code [newline]
      (map (fun l => str "<p>" ++ l ++ str "</p>") ls).
Proof.
  assert (C : forall c, inline_markup (ch c) = true ->
                lacks (eqc c) text = true).
  { intros c Hc. apply join_lacks.
    - destruct (eqc c newline) eqn:E; [|reflexivity].
      apply N.eqb_eq in E. now rewrite E in Hc.
    - eapply Forall_impl; [|exact ls_plain]. intros s Hs.
      now apply plain_lacks. }
  assert (S : lacks is_special text = true).
  { apply join_lacks; [reflexivity|].
    eapply Forall_impl; [|exact ls_plain]. intros s Hs.
    unfold plain_paragraph in Hs. apply andb_true_iff in Hs.
    destruct Hs as [Hs _]. apply andb_true_iff in Hs. destruct Hs as [Hs _].
    eapply lacks_weaken; [|exact Hs]. intros a E. unfold inline_markup.
    unfold is_special in E.
    destruct (a =? ch "&")%N, (a =? ch "<")%N, (a =? ch ">")%N;
      try reflexivity; discriminate. }
  assert (K : forall g, g newline = false ->
                (forall a, g a = true -> opener a = true) ->
                heads_lack g None text = true).
  { intros g G H. apply join_heads; [exact G|].
    eapply Forall_impl; [|exact ls_plain]. intros s Hs.
    unfold plain_paragraph in Hs. apply andb_true_iff in Hs.
    destruct Hs as [_ Hs]. now apply (heads_lack_weaken g opener H). }
  assert (K1 : forall c, opener (ch c) = true ->
                 heads_lack (eqc c) None text = true).
  { intros c Hc. apply K.
    - destruct (eqc c newline) eqn:E; [|reflexivity].
      apply N.eqb_eq in E. now rewrite E in Hc.
    - intros a E. apply N.eqb_eq in E. now subst a. }
  unfold convert, later_stages. cbv zeta.
  rewrite escape_html_quiet by exact S.
  unfold headers. cbv zeta.
  rewrite (@replace_heads (eqc "#") (re_header "######")),
    (@replace_heads (eqc "#") (re_header "#####")),
    (@replace_heads (eqc "#") (re_header "####")),
    (@replace_heads (eqc "#") (re_header "###")),
    (@replace_heads (eqc "#") (re_header "##")),
    (@replace_heads (eqc "#") (re_header "#"));
    try reflexivity; try (apply K1; reflexivity).
  rewrite bold_quiet, italic_quiet, inline_quiet
    by (apply C; reflexivity).
  unfold horizontal_rules. cbv zeta.
  rewrite (@replace_heads (eqc "-") re_hr_dash),
    (@replace_heads (eqc "*") re_hr_star);
    try reflexivity; try (apply K1; reflexivity).
  unfold blockquotes.
  rewrite (@replace_quiet (eqc "&") re_blockquote);
    try reflexivity; try (apply C; reflexivity).
  unfold unordered_lists, ul_items.
  rewrite (@replace_heads (fun c => (c =? ch "*")%N || (c =? ch "-")%N)
             re_ul_item); try reflexivity.
  2: { apply K; [reflexivity|]. intros a E. unfold opener, block_opener.
       destruct (a =? ch "*")%N, (a =? ch "-")%N; try discriminate;
         auto with bool. }
  rewrite ul_wrap_none by (apply find_sub_lacks, C; reflexivity).
  unfold ordered_lists.
  rewrite (@replace_heads is_digit re_ol_item); try reflexivity.
  2: { apply K; [reflexivity|]. intros a E. unfold opener, line_opener.
       rewrite E. auto with bool. }
  apply paragraphs_join.
Qed.
End ManyLines.

(** * Spans between underscores *)

Section Underscores.
Local Abbreviation eqc c := (N.eqb (ch c)).
Local Abbreviation lt := is_line_terminator.
Local Abbreviation us := (ch "_").
Local Abbreviation rep := (replace id_code id_code).
Local Abbreviation rall := (replace_all id_code id_code).
Local Abbreviation ff := (Flags false false).

Lemma match_at_bold_under p sel post :
  sel <> [] -> lacks (eqc "_") sel = true -> lacks lt sel = true ->
  match_at id_code re_bold_under
    (MState p (str "__" ++ sel ++ str "__" ++ post))
  = Some (post, [(1, sel)]).
Proof.
  intros Hne Hg Hl. unfold match_at.
  cbn [source reflags re_bold_under re_g seq_of].
  rewrite rmatch_Seq, rmatch_Lit.
  change (str "__") with [us; us]. cbn [app strip].
  unfold id_code at 1 2. rewrite !N.eqb_refl.
  rewrite rmatch_Seq.
  apply (@lazy_group_run ff (eqc "_")); try assumption.
  - intros pv a t c Ga. rewrite rmatch_Lit. cbn [strip].
    unfold id_code. now rewrite Ga.
  - rewrite rmatch_Lit. cbn [strip]. unfold id_code.
    rewrite !N.eqb_refl. reflexivity.
Qed.

Lemma match_at_bold_under_single p w :
  head_lacks (eqc "_") w = true ->
  match_at id_code re_bold_under (MState p (us :: w)) = None.
Proof.
  intros H. unfold match_at.
  cbn [source reflags re_bold_under re_g seq_of].
  rewrite rmatch_Seq, rmatch_Lit.
  change (str "__") with [us; us]. cbn [strip].
  unfold id_code at 1. rewrite N.eqb_refl.
  destruct w as [|a w]; [reflexivity|].
  cbn [head_lacks] in H. apply negb_true_iff in H.
  unfold id_code. now rewrite H.
Qed.

Lemma match_at_italic_under p sel post :
  sel <> [] -> lacks (eqc "_") sel = true -> lacks lt sel = true ->
  match_at id_code re_italic_under
    (MState p (us :: sel ++ us :: post))
  = Some (post, [(1, sel)]).
Proof.
  intros Hne Hg Hl. unfold match_at.
  cbn [source reflags re_italic_under re_g seq_of].
  rewrite rmatch_Seq, rmatch_Chr. unfold eat. cbn [rest].
  unfold id_code at 1. rewrite N.eqb_refl.
  rewrite rmatch_Seq.
  apply (@lazy_group_run ff (eqc "_")); try assumption.
  - intros pv a t c Ga. rewrite rmatch_Chr.
    unfold eat. cbn [rest]. unfold id_code. now rewrite Ga.
  - rewrite rmatch_Chr. unfold eat. cbn [rest]. unfold id_code.
    now rewrite N.eqb_refl.
Qed.

Section UnderStages.
Variables pre sel post : list N.
Hypothesis pre_lacks : lacks (eqc "_") pre = true.
Hypothesis sel_lacks : lacks (eqc "_") sel = true.
Hypothesis sel_line : lacks lt sel = true.
Hypothesis post_lacks : lacks (eqc "_") post = true.
Hypothesis sel_cons : sel <> [].

Lemma bold_under_span :
  rep re_bold_under (wrap_tag "strong")
    (pre ++ str "__" ++ sel ++ str "__" ++ post)
  = pre ++ (str "<" ++ str "strong" ++ str ">") ++ sel
        ++ (str "</" ++ str "strong" ++ str ">") ++ post.
Proof.
  unfold replace. cbn [global re_bold_under re_g].
  rewrite (@replace_all_pass (eqc "_") re_bold_under _ eq_refl pre)
    by assumption.
  replace (str "__" ++ sel ++ str "__" ++ post)
    with ((str "__" ++ sel ++ str "__") ++ post)
    by now rewrite <- !app_assoc.
  rewrite (@replace_all_hit _ _ _ _ _ [(1, sel)]).
  - rewrite (@replace_all_quiet (eqc "_") re_bold_under _ _ post eq_refl)
      by assumption.
    unfold subst, wrap_tag.
    cbn [flat_map subst_item get_capture find fst snd Nat.eqb].
    rewrite !map_id_code. now rewrite <- !app_assoc.
  - change (str "__") with [us; us]. discriminate.
  - rewrite <- !app_assoc. apply match_at_bold_under; auto.
Qed.

Lemma bold_under_single :
  rep re_bold_under (wrap_tag "strong")
    (pre ++ str "_" ++ sel ++ str "_" ++ post)
  = pre ++ str "_" ++ sel ++ str "_" ++ post.
Proof.
  unfold replace. cbn [global re_bold_under re_g].
  rewrite (@replace_all_pass (eqc "_") re_bold_under _ eq_refl pre)
    by assumption.
  f_equal. change (str "_") with [us]. cbn [app].
  rewrite replace_all_miss.
  2: { destruct sel as [|a u]; [congruence|].
       apply match_at_bold_under_single.
       apply (lacks_head _ _ sel_lacks). }
  f_equal.
  rewrite (@replace_all_pass (eqc "_") re_bold_under _ eq_refl sel)
    by assumption.
  f_equal. rewrite replace_all_miss.
  2: { apply match_at_bold_under_single. now apply lacks_head. }
  f_equal.
  now apply (@replace_all_quiet (eqc "_") re_bold_under _ _ post eq_refl).
Qed.

Lemma italic_under_span :
  rep re_italic_under (wrap_tag "em")
    (pre ++ str "_" ++ sel ++ str "_" ++ post)
  = pre ++ (str "<" ++ str "em" ++ str ">") ++ sel
        ++ (str "</" ++ str "em" ++ str ">") ++ post.
Proof.
  unfold replace. cbn [global re_italic_under re_g].
  rewrite (@replace_all_pass (eqc "_") re_italic_under _ eq_refl pre)
    by assumption.
  replace (str "_" ++ sel ++ str "_" ++ post)
    with ((str "_" ++ sel ++ str "_") ++ post)
    by now rewrite <- !app_assoc.
  rewrite (@replace_all_hit _ _ _ _ _ [(1, sel)]).
  - rewrite (@replace_all_quiet (eqc "_") re_italic_under _ _ post eq_refl)
      by assumption.
    unfold subst, wrap_tag.
    cbn [flat_map subst_item get_capture find fst snd Nat.eqb].
    rewrite !map_id_code. now rewrite <- !app_assoc.
  - change (str "_") with [us]. discriminate.
  - rewrite <- !app_assoc. apply match_at_italic_under; auto.
Qed.
End UnderStages.

Variables pre sel post : list N.
Hypothesis pre_prose : prose pre = true.
Hypothesis sel_prose : prose sel = true.
Hypothesis post_prose : prose post = true.
Hypothesis sel_cons : sel <> [].
Hypothesis pre_opens : head_lacks line_opener pre = true.

Local Abbreviation L := (fun s H => lacks_char_of_prose "_" s eq_refl H).

Lemma under_first_stages (mk : list N) :
  mk = str "__" \/ mk = str "_" ->
  headers id_code id_code
    (escape_html id_code id_code (pre ++ mk ++ sel ++ mk ++ post))
  = pre ++ mk ++ sel ++ mk ++ post.
Proof.
  intros Hm.
  assert (M : mk <> [] /\ lacks is_special mk = true /\
              lacks lt mk = true /\ head_lacks (eqc "#") mk = true)
    by (destruct Hm; subst mk; repeat split; discriminate).
  destruct M as (M0 & M1 & M2 & M3).
  rewrite escape_html_quiet.
  - apply headers_line.
    + apply marked_head; auto. intros a E. unfold line_opener.
      now rewrite N.eqb_sym, E.
    + apply marked_lacks; auto. intros s Hs. now apply prose_lacks_lt.
  - apply marked_lacks; auto. apply lacks_special_of_prose.
Qed.

Lemma convert_bold_under_span :
  convert id_code id_code (pre ++ str "__" ++ sel ++ str "__" ++ post)
  = str "<p>" ++ pre ++ str "<strong>" ++ sel ++ str "</strong>" ++ post
        ++ str "</p>".
Proof.
  unfold convert, later_stages. cbv zeta.
  rewrite under_first_stages by auto.
  unfold bold. cbv zeta.
  rewrite (@replace_quiet (eqc "*") re_bold_star)
    by (first [reflexivity |
               apply marked_lacks; try assumption;
               [reflexivity | intros s; now apply lacks_char_of_prose]]).
  rewrite bold_under_span
    by (auto using prose_lacks_lt; now apply L).
  assert (W : forall g, g (ch "<") = false -> g (ch ">") = false ->
                        g (ch "/") = false ->
                        (forall s, prose s = true -> lacks g s = true) ->
                        lacks g (pre ++ (str "<" ++ str "strong" ++ str ">")
                                     ++ sel
                                     ++ (str "</" ++ str "strong" ++ str ">")
                                     ++ post) = true).
  { intros g G1 G2 G3 H.
    now apply (@wrapped_lacks (ch "s") (str "trong") eq_refl). }
  rewrite italic_quiet
    by (apply W; try reflexivity; intros s; now apply lacks_char_of_prose).
  now apply (@after_italic_tagged pre sel post pre_prose sel_prose
               post_prose pre_opens (ch "s") (str "trong")).
Qed.

Lemma convert_italic_under_span :
  convert id_code id_code (pre ++ str "_" ++ sel ++ str "_" ++ post)
  = str "<p>" ++ pre ++ str "<em>" ++ sel ++ str "</em>" ++ post
        ++ str "</p>".
Proof.
  assert (V : forall g, g us = false ->
                (forall s, prose s = true -> lacks g s = true) ->
                lacks g (pre ++ str "_" ++ sel ++ str "_" ++ post) = true).
  { intros g G H. apply marked_lacks; try assumption.
    change (str "_") with [us]. unfold lacks. cbn [forallb].
    now rewrite G. }
  unfold convert, later_stages. cbv zeta.
  rewrite under_first_stages by auto.
  unfold bold. cbv zeta.
  rewrite (@replace_quiet (eqc "*") re_bold_star)
    by (first [reflexivity |
               apply V; [reflexivity|];
               intros s; now apply lacks_char_of_prose]).
  rewrite bold_under_single
    by (auto using prose_lacks_lt; now apply L).
  unfold italic. cbv zeta.
  rewrite (@replace_quiet (eqc "*") re_italic_star)
    by (first [reflexivity |
               apply V; [reflexivity|];
               intros s; now apply lacks_char_of_prose]).
  rewrite italic_under_span
    by (auto using prose_lacks_lt; now apply L).
  now apply (@after_italic_tagged pre sel post pre_prose sel_prose
               post_prose pre_opens (ch "e") (str "m")).
Qed.
End Underscores.

(** * Underscores in the target of a link *)

Section LinkTarget.
Local Abbreviation eqc c := (N.eqb (ch c)).
Local Abbreviation lt := is_line_terminator.
Local Abbreviation rep := (replace id_code id_code).
Local Abbreviation a_open := (str "<a href=" ++ [dquote]).
Local Abbreviation a_mid :=
  ([dquote] ++ str " target=" ++ [dquote] ++ str "_blank" ++ [dquote]
            ++ str ">").
Local Abbreviation a_close := (str "</a>").
Local Abbreviation em_open := (str "<" ++ str "em" ++ str ">").
Local Abbreviation em_close := (str "</" ++ str "em" ++ str ">").

Variables pre label u v w post : list N.
Hypothesis pre_prose : prose pre = true.
Hypothesis label_prose : prose label = true.
Hypothesis u_prose : prose u = true.
Hypothesis v_prose : prose v = true.
Hypothesis w_prose : prose w = true.
Hypothesis post_prose : prose post = true.
Hypothesis label_cons : label <> [].
Hypothesis v_cons : v <> [].
Hypothesis label_bracket : lacks (eqc "]") label = true.
Hypothesis u_paren : lacks (eqc ")") u = true.
Hypothesis v_paren : lacks (eqc ")") v = true.
Hypothesis w_paren : lacks (eqc ")") w = true.
Hypothesis pre_opens : head_lacks line_opener pre = true.

Local Abbreviation before := (pre ++ str "[" ++ label ++ str "](" ++ u).
Local Abbreviation after := (w ++ str ")" ++ post).
Local Abbreviation target := (u ++ em_open ++ v ++ em_close ++ w).

(** The text, and the text after the italic stage and after the link
    stage. *)
Local Abbreviation text0 :=
  (pre ++ str "[" ++ label ++ str "](" ++ u ++ str "_" ++ v ++ str "_"
       ++ w ++ str ")" ++ post).
Local Abbreviation text1 :=
  (pre ++ str "[" ++ label ++ str "](" ++ target ++ str ")" ++ post).
Local Abbreviation text2 :=
  (pre ++ a_open ++ target ++ a_mid ++ label ++ a_close ++ post).

Lemma text0_split :
  text0 = before ++ str "_" ++ v ++ str "_" ++ after.
Proof. now rewrite <- !app_assoc. Qed.

Lemma text1_split :
  before ++ em_open ++ v ++ em_close ++ after = text1.
Proof. now rewrite <- !app_assoc. Qed.

Lemma text0_lacks g :
  g (ch "[") = false -> g (ch "]") = false -> g (ch "(") = false ->
  g (ch ")") = false -> g (ch "_") = false ->
  (forall s, prose s = true -> lacks g s = true) ->
  lacks g text0 = true.
Proof.
  intros G1 G2 G3 G4 G5 H. rewrite !lacks_app.
  rewrite (H pre), (H label), (H u), (H v), (H w), (H post) by assumption.
  change (str "[") with [ch "["]. change (str "](") with [ch "]"; ch "("].
  change (str ")") with [ch ")"]. change (str "_") with [ch "_"].
  unfold lacks. cbn [forallb]. now rewrite G1, G2, G3, G4, G5.
Qed.

Lemma target_lacks g :
  g (ch "<") = false -> g (ch ">") = false -> g (ch "/") = false ->
  g (ch "e") = false -> g (ch "m") = false ->
  lacks g u = true -> lacks g v = true -> lacks g w = true ->
  lacks g target = true.
Proof.
  intros G1 G2 G3 G4 G5 Hu Hv Hw.
  rewrite (@lacks_app g u), (@lacks_app g em_open), (@lacks_app g v),
    (@lacks_app g em_close), Hu, Hv, Hw.
  change (str "<" ++ str "em" ++ str ">")
    with [ch "<"; ch "e"; ch "m"; ch ">"].
  change (str "</" ++ str "em" ++ str ">")
    with [ch "<"; ch "/"; ch "e"; ch "m"; ch ">"].
  unfold lacks. cbn [forallb]. now rewrite G1, G2, G3, G4, G5.
Qed.

Lemma text1_lacks g :
  g (ch "[") = false -> g (ch "]") = false -> g (ch "(") = false ->
  g (ch ")") = false ->
  g (ch "<") = false -> g (ch ">") = false -> g (ch "/") = false ->
  g (ch "e") = false -> g (ch "m") = false ->
  (forall s, prose s = true -> lacks g s = true) ->
  lacks g text1 = true.
Proof.
  intros G1 G2 G3 G4 G5 G6 G7 G8 G9 H.
  rewrite (@lacks_app g pre), (@lacks_app g (str "[")),
    (@lacks_app g label), (@lacks_app g (str "](")),
    (@lacks_app g target), (@lacks_app g (str ")")).
  rewrite (H pre), (H label), (H post) by assumption.
  rewrite target_lacks by auto.
  change (str "[") with [ch "["]. change (str "](") with [ch "]"; ch "("].
  change (str ")") with [ch ")"].
  unfold lacks. cbn [forallb]. now rewrite G1, G2, G3, G4.
Qed.

Lemma text2_lacks g :
  lacks g a_open = true -> lacks g a_mid = true ->
  lacks g a_close = true ->
  g (ch "<") = false -> g (ch ">") = false -> g (ch "/") = false ->
  g (ch "e") = false -> g (ch "m") = false ->
  (forall s, prose s = true -> lacks g s = true) ->
  lacks g text2 = true.
Proof.
  intros A1 A2 A3 G5 G6 G7 G8 G9 H.
  rewrite (@lacks_app g pre), (@lacks_app g a_open),
    (@lacks_app g target), (@lacks_app g a_mid),
    (@lacks_app g label), (@lacks_app g a_close).
  rewrite (H pre), (H label), (H post) by assumption.
  rewrite target_lacks by auto.
  now rewrite A1, A2, A3.
Qed.

Lemma text2_no_li : find_sub id_code (str "<li>") text2 = None.
Proof.
  assert (L : forall s, prose s = true -> lacks (eqc "<") s = true)
    by (intros s; now apply lacks_char_of_prose).
  rewrite <- !app_assoc.
  apply (@find_sub_none_pass (ch "<") (str "li>") pre); [now apply L|].
  apply (@find_sub_none_second (ch "<") (ch "l") (str "i>") (ch "a"));
    [reflexivity|].
  apply (@find_sub_none_pass (ch "<") (str "li>")
           (ch "a" :: str " href=" ++ [dquote])); [reflexivity|].
  apply (@find_sub_none_pass (ch "<") (str "li>") u); [now apply L|].
  apply (@find_sub_none_second (ch "<") (ch "l") (str "i>") (ch "e"));
    [reflexivity|].
  apply (@find_sub_none_pass (ch "<") (str "li>") (str "em>"));
    [reflexivity|].
  apply (@find_sub_none_pass (ch "<") (str "li>") v); [now apply L|].
  apply (@find_sub_none_second (ch "<") (ch "l") (str "i>") (ch "/"));
    [reflexivity|].
  apply (@find_sub_none_pass (ch "<") (str "li>") (str "/em>"));
    [reflexivity|].
  apply (@find_sub_none_pass (ch "<") (str "li>") w); [now apply L|].
  apply (@find_sub_none_pass (ch "<") (str "li>") a_mid); [reflexivity|].
  apply (@find_sub_none_pass (ch "<") (str "li>") label); [now apply L|].
  apply (@find_sub_none_second (ch "<") (ch "l") (str "i>") (ch "/"));
    [reflexivity|].
  apply (@find_sub_none_pass (ch "<") (str "li>") (str "/a>"));
    [reflexivity|].
  now apply (@find_sub_lacks (ch "<") (str "li>")), L.
Qed.

(** A target with two underscores: the italic stage runs before the link
    stage. *)
Lemma convert_link_underscores :
  convert id_code id_code text0 = str "<p>" ++ text2 ++ str "</p>".
Proof.
  assert (P : forall c, markup_char (ch c) = true ->
                forall s, prose s = true -> lacks (eqc c) s = true)
    by (intros c Hc s; now apply lacks_char_of_prose).
  assert (U : lacks (eqc "_") before = true /\
              lacks (eqc "_") after = true).
  { split.
    - rewrite (@lacks_app _ pre), (@lacks_app _ (str "[")),
        (@lacks_app _ label), (@lacks_app _ (str "](")).
      now rewrite (P "_"%char eq_refl pre), (P "_"%char eq_refl label),
        (P "_"%char eq_refl u).
    - rewrite (@lacks_app _ w), (@lacks_app _ (str ")")).
      now rewrite (P "_"%char eq_refl w), (P "_"%char eq_refl post). }
  destruct U as [U1 U2].
  unfold convert, later_stages. cbv zeta.
  rewrite escape_html_quiet
    by (apply text0_lacks; try reflexivity; apply lacks_special_of_prose).
  rewrite headers_line.
  2: { destruct pre as [|a pre']; [reflexivity|].
       eapply head_lacks_weaken; [|exact pre_opens]. intros x E.
       unfold line_opener. now rewrite N.eqb_sym, E. }
  2: { apply text0_lacks; try reflexivity. apply prose_lacks_lt. }
  unfold bold. cbv zeta.
  rewrite (@replace_quiet (eqc "*") re_bold_star)
    by (first [reflexivity |
               apply text0_lacks; try reflexivity; now apply P]).
  rewrite text0_split.
  rewrite bold_under_single
    by (auto using prose_lacks_lt; now apply P).
  unfold italic. cbv zeta.
  rewrite (@replace_quiet (eqc "*") re_italic_star).
  2: reflexivity.
  2: reflexivity.
  2: { rewrite <- text0_split. apply text0_lacks; try reflexivity.
       now apply P. }
  rewrite italic_under_span
    by (auto using prose_lacks_lt; now apply P).
  rewrite text1_split.
  unfold code_blocks, inline_code.
  rewrite (@replace_quiet (eqc "`") re_code_block),
    (@replace_quiet (eqc "`") re_inline_code);
    try reflexivity;
    try (apply text1_lacks; try reflexivity; now apply P).
  unfold links, images.
  rewrite link_span.
  2: now apply P.
  2: now apply P.
  2: exact label_cons.
  2: { destruct u; discriminate. }
  2: exact label_bracket.
  2: { apply target_lacks; auto. }
  rewrite (@replace_eats (eqc "[") re_image); try reflexivity.
  2: { apply text2_lacks; try reflexivity. now apply P. }
  rewrite rules_to_lists_line.
  - rewrite paragraphs_line.
    + reflexivity.
    + apply text2_lacks; try reflexivity. apply prose_lacks_lt.
    + destruct pre as [|a pre'].
      * reflexivity.
      * apply starts_block_lacks.
        assert (Q : lacks (eqc "<") (a :: pre') = true)
          by now apply P.
        apply lacks_head in Q. exact Q.
  - apply text2_lacks; try reflexivity. apply prose_lacks_lt.
  - destruct pre as [|a pre']; [reflexivity|].
    now apply (@prose_block_opener (a :: pre')).
  - apply text2_no_li.
Qed.
End LinkTarget.

(** * More of the application *)

(** X1.  [updatePreview] shows the placeholder for the empty editor and the
    result of the converter for every other value: the converter never
    returns the empty string, so the fallback of [html || ...] is reached
    through the guard of [parse] only. *)
Theorem preview_of_editor (value : list N) :
  updatePreview value
  = Normal (match value with
            | [] => placeholder
            | _ :: _ => convert id_code id_code value
            end) /\
  exists c tl, convert id_code id_code value = c :: tl.
Proof.
  split; [|apply convert_cons].
  destruct value as [|a value]; [reflexivity|].
  unfold updatePreview, parse. cbn [to_boolean length Nat.eqb negb].
  destruct (convert_cons (a :: value)) as (c & tl & E). now rewrite E.
Qed.

(** X2.  The word count of [updateStats] is the number of runs of
    characters that are not white space; it is zero exactly for a text of
    white space only, and never more than the character count. *)
Theorem word_count_counts_runs (text : list N) :
  word_count text = count_runs false text /\
  (word_count text = 0 <-> forallb is_space text = true) /\
  word_count text <= char_count text.
Proof.
  rewrite word_count_runs. split; [reflexivity|]. split.
  - apply count_runs_zero.
  - apply count_runs_le.
Qed.

(** X3.  The line that [renderNotesList] shows for a note is the first line
    of its content cut to 50 characters, or [Empty note] when that is
    empty: it never throws, has at most 50 characters and no line feed. *)
Theorem note_preview_line (content : list N) :
  exists r,
    note_preview content = Normal r /\
    r = or_else (firstn 50 (first_line content)) (str "Empty note") /\
    length r <= 50 /\
    Forall (fun c => c <> newline) r /\
    exists tl, content = firstn 50 (first_line content) ++ tl.
Proof.
  eexists. split; [apply note_preview_eq|]. split; [reflexivity|].
  destruct (first_line_prefix content) as [tl E].
  assert (Hlen : length (firstn 50 (first_line content)) <= 50)
    by apply firstn_le_length.
  assert (F : Forall (fun c => c <> newline)
                (firstn 50 (first_line content))).
  { pose proof (first_line_no_newline content) as F.
    rewrite <- (firstn_skipn 50 (first_line content)) in F.
    now apply Forall_app in F. }
  assert (P : exists tl, content = firstn 50 (first_line content) ++ tl).
  { exists (skipn 50 (first_line content) ++ tl).
    now rewrite app_assoc, firstn_skipn. }
  split; [|split; [|exact P]].
  - destruct (firstn 50 (first_line content)); cbn [or_else];
      [cbn; lia | exact Hlen].
  - destruct (firstn 50 (first_line content)); cbn [or_else];
      [cbn; repeat constructor; discriminate | exact F].
Qed.

(** X4.  For markup [md] whose first [text] splits it into [pre] and [post],
    and a selection without a dollar: [insertMarkdown] puts [pre], the
    selection (the word [text] itself when nothing is selected) and [post]
    in place of the selection and leaves the rest of the editor as it is.
    With nothing selected the cursor goes to the start of the word [text];
    with a selection it goes to the start of the selection plus the length
    of [md]. *)
Theorem insert_with_placeholder (md pre post text : list N) (i j : nat) :
  find_sub id_code (str "text") md = Some (pre, post) ->
  i <= j -> j <= length text ->
  Forall (fun c => c <> ch "$") (firstn (j - i) (skipn i text)) ->
  insertMarkdown md (Textarea text i j)
  = (firstn i text ++ pre
     ++ or_else (firstn (j - i) (skipn i text)) (str "text")
     ++ post ++ skipn j text,
     (Z.of_nat i
      + (if is_empty (firstn (j - i) (skipn i text))
         then Z.of_nat (length pre) else Z.of_nat (length md)))%Z).
Proof.
  intros F Hij Hj Hsel. unfold insertMarkdown. cbn [value selectionStart selectionEnd].
  rewrite substring_range by assumption.
  rewrite substring_prefix, substring_tail by assumption.
  unfold includes, string_replace, indexOf. rewrite F. cbn [fst snd].
  rewrite get_substitution_plain by now apply or_else_no_dollar.
  now rewrite <- !app_assoc.
Qed.

Lemma insert_with_placeholder_witness :
  find_sub id_code (str "text") (str "**text**") = Some (str "**", str "**") /\
  insertMarkdown (str "**text**") (Textarea (str "abc def") 4 7)
  = (str "abc **def**", 12%Z).
Proof.
  split; [reflexivity|].
  apply (@insert_with_placeholder (str "**text**") (str "**") (str "**")
           (str "abc def") 4 7).
  - reflexivity.
  - lia.
  - simpl; lia.
  - simpl. repeat constructor; discriminate.
Defined.

(** X5.  A selection is the replacement text of [md.replace('text', ...)],
    where a dollar is special: [$$] in the selection arrives as one dollar,
    [$&] as the word [text], [$`] as the part of [md] before the word and
    [$'] as the part after it. *)
Theorem insert_selection_with_dollar
        (md pre post text u v dc expansion : list N) (i j : nat) :
  find_sub id_code (str "text") md = Some (pre, post) ->
  i <= j -> j <= length text ->
  firstn (j - i) (skipn i text) = u ++ dc ++ v ->
  In (dc, expansion)
     [(str "$$", str "$"); (str "$&", str "text");
      (str "$`", pre); (str "$'", post)] ->
  Forall (fun c => c <> ch "$") u ->
  Forall (fun c => c <> ch "$") v ->
  insertMarkdown md (Textarea text i j)
  = (firstn i text ++ pre ++ (u ++ expansion ++ v) ++ post ++ skipn j text,
     (Z.of_nat i + Z.of_nat (length md))%Z).
Proof.
  intros F Hij Hj Hsel Hdc Hu Hv. unfold insertMarkdown.
  cbn [value selectionStart selectionEnd].
  rewrite substring_range by assumption.
  rewrite substring_prefix, substring_tail by assumption.
  unfold includes, string_replace, indexOf. rewrite F, Hsel. cbn [fst snd].
  assert (Hne : exists c tl, u ++ dc ++ v = c :: tl).
  { destruct u as [|c u]; [|cbn; eauto].
    destruct Hdc as [E|[E|[E|[E|[]]]]]; inversion E; subst; cbn; eauto. }
  destruct Hne as (c & tl & Hne). rewrite Hne. cbn [or_else is_empty].
  rewrite <- Hne. rewrite get_substitution_app by exact Hu.
  assert (G : get_substitution (str "text") pre post (dc ++ v)
              = expansion ++ v).
  { destruct Hdc as [E|[E|[E|[E|[]]]]]; inversion E; subst;
      cbn [app str map list_ascii_of_string get_substitution];
      cbn; now rewrite (get_substitution_plain _ _ _ Hv). }
  rewrite G. now rewrite <- !app_assoc.
Qed.

Lemma insert_selection_with_dollar_witness :
  find_sub id_code (str "text") (str "**text**") = Some (str "**", str "**") /\
  insertMarkdown (str "**text**") (Textarea (str "pay $$5") 0 7)
  = (str "**pay $5**", 8%Z).
Proof.
  split; [reflexivity|].
  apply (@insert_selection_with_dollar (str "**text**") (str "**")
           (str "**") (str "pay $$5") (str "pay ") (str "5") (str "$$")
           (str "$") 0 7).
  - reflexivity.
  - lia.
  - simpl; lia.
  - reflexivity.
  - left. reflexivity.
  - simpl. repeat constructor; discriminate.
  - simpl. repeat constructor; discriminate.
Defined.

(** X6.  For markup without the word [text], [insertMarkdown] puts [md] in
    place of the selection, whose text is lost, and the cursor after it.
    When [md] contains [url] and nothing is selected, the cursor is asked
    for one place before the insertion point: the branch for [url] looks
    for the word [text], which is not there, and takes the [-1] of
    [indexOf] for the offset. *)
Theorem insert_without_placeholder (md text : list N) (i j : nat) :
  find_sub id_code (str "text") md = None ->
  i <= j -> j <= length text ->
  insertMarkdown md (Textarea text i j)
  = (firstn i text ++ md ++ skipn j text,
     if includes (str "url") md && Nat.eqb i j
     then (Z.of_nat i - 1)%Z
     else (Z.of_nat i + Z.of_nat (length md))%Z).
Proof.
  intros F Hij Hj. unfold insertMarkdown.
  cbn [value selectionStart selectionEnd].
  rewrite substring_range by assumption.
  rewrite substring_prefix, substring_tail by assumption.
  assert (I : includes (str "text") md = false)
    by (unfold includes; now rewrite F).
  rewrite I. unfold string_replace, indexOf. rewrite F.
  assert (E : is_empty (firstn (j - i) (skipn i text)) = Nat.eqb i j).
  { destruct (Nat.eqb i j) eqn:Q.
    - apply Nat.eqb_eq in Q. subst j. now rewrite Nat.sub_diag.
    - apply Nat.eqb_neq in Q.
      destruct (firstn (j - i) (skipn i text)) eqn:L; [|reflexivity].
      apply (f_equal (@length N)) in L.
      rewrite length_firstn, length_skipn in L. simpl in L. lia. }
  rewrite E.
  destruct (includes (str "url") md); cbn [fst snd andb]; [|reflexivity].
  destruct (Nat.eqb i j); reflexivity.
Qed.

Lemma insert_without_placeholder_witness :
  find_sub id_code (str "text") (str "(url)") = None /\
  insertMarkdown (str "(url)") (Textarea (str "ab") 1 1)
  = (str "a(url)b", 0%Z).
Proof.
  split; [reflexivity|].
  apply (@insert_without_placeholder (str "(url)") (str "ab") 1 1).
  - reflexivity.
  - lia.
  - simpl; lia.
Defined.

(** X7.  A file name that [handleFileImport] takes is the title it gives
    the note followed by [.md] or [.txt]: the pattern removes the extension
    at the end and nothing else. *)
Theorem import_title_of_accepted (name : list N) :
  import_accepts name = true ->
  name = import_title name ++ str ".md" \/
  name = import_title name ++ str ".txt".
Proof.
  unfold import_accepts, import_title. intros H.
  apply orb_true_iff in H. destruct H as [H|H];
    apply ends_with_split in H; destruct H as [base ->]; [left | right];
    rewrite import_title_strip; auto.
Qed.

Lemma import_title_of_accepted_witness :
  import_accepts (str "notes.v2.txt") = true /\
  (str "notes.v2.txt" = import_title (str "notes.v2.txt") ++ str ".md" \/
   str "notes.v2.txt" = import_title (str "notes.v2.txt") ++ str ".txt").
Proof.
  split; [reflexivity|].
  apply (import_title_of_accepted (str "notes.v2.txt")). reflexivity.
Defined.

(** X8.  A note that [downloadNote] writes comes back under its title: the
    file name is taken by [handleFileImport], and the title it gives is the
    title field, whatever characters it holds.  For an empty title field
    the file is [note.md] and the title on import is [note], where
    [autoSave] stores [Untitled]. *)
Theorem download_then_import (title_value : list N) :
  import_accepts (download_filename title_value) = true /\
  import_title (download_filename title_value)
  = or_else title_value (str "note") /\
  import_title (download_filename title_value)
  = match title_value with
    | [] => str "note"
    | _ :: _ => autosave_title title_value
    end.
Proof.
  assert (E : import_title (download_filename title_value)
              = or_else title_value (str "note")).
  { unfold import_title, download_filename. apply import_title_strip. auto. }
  split; [|split; [exact E|]].
  - unfold import_accepts, download_filename.
    now rewrite ends_with_app.
  - rewrite E. destruct title_value; reflexivity.
Qed.

(** X9.  Prose comes out as one paragraph.  A text without [&], [<], [>],
    [*], [_], a backtick, [[] and line ends, that does not begin with [#],
    [-] or a digit, is given back between [<p>] and [</p>] with every
    character as it was: no pattern of [parse] finds anything in it. *)
Theorem prose_is_one_paragraph (s : list N) :
  prose s = true -> head_lacks line_opener s = true ->
  parse (JString s)
  = Normal (if is_empty s then [] else str "<p>" ++ s ++ str "</p>").
Proof.
  intros Hp Hh. destruct s as [|a s]; [reflexivity|].
  unfold parse. cbn [to_boolean length Nat.eqb negb is_empty].
  now rewrite convert_prose.
Qed.

Lemma prose_is_one_paragraph_witness :
  prose (str "Read 3 of 10 pages (fast)!") = true /\
  parse (JString (str "Read 3 of 10 pages (fast)!"))
  = Normal (str "<p>Read 3 of 10 pages (fast)!</p>").
Proof.
  split; [reflexivity|].
  apply (prose_is_one_paragraph (str "Read 3 of 10 pages (fast)!"));
    reflexivity.
Defined.

(** X10.  A span between two pairs of stars, or two pairs of underscores,
    inside prose becomes one [<strong>] element: the text before and after
    it and the text of the span are kept as they are, and the whole is one
    paragraph. *)
Theorem bold_span_in_prose (mk pre sel post : list N) :
  mk = str "**" \/ mk = str "__" ->
  prose pre = true -> prose sel = true -> prose post = true ->
  sel <> [] -> head_lacks line_opener pre = true ->
  parse (JString (pre ++ mk ++ sel ++ mk ++ post))
  = Normal (str "<p>" ++ pre ++ str "<strong>" ++ sel ++ str "</strong>"
                ++ post ++ str "</p>").
Proof.
  intros Hm H1 H2 H3 H4 H5. unfold parse.
  replace (to_boolean (JString (pre ++ mk ++ sel ++ mk ++ post)))
    with true.
  - cbn [negb]. destruct Hm; subst mk.
    + now rewrite convert_bold_span.
    + now rewrite convert_bold_under_span.
  - cbn [to_boolean]. rewrite !length_app.
    destruct Hm; subst mk; destruct pre; reflexivity.
Qed.

Lemma bold_span_in_prose_witness :
  (str "__" = str "**" \/ str "__" = str "__") /\
  prose (str "a ") = true /\ str "b c" <> [] /\
  parse (JString (str "a __b c__ d"))
  = Normal (str "<p>a <strong>b c</strong> d</p>").
Proof.
  split; [right; reflexivity|]. split; [reflexivity|].
  split; [discriminate|].
  apply (@bold_span_in_prose (str "__") (str "a ") (str "b c") (str " d"));
    try reflexivity; try discriminate. right. reflexivity.
Defined.

(** X11.  A span between two single stars, or two single underscores,
    inside prose becomes one [<em>] element: the bold stage, which runs
    first, finds no pair of markers and leaves the text to the italic
    stage.  The text around the span is any prose, so underscores inside a
    word count as well. *)
Theorem italic_span_in_prose (mk pre sel post : list N) :
  mk = str "*" \/ mk = str "_" ->
  prose pre = true -> prose sel = true -> prose post = true ->
  sel <> [] -> head_lacks line_opener pre = true ->
  parse (JString (pre ++ mk ++ sel ++ mk ++ post))
  = Normal (str "<p>" ++ pre ++ str "<em>" ++ sel ++ str "</em>"
                ++ post ++ str "</p>").
Proof.
  intros Hm H1 H2 H3 H4 H5. unfold parse.
  replace (to_boolean (JString (pre ++ mk ++ sel ++ mk ++ post)))
    with true.
  - cbn [negb]. destruct Hm; subst mk.
    + now rewrite convert_italic_span.
    + now rewrite convert_italic_under_span.
  - cbn [to_boolean]. rewrite !length_app.
    destruct Hm; subst mk; destruct pre; reflexivity.
Qed.

Lemma italic_span_in_prose_witness :
  (str "_" = str "*" \/ str "_" = str "_") /\
  prose (str "snake") = true /\ str "case" <> [] /\
  parse (JString (str "snake_case_name"))
  = Normal (str "<p>snake<em>case</em>name</p>").
Proof.
  split; [right; reflexivity|]. split; [reflexivity|].
  split; [discriminate|].
  apply (@italic_span_in_prose (str "_") (str "snake") (str "case")
           (str "name"));
    try reflexivity; try discriminate. right. reflexivity.
Defined.



(** X13.  [handleKeyboardShortcuts] acts only when the modifier of the
    platform is held (the meta key on a Mac, the control key elsewhere) and
    the key is one of [s], [n], [f], [b], [i] in lower case; every other
    event, among them the other modifier alone and a capital letter, is
    left to the browser. *)
Theorem shortcut_keys (isMac : bool) (e : key_event) :
  handleKeyboardShortcuts isMac e <> DoNothing <->
  (if isMac then metaKey e else ctrlKey e) = true /\
  In (key e) [str "s"; str "n"; str "f"; str "b"; str "i"].
Proof.
  split; [apply handleKeyboardShortcuts_some|].
  intros [Hm Hk]. unfold handleKeyboardShortcuts. rewrite Hm.
  destruct Hk as [E|[E|[E|[E|[E|[]]]]]]; rewrite <- E; cbn; discriminate.
Qed.

(** X14.  A header line.  A line of one to six [#], white space, and a
    title of prose becomes the header element of that level around the
    title alone, and is not wrapped in a paragraph: the six patterns run
    from six [#] down to one, so the longer ones fail on the shorter run
    and the shorter ones find the line already replaced. *)
Theorem header_line (n : nat) (sp t : list N) :
  1 <= n <= 6 ->
  sp <> [] -> forallb is_blank sp = true ->
  t <> [] -> head_lacks is_space t = true -> prose t = true ->
  parse (JString (repeat (ch "#") n ++ sp ++ t))
  = Normal ((str "<h" ++ [N.of_nat (48 + n)] ++ str ">") ++ t
              ++ (str "</h" ++ [N.of_nat (48 + n)] ++ str ">")).
Proof.
  intros Hn H1 H2 H3 H4 H5. unfold parse.
  replace (to_boolean (JString (repeat (ch "#") n ++ sp ++ t))) with true.
  - cbn [negb]. now rewrite convert_header.
  - cbn [to_boolean]. destruct n as [|n]; [lia | reflexivity].
Qed.

Lemma header_line_witness :
  1 <= 2 <= 6 /\
  parse (JString (str "## Shopping list"))
  = Normal (str "<h2>Shopping list</h2>").
Proof.
  split; [lia|].
  apply (@header_line 2 (str " ") (str "Shopping list"));
    try reflexivity; try discriminate. lia.
Defined.

(** X15.  No header without white space after at most six [#].  A line of
    [n] hashes followed by prose [w] that does not begin with [#] is an
    ordinary paragraph, hashes included, when [w] does not begin with white
    space (among them a line of hashes alone), and also when there are
    seven hashes or more. *)
Theorem hashes_without_header (n : nat) (w : list N) :
  1 <= n -> prose w = true -> head_lacks (N.eqb (ch "#")) w = true ->
  7 <= n \/ head_lacks is_space w = true ->
  parse (JString (repeat (ch "#") n ++ w))
  = Normal (str "<p>" ++ (repeat (ch "#") n ++ w) ++ str "</p>").
Proof.
  intros Hn H1 H2 H3. unfold parse.
  replace (to_boolean (JString (repeat (ch "#") n ++ w))) with true.
  - cbn [negb]. now rewrite convert_no_header.
  - cbn [to_boolean]. destruct n as [|n]; [lia | reflexivity].
Qed.

Lemma hashes_without_header_witness :
  (7 <= 7 \/ head_lacks is_space (str " deep") = true) /\
  parse (JString (str "####### deep"))
  = Normal (str "<p>####### deep</p>").
Proof.
  split; [left; lia|].
  apply (@hashes_without_header 7 (str " deep")); try reflexivity.
  - lia.
  - left. lia.
Defined.

(** X16.  A span between two backticks inside prose becomes one [<code>]
    element inside the paragraph: the pattern for fenced blocks, which runs
    first, needs three backticks and leaves the single ones alone. *)
Theorem code_span_in_prose (pre c post : list N) :
  prose pre = true -> prose c = true -> prose post = true ->
  c <> [] -> head_lacks line_opener pre = true ->
  parse (JString (pre ++ str "`" ++ c ++ str "`" ++ post))
  = Normal (str "<p>" ++ pre ++ str "<code>" ++ c ++ str "</code>" ++ post
                ++ str "</p>").
Proof.
  intros H1 H2 H3 H4 H5. unfold parse.
  replace (to_boolean (JString (pre ++ str "`" ++ c ++ str "`" ++ post)))
    with true.
  - cbn [negb]. now rewrite convert_code_span.
  - cbn [to_boolean]. rewrite length_app.
    destruct pre; cbn; [reflexivity|reflexivity].
Qed.

Lemma code_span_in_prose_witness :
  prose (str "run ") = true /\ str "make" <> [] /\
  parse (JString (str "run `make` now"))
  = Normal (str "<p>run <code>make</code> now</p>").
Proof.
  split; [reflexivity|]. split; [discriminate|].
  apply (@code_span_in_prose (str "run ") (str "make") (str " now"));
    try reflexivity. discriminate.
Defined.



(** X18.  A quote.  The pattern for quotes is written against the escaped
    text: a line of [>], white space and prose is first escaped to [&gt;]
    and then becomes a [<blockquote>] around the prose alone, which is not
    wrapped in a paragraph. *)
Theorem quote_line (sp t : list N) :
  sp <> [] -> forallb is_blank sp = true ->
  t <> [] -> head_lacks is_space t = true -> prose t = true ->
  parse (JString (str ">" ++ sp ++ t))
  = Normal (str "<blockquote>" ++ t ++ str "</blockquote>").
Proof.
  intros H1 H2 H3 H4 H5. unfold parse.
  cbn [to_boolean str app length Nat.eqb negb].
  now rewrite convert_quote.
Qed.

Lemma quote_line_witness :
  forallb is_blank (str " ") = true /\
  parse (JString (str "> so it goes"))
  = Normal (str "<blockquote>so it goes</blockquote>").
Proof.
  split; [reflexivity|].
  apply (@quote_line (str " ") (str "so it goes"));
    try reflexivity; discriminate.
Defined.

(** X19.  One item of an unordered list.  A line of [-] or [*], white
    space and prose becomes one [<li>] inside one [<ul>], not wrapped in a
    paragraph; with [*] as the bullet the bold and the italic stage find no
    second star and leave the line to the list stage. *)
Theorem unordered_item_line (b : N) (sp t : list N) :
  b = ch "-" \/ b = ch "*" ->
  sp <> [] -> forallb is_blank sp = true ->
  t <> [] -> head_lacks is_space t = true -> prose t = true ->
  parse (JString (b :: sp ++ t))
  = Normal (str "<ul><li>" ++ t ++ str "</li></ul>").
Proof.
  intros Hb H1 H2 H3 H4 H5. unfold parse.
  cbn [to_boolean length Nat.eqb negb].
  now rewrite convert_ul_item.
Qed.

Lemma unordered_item_line_witness :
  (ch "*" = ch "-" \/ ch "*" = ch "*") /\
  parse (JString (str "* buy milk"))
  = Normal (str "<ul><li>buy milk</li></ul>").
Proof.
  split; [right; reflexivity|].
  apply (@unordered_item_line (ch "*") (str " ") (str "buy milk"));
    try reflexivity; try discriminate. right. reflexivity.
Defined.

(** X20.  One item of an ordered list.  A line of digits, a dot, white
    space and prose becomes one [<li>] around the prose: the number is
    dropped, there is no [<ol>], and since [l] is not among the letters of
    the paragraph test the item is wrapped in a paragraph. *)
Theorem ordered_item_line (ds sp t : list N) :
  ds <> [] -> forallb is_digit ds = true ->
  sp <> [] -> forallb is_blank sp = true ->
  t <> [] -> head_lacks is_space t = true -> prose t = true ->
  parse (JString (ds ++ str "." ++ sp ++ t))
  = Normal (str "<p><li>" ++ t ++ str "</li></p>").
Proof.
  intros D1 D2 H1 H2 H3 H4 H5. unfold parse.
  replace (to_boolean (JString (ds ++ str "." ++ sp ++ t))) with true.
  - cbn [negb]. now rewrite convert_ol_item.
  - cbn [to_boolean]. destruct ds; [congruence | reflexivity].
Qed.

Lemma ordered_item_line_witness :
  forallb is_digit (str "12") = true /\
  parse (JString (str "12. last step"))
  = Normal (str "<p><li>last step</li></p>").
Proof.
  split; [reflexivity|].
  apply (@ordered_item_line (str "12") (str " ") (str "last step"));
    try reflexivity; discriminate.
Defined.

(** X21.  Paragraphs.  For paragraphs of plain text (no markup character,
    no line that begins as a header, a rule, a quote or a list item, no
    blank line inside and no line feed at the end) separated by blank
    lines: [parse] gives each paragraph between [<p>] and [</p>], unchanged
    and with its single line feeds kept, and the paragraphs separated by
    one line feed. *)
Theorem plain_paragraphs (ps : list (list N)) :
  Forall (fun p => plain_paragraph p = true) ps ->
  parse (JString (join id_code [newline; newline] ps))
  = Normal (if is_empty (join id_code [newline; newline] ps) then []
            else join id_code [newline]
                   (map (fun p => str "<p>" ++ p ++ str "</p>") ps)).
Proof.
  intros H. unfold parse.
  destruct (join id_code [newline; newline] ps) as [|a s] eqn:E;
    [reflexivity|].
  cbn [to_boolean length Nat.eqb negb is_empty]. rewrite <- E.
  rewrite convert_paragraphs; [reflexivity | | exact H].
  intros ->. discriminate.
Qed.

Lemma plain_paragraphs_witness :
  Forall (fun p => plain_paragraph p = true)
    [lines ["one"; "two"]; str "three"] /\
  parse (JString (lines ["one"; "two"; ""; "three"]))
  = Normal (lines ["<p>one"; "two</p>"; "<p>three</p>"]).
Proof.
  assert (F : Forall (fun p => plain_paragraph p = true)
                [lines ["one"; "two"]; str "three"])
    by (repeat constructor).
  split; [exact F|].
  exact (plain_paragraphs F).
Defined.


